(** * The structural differ of grader-uml-psi

    A shallow embedding of the tree comparison found twice in the
    repository: as the stand-alone script
    [src/scripts/grade_uml_structure.py] and as the grading script that
    [src/main.py] generates ([create_grading_script]).  Both copies are
    embedded; they differ in one branch of [compare_values] only.

    Modelled fragment of Python.  The inputs are what [json.load]
    returns: [None], [bool], [int], [str], [list] and [dict] with string
    keys.  JSON numbers with a fractional part (Python [float]) are not
    modelled.  A [str] is a [string] of bytes; for text outside ASCII the
    byte order coincides with Python's code point order, but [repr] and
    iteration over characters are exact for ASCII only.  An exception is
    a value of the result type: the model records which kind of
    exception reaches the caller, not its message.

    [compare_values] and [compare_uml_files] are first given as they
    run while the recursion limit of the interpreter is out of reach;
    module [Limited] gives them with the limit, under which they do the
    same or end in a [RecursionError].  The functions of the two
    scripts around the differ follow: the file system and the external
    programs are inputs of the model. *)

From Stdlib Require Import String Ascii List ZArith Bool Arith Lia.
From Stdlib Require Import Permutation Sorted DecimalString OrderedTypeEx.
Import ListNotations.

Open Scope string_scope.

(** ** Values *)

Unset Elimination Schemes.
Inductive value : Type :=
| VNone
| VBool (b : bool)
| VInt (n : Z)
| VStr (s : string)
| VList (items : list value)
| VDict (entries : list (string * value)).
Set Elimination Schemes.

(** Induction over a value tree: the elements of a list and the values
    of a mapping are smaller. *)
Section ValueInduction.
Variable P : value -> Prop.
Hypothesis HNone : P VNone.
Hypothesis HBool : forall b, P (VBool b).
Hypothesis HInt : forall n, P (VInt n).
Hypothesis HStr : forall s, P (VStr s).
Hypothesis HList : forall items, Forall P items -> P (VList items).
Hypothesis HDict :
  forall entries, Forall (fun kv => P (snd kv)) entries -> P (VDict entries).

Fixpoint value_ind (v : value) : P v :=
  match v with
  | VNone => HNone
  | VBool b => HBool b
  | VInt n => HInt n
  | VStr s => HStr s
  | VList items =>
      HList items
        ((fix all (l : list value) : Forall P l :=
            match l with
            | [] => Forall_nil P
            | x :: r => Forall_cons x (value_ind x) (all r)
            end) items)
  | VDict entries =>
      HDict entries
        ((fix all (l : list (string * value))
            : Forall (fun kv => P (snd kv)) l :=
            match l with
            | [] => Forall_nil _
            | kv :: r =>
                @Forall_cons _ (fun kv => P (snd kv)) kv r
                  (value_ind (snd kv)) (all r)
            end) entries)
  end.
End ValueInduction.

(** ** Exceptions and results *)

Inductive exn : Type :=
| TypeError
| AttributeError
| RecursionError.

Inductive result (A : Type) : Type :=
| Ok (a : A)
| Raise (e : exn).
Arguments Ok {A} a.
Arguments Raise {A} e.

Definition bind {A B : Type} (r : result A) (k : A -> result B) : result B :=
  match r with
  | Ok a => k a
  | Raise e => Raise e
  end.

Notation "x <- r ;; k" := (bind r (fun x => k))
  (at level 61, r at next level, right associativity).

(** [[f(x) for x in l]], stopping at the first exception. *)
Fixpoint mapM {A B : Type} (f : A -> result B) (l : list A)
  : result (list B) :=
  match l with
  | [] => Ok []
  | x :: r => y <- f x ;; ys <- mapM f r ;; Ok (y :: ys)
  end.

(** ** Text: [type(v).__name__], [str], [repr], [endswith] *)

Definition type_name (v : value) : string :=
  match v with
  | VNone => "NoneType"
  | VBool _ => "bool"
  | VInt _ => "int"
  | VStr _ => "str"
  | VList _ => "list"
  | VDict _ => "dict"
  end.

Definition str_of_Z (n : Z) : string := NilZero.string_of_int (Z.to_int n).
Definition str_of_nat (n : nat) : string :=
  NilZero.string_of_uint (Nat.to_uint n).

Definition squote : ascii := "039"%char.
Definition dquote : ascii := "034"%char.
Definition backslash : ascii := "092"%char.

Fixpoint mem_char (c : ascii) (s : string) : bool :=
  match s with
  | EmptyString => false
  | String d r => Ascii.eqb c d || mem_char c r
  end.

Definition hex_digit (n : nat) : ascii :=
  ascii_of_nat (if Nat.ltb n 10 then 48 + n else 87 + n).

(** One character of a [repr]'d string, [q] being the enclosing quote. *)
Definition repr_char (q c : ascii) : string :=
  let n := nat_of_ascii c in
  if Ascii.eqb c backslash then String backslash (String backslash "")
  else if Ascii.eqb c q then String backslash (String q "")
  else if Nat.eqb n 10 then String backslash "n"
  else if Nat.eqb n 13 then String backslash "r"
  else if Nat.eqb n 9 then String backslash "t"
  else if Nat.ltb n 32 || Nat.eqb n 127 then
    String backslash
      (String "x" (String (hex_digit (n / 16)) (String (hex_digit (n mod 16)) "")))
  else String c "".

Fixpoint repr_chars (q : ascii) (s : string) : string :=
  match s with
  | EmptyString => ""
  | String c r => repr_char q c ++ repr_chars q r
  end.

(** [repr] of a [str]: single quotes, unless the text has a single quote
    and no double quote. *)
Definition repr_str (s : string) : string :=
  let q := if mem_char squote s && negb (mem_char dquote s)
           then dquote else squote in
  String q (repr_chars q s ++ String q "").

Fixpoint py_repr (v : value) : string :=
  match v with
  | VNone => "None"
  | VBool true => "True"
  | VBool false => "False"
  | VInt n => str_of_Z n
  | VStr s => repr_str s
  | VList items => "[" ++ String.concat ", " (map py_repr items) ++ "]"
  | VDict entries =>
      "{" ++ String.concat ", "
               (map (fun kv => repr_str (fst kv) ++ ": " ++ py_repr (snd kv))
                    entries)
          ++ "}"
  end.

(** What an f-string field [{v}] prints. *)
Definition py_str (v : value) : string :=
  match v with
  | VStr s => s
  | _ => py_repr v
  end.

Fixpoint rev_string (s : string) : string :=
  match s with
  | EmptyString => ""
  | String c r => rev_string r ++ String c ""
  end.

Fixpoint startswith (s prefix : string) : bool :=
  match prefix, s with
  | EmptyString, _ => true
  | String c p, String d r => Ascii.eqb c d && startswith r p
  | String _ _, EmptyString => false
  end.

(** [s.endswith(suffix)] *)
Definition endswith (s suffix : string) : bool :=
  startswith (rev_string s) (rev_string suffix).

(** ** Python dictionaries

    A [dict] keeps its keys in insertion order, and the loops of the
    differ run in that order, so a dictionary is an association list
    with pairwise distinct keys.  Assigning to a key that is present
    replaces the value and keeps the key and its place. *)

Section Dict.
Context {K V : Type}.
Variable keqb : K -> K -> bool.

Fixpoint dict_get (k : K) (d : list (K * V)) : option V :=
  match d with
  | [] => None
  | (k', v) :: r => if keqb k k' then Some v else dict_get k r
  end.

Definition dict_mem (k : K) (d : list (K * V)) : bool :=
  match dict_get k d with
  | Some _ => true
  | None => false
  end.

Fixpoint dict_set (k : K) (v : V) (d : list (K * V)) : list (K * V) :=
  match d with
  | [] => [(k, v)]
  | (k', v') :: r =>
      if keqb k k' then (k', v) :: r else (k', v') :: dict_set k v r
  end.

Definition dict_store (d : list (K * V)) (kv : K * V) : list (K * V) :=
  dict_set (fst kv) (snd kv) d.

(** [{k: v for (k, v) in kvs}] *)
Definition dict_of (kvs : list (K * V)) : list (K * V) :=
  fold_left dict_store kvs [].
End Dict.

(** Hashable values met as keys: the scalars.  Lists and dictionaries
    are unhashable. *)
Inductive hkey : Type :=
| HNone
| HBool (b : bool)
| HInt (n : Z)
| HStr (s : string).

Definition hashable (v : value) : result hkey :=
  match v with
  | VNone => Ok HNone
  | VBool b => Ok (HBool b)
  | VInt n => Ok (HInt n)
  | VStr s => Ok (HStr s)
  | VList _ | VDict _ => Raise TypeError
  end.

Definition value_of_hkey (k : hkey) : value :=
  match k with
  | HNone => VNone
  | HBool b => VBool b
  | HInt n => VInt n
  | HStr s => VStr s
  end.

(** Equality of keys is [==]: [True == 1] and [False == 0]. *)
Definition hkey_eqb (a b : hkey) : bool :=
  match a, b with
  | HNone, HNone => true
  | HBool x, HBool y => Bool.eqb x y
  | HInt x, HInt y => Z.eqb x y
  | HBool x, HInt y | HInt y, HBool x => Z.eqb (Z.b2z x) y
  | HStr x, HStr y => String.eqb x y
  | _, _ => false
  end.

Fixpoint tuple_eqb (a b : list hkey) : bool :=
  match a, b with
  | [], [] => true
  | x :: a', y :: b' => hkey_eqb x y && tuple_eqb a' b'
  | _, _ => false
  end.

(** ** Comparisons: [==], [<], [sorted] *)

Fixpoint py_eq (a b : value) {struct a} : bool :=
  match a, b with
  | VNone, VNone => true
  | VBool x, VBool y => Bool.eqb x y
  | VInt x, VInt y => Z.eqb x y
  | VBool x, VInt y | VInt y, VBool x => Z.eqb (Z.b2z x) y
  | VStr x, VStr y => String.eqb x y
  | VList xs, VList ys =>
      (fix all (xs ys : list value) : bool :=
         match xs, ys with
         | [], [] => true
         | x :: xs', y :: ys' => py_eq x y && all xs' ys'
         | _, _ => false
         end) xs ys
  | VDict xs, VDict ys =>
      Nat.eqb (List.length xs) (List.length ys)
      && forallb (fun kv =>
                    match dict_get String.eqb (fst kv) ys with
                    | Some y => py_eq (snd kv) y
                    | None => false
                    end) xs
  | _, _ => false
  end.

Definition number (v : value) : option Z :=
  match v with
  | VBool b => Some (Z.b2z b)
  | VInt n => Some n
  | _ => None
  end.

(** [a < b].  Numbers compare by value, strings by code point, lists
    lexicographically; anything else is a [TypeError]. *)
Fixpoint py_lt (a b : value) {struct a} : result bool :=
  match a, b with
  | VStr x, VStr y => Ok (String.ltb x y)
  | VList xs, VList ys =>
      (fix lex (xs ys : list value) : result bool :=
         match xs, ys with
         | [], [] => Ok false
         | [], _ :: _ => Ok true
         | _ :: _, [] => Ok false
         | x :: xs', y :: ys' => if py_eq x y then lex xs' ys' else py_lt x y
         end) xs ys
  | _, _ =>
      match number a, number b with
      | Some x, Some y => Ok (Z.ltb x y)
      | _, _ => Raise TypeError
      end
  end.

(** [sorted] as a stable insertion sort that asks [<] only; an exception
    of a comparison ends it.  CPython's own sort asks other pairs, in
    another order; on scalars this makes no difference to the result or
    to whether [TypeError] is raised. *)
Fixpoint sort_insert (x : value) (l : list value) : result (list value) :=
  match l with
  | [] => Ok [x]
  | y :: r =>
      lt <- py_lt y x ;;
      if lt then (r' <- sort_insert x r ;; Ok (y :: r')) else Ok (x :: l)
  end.

Fixpoint sorted (l : list value) : result (list value) :=
  match l with
  | [] => Ok []
  | x :: r => r' <- sorted r ;; sort_insert x r'
  end.

(** ** Keyed collections

    [compare_methods], [compare_fields] and [compare_constructors] are
    the same text in both scripts.  Each builds a dictionary per side
    with a comprehension, walks the reference dictionary, then the
    student's. *)

(** The result of a comparison: the list [differences], or the
    exception that ended it. *)
Definition differ : Type := value -> string -> result (list string).

(** [m.get(key, default)]; only a [dict] has [get]. *)
Definition get_attr (m : value) (key : string) (default : value)
  : result value :=
  match m with
  | VDict entries =>
      Ok (match dict_get String.eqb key entries with
          | Some v => v
          | None => default
          end)
  | _ => Raise AttributeError
  end.

(** [tuple(v)]: the elements of a list, the characters of a string, the
    keys of a dictionary. *)
Definition py_tuple (v : value) : result (list value) :=
  match v with
  | VList items => Ok items
  | VStr s => Ok (map (fun c => VStr (String c "")) (list_ascii_of_string s))
  | VDict entries => Ok (map (fun kv => VStr (fst kv)) entries)
  | VNone | VBool _ | VInt _ => Raise TypeError
  end.

(** [tuple(m.get('params', []))], hashed when it is used as a key. *)
Definition params_key (m : value) : result (list hkey) :=
  params <- get_attr m "params" (VList []) ;;
  t <- py_tuple params ;;
  mapM hashable t.

(** [m.get('name', '')], hashed when it is used as a key. *)
Definition name_key (m : value) : result hkey :=
  name <- get_attr m "name" (VStr "") ;;
  hashable name.

(** [(m.get('name', ''), tuple(m.get('params', [])))] *)
Definition method_sig (m : value) : result (hkey * list hkey) :=
  name <- get_attr m "name" (VStr "") ;;
  params <- get_attr m "params" (VList []) ;;
  t <- py_tuple params ;;
  n <- hashable name ;;
  ps <- mapM hashable t ;;
  Ok (n, ps).

Definition sig_eqb (a b : hkey * list hkey) : bool :=
  hkey_eqb (fst a) (fst b) && tuple_eqb (snd a) (snd b).

(** [sep.join(t)]: every element must be a [str]. *)
Definition join_strs (sep : string) (t : list hkey) : result string :=
  ss <- mapM (fun k => match k with
                       | HStr s => Ok s
                       | _ => Raise TypeError
                       end) t ;;
  Ok (String.concat sep ss).

Definition hkey_str (k : hkey) : string := py_str (value_of_hkey k).

(** [{list(t)}] in an f-string. *)
Definition tuple_repr (t : list hkey) : string :=
  py_repr (VList (map value_of_hkey t)).

Section Keyed.
Context {K : Type}.
(** The key of an item, key equality, the two messages and the path
    under which two items with one key are compared. *)
Variable key_of : value -> result K.
Variable keqb : K -> K -> bool.
Variable missing extra : string -> K -> string.
Variable item_path : string -> K -> result string.

(** [{key(m): m for m in items}] *)
Definition keyed_map {A : Type} (val : A -> value) (items : list A)
  : result (list (K * A)) :=
  kvs <- mapM (fun a => k <- key_of (val a) ;; Ok (k, a)) items ;;
  Ok (dict_of keqb kvs).

(** [for sig, ref_item in ref_map.items(): ...].  A reference item
    travels with [compare_values ref_item], the call made on it. *)
Fixpoint keyed_ref_loop (ref_map : list (K * (value * differ)))
    (stu_map : list (K * value)) (path : string) : result (list string) :=
  match ref_map with
  | [] => Ok []
  | (sig, (_, compare_ref_item)) :: rest =>
      d <- match dict_get keqb sig stu_map with
           | None => Ok [missing path sig]
           | Some stu_item =>
               p <- item_path path sig ;; compare_ref_item stu_item p
           end ;;
      ds <- keyed_ref_loop rest stu_map path ;;
      Ok (d ++ ds)%list
  end.

(** [for sig in stu_map: if sig not in ref_map: ...] *)
Definition keyed_stu_loop {A : Type} (ref_map : list (K * A))
    (stu_map : list (K * value)) (path : string) : list string :=
  map (fun kv => extra path (fst kv))
      (filter (fun kv => negb (dict_mem keqb (fst kv) ref_map)) stu_map).

Definition compare_keyed (ref_items : list (value * differ))
    (stu_items : list value) (path : string) : result (list string) :=
  ref_map <- keyed_map fst ref_items ;;
  stu_map <- keyed_map (fun m => m) stu_items ;;
  first <- keyed_ref_loop ref_map stu_map path ;;
  Ok (first ++ keyed_stu_loop ref_map stu_map path)%list.
End Keyed.

(** The messages and paths of the three matchers. *)
Definition method_missing (path : string) (sig : hkey * list hkey) : string :=
  path ++ " - Missing method: " ++ hkey_str (fst sig)
       ++ " with params " ++ tuple_repr (snd sig).

Definition method_extra (path : string) (sig : hkey * list hkey) : string :=
  path ++ " - Extra method: " ++ hkey_str (fst sig)
       ++ " with params " ++ tuple_repr (snd sig).

Definition method_path (path : string) (sig : hkey * list hkey)
  : result string :=
  ps <- join_strs "," (snd sig) ;;
  Ok (path ++ "." ++ hkey_str (fst sig) ++ "(" ++ ps ++ ")").

Definition field_missing (path : string) (name : hkey) : string :=
  path ++ " - Missing field: " ++ hkey_str name.

Definition field_extra (path : string) (name : hkey) : string :=
  path ++ " - Extra field: " ++ hkey_str name.

Definition field_path (path : string) (name : hkey) : result string :=
  Ok (path ++ "." ++ hkey_str name).

Definition constructor_missing (path : string) (params : list hkey) : string :=
  path ++ " - Missing constructor with params " ++ tuple_repr params.

Definition constructor_extra (path : string) (params : list hkey) : string :=
  path ++ " - Extra constructor with params " ++ tuple_repr params.

Definition constructor_path (path : string) (params : list hkey)
  : result string :=
  ps <- join_strs "," params ;;
  Ok (path ++ ".constructor(" ++ ps ++ ")").

(** grade_uml_structure.py 92-107, main.py 372-387 *)
Definition compare_methods : list (value * differ) -> list value -> string
                             -> result (list string) :=
  compare_keyed method_sig sig_eqb method_missing method_extra method_path.

(** grade_uml_structure.py 109-124, main.py 389-404 *)
Definition compare_fields : list (value * differ) -> list value -> string
                            -> result (list string) :=
  compare_keyed name_key hkey_eqb field_missing field_extra field_path.

(** grade_uml_structure.py 126-141, main.py 406-421 *)
Definition compare_constructors : list (value * differ) -> list value
                                  -> string -> result (list string) :=
  compare_keyed params_key tuple_eqb constructor_missing constructor_extra
    constructor_path.

(** ** [compare_values] *)

(** The two copies of the differ. *)
Inductive script : Type :=
| Standalone   (* src/scripts/grade_uml_structure.py *)
| Embedded.    (* the grading script generated by src/main.py *)

(** [for i, (ref_item, stu_item) in enumerate(zip(ref_val, stu_val)): ...] *)
Fixpoint zip_loop (ref_items : list (value * differ)) (stu_items : list value)
    (i : nat) (path : string) : result (list string) :=
  match ref_items, stu_items with
  | (_, compare_ref_item) :: r, stu_item :: t =>
      d <- compare_ref_item stu_item (path ++ "[" ++ str_of_nat i ++ "]") ;;
      ds <- zip_loop r t (S i) path ;;
      Ok (d ++ ds)%list
  | _, _ => Ok []
  end.

Definition type_mismatch (ref_val stu_val : value) (path : string) : string :=
  path ++ " - Type mismatch: expected " ++ type_name ref_val
       ++ ", got " ++ type_name stu_val.

Definition value_mismatch (ref_val stu_val : value) (path : string) : string :=
  path ++ " - Value mismatch: expected " ++ py_str ref_val
       ++ ", got " ++ py_str stu_val.

Definition content_mismatch (ref_sorted stu_sorted : list value)
    (path : string) : string :=
  path ++ " - Content mismatch: expected " ++ py_repr (VList ref_sorted)
       ++ ", got " ++ py_repr (VList stu_sorted).

(** The two scripts word the length mismatch differently. *)
Definition length_mismatch (sc : script) (ref_val stu_val : list value)
    (path : string) : string :=
  match sc with
  | Standalone =>
      path ++ " - Length mismatch: expected " ++ py_repr (VList ref_val)
           ++ " (" ++ str_of_nat (List.length ref_val) ++ " items), got "
           ++ py_repr (VList stu_val)
           ++ " (" ++ str_of_nat (List.length stu_val) ++ " items)"
  | Embedded =>
      path ++ " - Length mismatch: expected " ++ py_repr (VList ref_val)
           ++ ", got " ++ py_repr (VList stu_val)
  end.

(** [for key in stu_val: if key not in ref_val: ...] *)
Definition extra_keys (ref_entries stu_entries : list (string * value))
    (path : string) : list string :=
  map (fun kv => path ++ "." ++ fst kv ++ " - Extra key")
      (filter (fun kv => negb (dict_mem String.eqb (fst kv) ref_entries))
              stu_entries).

(** grade_uml_structure.py 56-90 ([Standalone]) and main.py 335-370
    ([Embedded]).  In the loop over a reference dictionary [ref_val[key]]
    is the value stored with [key].  The matchers and the positional
    loop call [compare_values] on reference items: they receive every
    item of [ref_val] with [compare_values] applied to it.  After the
    test of the types the two values are of one type; the last branch
    is the one of the scalars. *)
Fixpoint compare_values (sc : script) (ref_val : value) {struct ref_val}
  : differ :=
  fun stu_val path =>
  if negb (String.eqb (type_name ref_val) (type_name stu_val)) then
    Ok [type_mismatch ref_val stu_val path]
  else
    match ref_val, stu_val with
    | VDict ref_entries, VDict stu_entries =>
        first <-
          (fix loop (l : list (string * value)) : result (list string) :=
             match l with
             | [] => Ok []
             | (key, ref_item) :: rest =>
                 d <- match dict_get String.eqb key stu_entries with
                      | None => Ok [path ++ "." ++ key ++ " - Missing key"]
                      | Some stu_item =>
                          compare_values sc ref_item stu_item
                            (path ++ "." ++ key)
                      end ;;
                 ds <- loop rest ;;
                 Ok (d ++ ds)%list
             end) ref_entries ;;
        Ok (first ++ extra_keys ref_entries stu_entries path)%list
    | VList ref_items, VList stu_items =>
        let with_calls := map (fun x => (x, compare_values sc x)) ref_items in
        if endswith path ".methods" then
          compare_methods with_calls stu_items path
        else if endswith path ".fields" then
          compare_fields with_calls stu_items path
        else if endswith path ".constructors" then
          compare_constructors with_calls stu_items path
        else if endswith path ".extends" || endswith path ".implements" then
          ref_sorted <- sorted ref_items ;;
          stu_sorted <- sorted stu_items ;;
          if negb (py_eq (VList ref_sorted) (VList stu_sorted)) then
            Ok [content_mismatch ref_sorted stu_sorted path]
          else Ok []
        else
          let differ_len :=
            negb (Nat.eqb (List.length ref_items) (List.length stu_items)) in
          match sc with
          | Standalone =>
              ds <- zip_loop with_calls stu_items 0 path ;;
              Ok ((if differ_len
                   then [length_mismatch sc ref_items stu_items path]
                   else []) ++ ds)%list
          | Embedded =>
              if differ_len
              then Ok [length_mismatch sc ref_items stu_items path]
              else zip_loop with_calls stu_items 0 path
          end
    | _, _ =>
        if negb (py_eq ref_val stu_val)
        then Ok [value_mismatch ref_val stu_val path]
        else Ok []
    end.

(** ** [compare_uml_files] *)

(** What the two loops of [compare_uml_files] walk: a dictionary, after
    a list has been turned into one; or whatever else was passed, of
    which a string can still be iterated and searched. *)
Inductive uml_data : Type :=
| Classes (by_name : list (hkey * value))
| Text (s : string)
| NotIterable.

(** One step of [{item["name"]: item for item in data if "name" in item}]:
    the pair to store, if any.  [in] is a key test on a dictionary, a
    substring test on a string and a search on a list; indexing with
    ["name"] works on a dictionary only. *)
Definition name_entry (item : value) : result (option (hkey * value)) :=
  match item with
  | VDict entries =>
      match dict_get String.eqb "name" entries with
      | Some name => k <- hashable name ;; Ok (Some (k, item))
      | None => Ok None
      end
  | VStr s =>
      match String.index 0 "name" s with
      | Some _ => Raise TypeError
      | None => Ok None
      end
  | VList items =>
      if existsb (py_eq (VStr "name")) items then Raise TypeError else Ok None
  | VNone | VBool _ | VInt _ => Raise TypeError
  end.

Fixpoint somes {A : Type} (l : list (option A)) : list A :=
  match l with
  | [] => []
  | Some a :: r => a :: somes r
  | None :: r => somes r
  end.

(** [{item["name"]: item for item in data if "name" in item}] *)
Definition by_name (items : list value) : result (list (hkey * value)) :=
  entries <- mapM name_entry items ;;
  Ok (dict_of hkey_eqb (somes entries)).

(** [if isinstance(data, list): data = {...}] *)
Definition normalize (data : value) : result uml_data :=
  match data with
  | VList items => d <- by_name items ;; Ok (Classes d)
  | VDict entries => Ok (Classes (map (fun kv => (HStr (fst kv), snd kv)) entries))
  | VStr s => Ok (Text s)
  | VNone | VBool _ | VInt _ => Ok NotIterable
  end.

(** [for class_name in data] *)
Definition data_keys (data : uml_data) : result (list hkey) :=
  match data with
  | Classes d => Ok (map fst d)
  | Text s => Ok (map (fun c => HStr (String c "")) (list_ascii_of_string s))
  | NotIterable => Raise TypeError
  end.

(** [class_name in data] *)
Definition data_mem (class_name : hkey) (data : uml_data) : result bool :=
  match data with
  | Classes d => Ok (dict_mem hkey_eqb class_name d)
  | Text s =>
      match class_name with
      | HStr n => Ok (match String.index 0 n s with
                      | Some _ => true
                      | None => false
                      end)
      | _ => Raise TypeError
      end
  | NotIterable => Raise TypeError
  end.

(** [data[class_name]], for a [class_name] that is in [data] *)
Definition data_item (class_name : hkey) (data : uml_data) : result value :=
  match data with
  | Classes d =>
      match dict_get hkey_eqb class_name d with
      | Some v => Ok v
      | None => Raise TypeError
      end
  | Text _ | NotIterable => Raise TypeError
  end.

Definition missing_class (class_name : hkey) : string :=
  "Missing class: " ++ hkey_str class_name.

Definition extra_class (class_name : hkey) : string :=
  "Extra class: " ++ hkey_str class_name.

(** [for class_name in ref_data: ...] *)
Fixpoint ref_class_loop (sc : script) (names : list hkey)
    (ref_data student_data : uml_data) : result (list string) :=
  match names with
  | [] => Ok []
  | class_name :: rest =>
      present <- data_mem class_name student_data ;;
      d <- (if negb present then Ok [missing_class class_name]
            else
              ref_class <- data_item class_name ref_data ;;
              stu_class <- data_item class_name student_data ;;
              compare_values sc ref_class stu_class
                ("Class " ++ hkey_str class_name)) ;;
      ds <- ref_class_loop sc rest ref_data student_data ;;
      Ok (d ++ ds)%list
  end.

(** [for class_name in student_data: ...] *)
Fixpoint stu_class_loop (names : list hkey) (ref_data : uml_data)
  : result (list string) :=
  match names with
  | [] => Ok []
  | class_name :: rest =>
      present <- data_mem class_name ref_data ;;
      ds <- stu_class_loop rest ref_data ;;
      Ok ((if negb present then [extra_class class_name] else []) ++ ds)%list
  end.

(** grade_uml_structure.py 143-164, main.py 423-444 *)
Definition compare_uml_files (sc : script) (ref_data student_data : value)
  : result (list string) :=
  ref <- normalize ref_data ;;
  stu <- normalize student_data ;;
  ref_names <- data_keys ref ;;
  first <- ref_class_loop sc ref_names ref stu ;;
  stu_names <- data_keys stu ;;
  second <- stu_class_loop stu_names ref ;;
  Ok (first ++ second)%list.

Definition is_str (v : value) : bool :=
  match v with
  | VStr _ => true
  | _ => false
  end.

(** ** Inputs of the expected shape

    [valid v path] says that [v], compared at [path], has the shape the
    differ counts on at every node it visits: the keys of a dictionary
    are pairwise distinct; under [.methods], [.fields] and
    [.constructors] every item is a dictionary whose key is built
    without an exception and is made of strings (as it is when [name] is
    a string or absent and [params] a list of strings or absent); under
    [.extends] and [.implements] every element is a string.  Items and
    elements are valid at the path at which they are compared. *)

Definition is_hstr (k : hkey) : bool :=
  match k with
  | HStr _ => true
  | _ => false
  end.

Definition sig_strs (sig : hkey * list hkey) : bool :=
  is_hstr (fst sig) && forallb is_hstr (snd sig).

Fixpoint distinct_keys {V : Type} (entries : list (string * V)) : bool :=
  match entries with
  | [] => true
  | (k, _) :: r => negb (dict_mem String.eqb k r) && distinct_keys r
  end.

Definition keyed_item_ok {K : Type} (key_of : value -> result K)
    (strs : K -> bool) (item_path : string -> K -> result string)
    (valid_at : value -> string -> bool) (path : string) (m : value) : bool :=
  match key_of m with
  | Ok k =>
      strs k && match item_path path k with
                | Ok p => valid_at m p
                | Raise _ => false
                end
  | Raise _ => false
  end.

Fixpoint valid (v : value) (path : string) {struct v} : bool :=
  match v with
  | VDict entries =>
      distinct_keys entries
      && forallb (fun kv => valid (snd kv) (path ++ "." ++ fst kv)) entries
  | VList items =>
      if endswith path ".methods" then
        forallb (keyed_item_ok method_sig sig_strs method_path valid path) items
      else if endswith path ".fields" then
        forallb (keyed_item_ok name_key is_hstr field_path valid path) items
      else if endswith path ".constructors" then
        forallb (keyed_item_ok params_key (forallb is_hstr) constructor_path
                   valid path) items
      else if endswith path ".extends" || endswith path ".implements" then
        forallb is_str items
      else
        (fix elements (l : list value) (i : nat) : bool :=
           match l with
           | [] => true
           | x :: r =>
               valid x (path ++ "[" ++ str_of_nat i ++ "]")
               && elements r (S i)
           end) items 0
  | _ => true
  end.

(** ** The loops, with the comparison as a parameter

    The same loops as [keyed_ref_loop], [compare_keyed] and [zip_loop],
    over the reference items themselves; [compare_keyed_calls] and
    [zip_loop_calls] below relate the two forms. *)

Section KeyedBy.
Context {K : Type}.
Variable key_of : value -> result K.
Variable keqb : K -> K -> bool.
Variable missing extra : string -> K -> string.
Variable item_path : string -> K -> result string.
Variable compare : value -> differ.

Fixpoint keyed_loop_by (ref_map stu_map : list (K * value)) (path : string)
  : result (list string) :=
  match ref_map with
  | [] => Ok []
  | (sig, ref_item) :: rest =>
      d <- match dict_get keqb sig stu_map with
           | None => Ok [missing path sig]
           | Some stu_item =>
               p <- item_path path sig ;; compare ref_item stu_item p
           end ;;
      ds <- keyed_loop_by rest stu_map path ;;
      Ok (d ++ ds)%list
  end.

Definition compare_keyed_by (ref_items stu_items : list value) (path : string)
  : result (list string) :=
  ref_map <- keyed_map key_of keqb (fun m => m) ref_items ;;
  stu_map <- keyed_map key_of keqb (fun m => m) stu_items ;;
  first <- keyed_loop_by ref_map stu_map path ;;
  Ok (first ++ keyed_stu_loop keqb extra ref_map stu_map path)%list.
End KeyedBy.

Fixpoint zip_loop_by (compare : value -> differ)
    (ref_items stu_items : list value) (i : nat) (path : string)
  : result (list string) :=
  match ref_items, stu_items with
  | ref_item :: r, stu_item :: t =>
      d <- compare ref_item stu_item (path ++ "[" ++ str_of_nat i ++ "]") ;;
      ds <- zip_loop_by compare r t (S i) path ;;
      Ok (d ++ ds)%list
  | _, _ => Ok []
  end.

Fixpoint last_char (s : string) : option ascii :=
  match s with
  | EmptyString => None
  | String c r =>
      match last_char r with
      | Some d => Some d
      | None => Some c
      end
  end.

(** The character that ends the length mismatch of a script. *)
Definition closing (sc : script) : ascii :=
  match sc with
  | Standalone => ")"%char
  | Embedded => "]"%char
  end.

Definition closes (sc : script) (d : string) : bool :=
  match last_char d with
  | Some c => Ascii.eqb c (closing sc)
  | None => false
  end.

(** A length-mismatch discrepancy of script [sc] is absent from [ds]. *)
Definition no_length_mismatch (sc : script) (ds : list string) : Prop :=
  forall ref_items stu_items path,
    List.length ref_items <> List.length stu_items ->
    ~ In (length_mismatch sc ref_items stu_items path) ds.

(** ** The class shape of the specification

    Section 6 of the specification, in its words: a mapping with [name]
    (string), [extends] and [implements] (sequences of strings),
    [fields] (a sequence of mappings with [name]), [methods] (a sequence
    of mappings with [name] and [params], a sequence of strings) and
    [constructors] (a sequence of mappings with [params]); any further
    attribute is allowed, with any value. *)

Definition attr (entries : list (string * value)) (key : string)
    (ok : value -> bool) : bool :=
  match dict_get String.eqb key entries with
  | Some v => ok v
  | None => false
  end.

Definition str_list (v : value) : bool :=
  match v with
  | VList l => forallb is_str l
  | _ => false
  end.

Definition mapping_list (ok : list (string * value) -> bool) (v : value)
  : bool :=
  match v with
  | VList l =>
      forallb (fun m => match m with
                        | VDict e => distinct_keys e && ok e
                        | _ => false
                        end) l
  | _ => false
  end.

Definition spec_class_shape (v : value) : bool :=
  match v with
  | VDict e =>
      distinct_keys e
      && attr e "name" is_str
      && attr e "extends" str_list
      && attr e "implements" str_list
      && attr e "fields" (mapping_list (fun f => attr f "name" is_str))
      && attr e "methods"
           (mapping_list (fun m => attr m "name" is_str
                                   && attr m "params" str_list))
      && attr e "constructors" (mapping_list (fun c => attr c "params" str_list))
  | _ => false
  end.

(** A class as the extractor writes it. *)
Definition class_of (name : string) (extends implements fields methods
                                       constructors : list value) : value :=
  VDict [("name", VStr name); ("extends", VList extends);
         ("implements", VList implements); ("fields", VList fields);
         ("methods", VList methods); ("constructors", VList constructors)].

(** ** Collections without repeated keys *)

Fixpoint no_repeat {K : Type} (keqb : K -> K -> bool) (ks : list K) : bool :=
  match ks with
  | [] => true
  | k :: r => negb (existsb (keqb k) r) && no_repeat keqb r
  end.

(** Every item of the collection has a key, and no two items have equal
    keys. *)
Definition distinct_by {K : Type} (key_of : value -> result K)
    (keqb : K -> K -> bool) (items : list value) : bool :=
  match mapM key_of items with
  | Ok ks => no_repeat keqb ks
  | Raise _ => false
  end.

(** ** The corpus of the specification

    Section 3 of the specification, in its words: a mapping from class
    name to class, built from a sequence of classes by keying each one
    by its [name]; entries lacking a [name] are dropped, and of two
    classes with one name the later one stays (last write wins). *)

Definition named (items : list value) : list (string * value) :=
  flat_map (fun item =>
              match item with
              | VDict e =>
                  match dict_get String.eqb "name" e with
                  | Some (VStr n) => [(n, item)]
                  | _ => []
                  end
              | _ => []
              end) items.

Definition name_keyed (items : list value) : list (string * value) :=
  dict_of String.eqb (named items).

(** A mapping whose [name], when it has one, is a string. *)
Definition class_entry (item : value) : bool :=
  match item with
  | VDict e =>
      match dict_get String.eqb "name" e with
      | Some (VStr _) | None => true
      | Some _ => false
      end
  | _ => false
  end.

(** ** Sample inputs *)

(** A method [name(params)] with a return type. *)
Definition method_of (name : string) (params : list string) (ret : string)
  : value :=
  VDict [("name", VStr name); ("params", VList (map VStr params));
         ("returnType", VStr ret)].

Definition field_of (name type : string) : value :=
  VDict [("name", VStr name); ("type", VStr type)].

(** The class of scenarios 1 and 4 of the specification, with a field
    [x] of the given type. *)
Definition foo_with_field (type : string) : value :=
  class_of "Foo" [] [] [field_of "x" type] [] [].

(** The classes of scenario 3 of the specification: a reference with
    [Foo] and [Bar], and an entry without a name between them; a student
    with [Foo] and [Baz]. *)
Definition reference_list : list value :=
  [class_of "Foo" [] [] [] [] []; VDict [("kind", VStr "class")];
   class_of "Bar" [] [] [] [] []].

Definition student_corpus : list (string * value) :=
  [("Foo", class_of "Foo" [] [] [] [] []);
   ("Baz", class_of "Baz" [] [] [] [] [])].

(** A class whose field has one more attribute, named [implements]. *)
Definition foo_with_odd_field : value :=
  class_of "Foo" [] []
    [VDict [("name", VStr "x"); ("type", VStr "int");
            ("implements", VList [VNone; VNone])]] [] [].

(** A class whose method has one more attribute, named [fields]. *)
Definition foo_with_odd_method (extra : string) : value :=
  class_of "Foo" [] [] []
    [VDict [("name", VStr "bar"); ("params", VList [VStr "int"]);
            ("fields", VList [VStr extra])]] [].

(** ** Notions used in the statements *)

Definition scalar (v : value) : bool :=
  match v with
  | VList _ | VDict _ => false
  | _ => true
  end.

(** The positional branch is reached at the paths that end in none of
    the five attribute names. *)
Definition positional (path : string) : bool :=
  negb (endswith path ".methods") && negb (endswith path ".fields")
  && negb (endswith path ".constructors")
  && negb (endswith path ".extends") && negb (endswith path ".implements").

Definition unordered (path : string) : bool :=
  endswith path ".extends" || endswith path ".implements".

(** No two keys of the list are equal. *)
Inductive distinct {K V : Type} (keqb : K -> K -> bool)
  : list (K * V) -> Prop :=
| distinct_nil : distinct keqb []
| distinct_cons k v d :
    (forall k' v', In (k', v') d -> keqb k k' = false) ->
    distinct keqb d -> distinct keqb ((k, v) :: d).

Definition on_value {K V W : Type} (f : V -> W) (kv : K * V) : K * W :=
  (fst kv, f (snd kv)).

Definition on_key {K K' V : Type} (f : K -> K') (kv : K * V) : K' * V :=
  (f (fst kv), snd kv).

Definition string_keys (d : list (string * value)) : list (hkey * value) :=
  map (on_key HStr) d.

(** Keys are equal when they are the same after [True] and [False] are
    read as [1] and [0]. *)
Inductive ckey : Type :=
| CNone
| CNum (n : Z)
| CStr (s : string).

Definition canon (k : hkey) : ckey :=
  match k with
  | HNone => CNone
  | HBool b => CNum (Z.b2z b)
  | HInt n => CNum n
  | HStr s => CStr s
  end.

Fixpoint all2 {A B : Type} (f : A -> B -> bool) (xs : list A) (ys : list B)
  : bool :=
  match xs, ys with
  | [], [] => true
  | x :: xs', y :: ys' => f x y && all2 f xs' ys'
  | _, _ => false
  end.

(** The order of strings, [a <= b] read as [not (b < a)], and the
    insertion sort that [sorted] is on strings. *)
Definition str_le (a b : string) : Prop := String.ltb b a = false.

Fixpoint insert_str (x : string) (l : list string) : list string :=
  match l with
  | [] => [x]
  | y :: r => if String.ltb y x then y :: insert_str x r else x :: l
  end.

Fixpoint sort_str (l : list string) : list string :=
  match l with
  | [] => []
  | x :: r => insert_str x (sort_str r)
  end.

(** A reference item with the call made on it, as the loops of
    [compare_values] pass it on. *)
Definition with_call (compare : value -> differ) (x : value)
  : value * differ :=
  (x, compare x).

Definition with_calls (sc : script) (items : list value)
  : list (value * differ) :=
  map (with_call (compare_values sc)) items.

(** The first loop of the dictionary branch. *)
Fixpoint key_loop (sc : script) (ref_entries stu_entries : list (string * value))
    (path : string) : result (list string) :=
  match ref_entries with
  | [] => Ok []
  | (key, ref_item) :: rest =>
      d <- match dict_get String.eqb key stu_entries with
           | None => Ok [path ++ "." ++ key ++ " - Missing key"]
           | Some stu_item =>
               compare_values sc ref_item stu_item (path ++ "." ++ key)
           end ;;
      ds <- key_loop sc rest stu_entries path ;;
      Ok (d ++ ds)%list
  end.

Definition methods_by (compare : value -> differ) :=
  compare_keyed_by method_sig sig_eqb method_missing method_extra method_path
    compare.

Definition fields_by (compare : value -> differ) :=
  compare_keyed_by name_key hkey_eqb field_missing field_extra field_path
    compare.

Definition constructors_by (compare : value -> differ) :=
  compare_keyed_by params_key tuple_eqb constructor_missing constructor_extra
    constructor_path compare.

(** The positional branch of [valid]. *)
Fixpoint valid_elements (l : list value) (i : nat) (path : string) : bool :=
  match l with
  | [] => true
  | x :: r =>
      valid x (path ++ "[" ++ str_of_nat i ++ "]") && valid_elements r (S i) path
  end.

(** What [keyed_item_ok] says of an item with key [k]. *)
Definition item_ok {K : Type} (key_of : value -> result K) (strs : K -> bool)
    (item_path : string -> K -> result string) (path : string) (k : K)
    (v : value) : Prop :=
  key_of v = Ok k /\ strs k = true
  /\ exists p, item_path path k = Ok p /\ valid v p = true.

(** [agree sc1 sc2 v]: whenever script [sc1], with [v] as reference,
    returns a list free of its length mismatches, script [sc2] returns
    the same list. *)
Definition agree (sc1 sc2 : script) (ref_val : value) : Prop :=
  forall stu_val path ds,
    compare_values sc1 ref_val stu_val path = Ok ds ->
    no_length_mismatch sc1 ds ->
    compare_values sc2 ref_val stu_val path = Ok ds.

(** [returns sc v]: with [v] as reference, script [sc] raises nothing on
    valid inputs. *)
Definition returns (sc : script) (ref_val : value) : Prop :=
  forall stu_val path,
    valid ref_val path = true -> valid stu_val path = true ->
    exists ds, compare_values sc ref_val stu_val path = Ok ds.

(** [reflexive sc v]: script [sc] finds no discrepancy between a valid
    [v] and itself. *)
Definition reflexive (sc : script) (v : value) : Prop :=
  forall path, valid v path = true -> compare_values sc v v path = Ok [].


(** ** The recursion limit

    The interpreter admits a bounded number of nested calls
    ([sys.getrecursionlimit()], 1000 unless it is changed) and raises
    [RecursionError] at the call that would exceed it.  [compare_values]
    and [compare_uml_files] above are the differ as it runs while that
    bound is out of reach.  In [Limited] the same text runs with the
    bound: [frames] is the number of nested calls of functions of the
    script that the interpreter still admits.  A call of
    [compare_values], [compare_methods], [compare_fields],
    [compare_constructors] or [compare_uml_files] takes one of them, and
    gives it back when it returns.  The comprehensions and the built-in
    functions (comparisons, [repr]) take none here, as in the
    interpreters since version 3.12; where older interpreters count
    them against the same limit, the statements leave a margin for them
    ([enough]). *)

(** The first loop of the dictionary branch, with the comparison as a
    parameter. *)
Fixpoint key_loop_by (compare : value -> differ)
    (ref_entries stu_entries : list (string * value)) (path : string)
  : result (list string) :=
  match ref_entries with
  | [] => Ok []
  | (key, ref_item) :: rest =>
      d <- match dict_get String.eqb key stu_entries with
           | None => Ok [path ++ "." ++ key ++ " - Missing key"]
           | Some stu_item => compare ref_item stu_item (path ++ "." ++ key)
           end ;;
      ds <- key_loop_by compare rest stu_entries path ;;
      Ok (d ++ ds)%list
  end.

(** The first loop of [compare_uml_files], with the comparison as a
    parameter. *)
Fixpoint ref_class_loop_by (compare : value -> differ) (names : list hkey)
    (ref_data student_data : uml_data) : result (list string) :=
  match names with
  | [] => Ok []
  | class_name :: rest =>
      present <- data_mem class_name student_data ;;
      d <- (if negb present then Ok [missing_class class_name]
            else
              ref_class <- data_item class_name ref_data ;;
              stu_class <- data_item class_name student_data ;;
              compare ref_class stu_class ("Class " ++ hkey_str class_name)) ;;
      ds <- ref_class_loop_by compare rest ref_data student_data ;;
      Ok (d ++ ds)%list
  end.

Module Limited.

(** A call of a function of the script: it takes one of the [frames]
    that are left, and there is a [RecursionError] when none is left. *)
Definition call {A : Type} (frames : nat) (body : nat -> result A)
  : result A :=
  match frames with
  | 0 => Raise RecursionError
  | S inner => body inner
  end.

(** grade_uml_structure.py 56-141 and main.py 335-421: [compare_values]
    with its calls of itself and of the three matchers, each of which
    calls [compare_values] on the items under one key. *)
Fixpoint compare_values (sc : script) (frames : nat) (ref_val stu_val : value)
    (path : string) {struct frames} : result (list string) :=
  match frames with
  | 0 => Raise RecursionError
  | S frames =>
      if negb (String.eqb (type_name ref_val) (type_name stu_val)) then
        Ok [type_mismatch ref_val stu_val path]
      else
        match ref_val, stu_val with
        | VDict ref_entries, VDict stu_entries =>
            first <- key_loop_by (compare_values sc frames) ref_entries
                       stu_entries path ;;
            Ok (first ++ extra_keys ref_entries stu_entries path)%list
        | VList ref_items, VList stu_items =>
            if endswith path ".methods" then
              call frames
                (fun inner =>
                   methods_by (compare_values sc inner) ref_items stu_items
                     path)
            else if endswith path ".fields" then
              call frames
                (fun inner =>
                   fields_by (compare_values sc inner) ref_items stu_items path)
            else if endswith path ".constructors" then
              call frames
                (fun inner =>
                   constructors_by (compare_values sc inner) ref_items
                     stu_items path)
            else if endswith path ".extends" || endswith path ".implements"
            then
              ref_sorted <- sorted ref_items ;;
              stu_sorted <- sorted stu_items ;;
              if negb (py_eq (VList ref_sorted) (VList stu_sorted)) then
                Ok [content_mismatch ref_sorted stu_sorted path]
              else Ok []
            else
              let differ_len :=
                negb (Nat.eqb (List.length ref_items) (List.length stu_items))
              in
              match sc with
              | Standalone =>
                  ds <- zip_loop_by (compare_values sc frames) ref_items
                          stu_items 0 path ;;
                  Ok ((if differ_len
                       then [length_mismatch sc ref_items stu_items path]
                       else []) ++ ds)%list
              | Embedded =>
                  if differ_len
                  then Ok [length_mismatch sc ref_items stu_items path]
                  else zip_loop_by (compare_values sc frames) ref_items
                         stu_items 0 path
              end
        | _, _ =>
            if negb (py_eq ref_val stu_val)
            then Ok [value_mismatch ref_val stu_val path]
            else Ok []
        end
  end.

(** grade_uml_structure.py 143-164, main.py 423-444 *)
Definition compare_uml_files (sc : script) (frames : nat)
    (ref_data student_data : value) : result (list string) :=
  call frames
    (fun inner =>
       ref <- normalize ref_data ;;
       stu <- normalize student_data ;;
       ref_names <- data_keys ref ;;
       first <- ref_class_loop_by (compare_values sc inner) ref_names ref stu ;;
       stu_names <- data_keys stu ;;
       second <- stu_class_loop stu_names ref ;;
       Ok (first ++ second)%list).

End Limited.

(** The nesting of a value: a scalar has none, and a list or a
    dictionary has one level more than what it holds. *)
Fixpoint depth (v : value) : nat :=
  match v with
  | VList items => S (list_max (map depth items))
  | VDict entries => S (list_max (map (fun kv => depth (snd kv)) entries))
  | _ => 0
  end.

(** The dictionary [{"a": {"a": ... None}}], nested [n] times. *)
Fixpoint nested (n : nat) : value :=
  match n with
  | 0 => VNone
  | S m => VDict [("a", nested m)]
  end.

(** [r] is [r'], unless the recursion limit ends the run first. *)
Definition cut_short {A : Type} (r r' : result A) : Prop :=
  r = r' \/ r = Raise RecursionError.

(** [frames] further calls are enough to compare two values: two for
    every level of nesting of the deeper one, which covers the calls of
    the script and the [repr] of a list in a message, and three for the
    comprehensions and the comparisons of the built-in functions. *)
Definition enough (frames : nat) (ref_val stu_val : value) : Prop :=
  2 * Nat.max (depth ref_val) (depth stu_val) + 3 < frames.

(** ** The scripts around the differ

    What the two scripts do besides comparing: read the list of target
    files, look them up in an extracted submission, run the extractor
    on each and grade the result.  The file system and the external
    programs are inputs of the model: the lines of [files.txt], the
    triples [os.walk] yields, what [extract_jar] returned, and how the
    extractor ran on a file and what it left in [output.json].  Paths are
    POSIX paths. *)

(** [c.isspace()] for an ASCII character: tab to carriage return, the
    four separators and the space. *)
Definition is_space (c : ascii) : bool :=
  let n := nat_of_ascii c in
  (Nat.leb 9 n && Nat.leb n 13) || (Nat.leb 28 n && Nat.leb n 32).

(** [s.lstrip()] and [s.rstrip()] *)
Fixpoint lstrip (s : string) : string :=
  match s with
  | EmptyString => ""
  | String c r => if is_space c then lstrip r else s
  end.

Fixpoint rstrip (s : string) : string :=
  match s with
  | EmptyString => ""
  | String c r =>
      match rstrip r with
      | EmptyString => if is_space c then "" else String c ""
      | String d r' => String c (String d r')
      end
  end.

(** [s.strip()] *)
Definition strip (s : string) : string := rstrip (lstrip s).

(** grade_uml_structure.py 17-19, main.py 232-234; [lines] are the
    lines of [files.txt]. *)
Definition read_target_files (lines : list string) : list string :=
  map strip (filter (fun line => negb (String.eqb (strip line) "")) lines).

(** [os.path.join(a, b)] *)
Definition os_path_join (a b : string) : string :=
  if startswith b "/" then b
  else if String.eqb a "" || endswith a "/" then a ++ b
  else a ++ "/" ++ b.

(** One triple [(root, dirs, files)] of [os.walk]. *)
Definition walk_entry : Type := string * list string * list string.

(** [file_name in target_files] *)
Definition is_target (target_files : list string) (file_name : string) : bool :=
  existsb (String.eqb file_name) target_files.

(** grade_uml_structure.py 33-39, main.py 262-268; [walk] is what
    [os.walk(dir_path)] yields. *)
Definition find_java_files (walk : list walk_entry)
    (target_files : list string) : list (string * string) :=
  fold_left
    (fun found (entry : walk_entry) =>
       let '(root, _, files) := entry in
       fold_left
         (fun found file_name =>
            if is_target target_files file_name
            then dict_set String.eqb file_name (os_path_join root file_name)
                   found
            else found)
         files found)
    walk [].

(** [file_data.get("name", "Unknown")], hashed when it is used as the
    key of the class. *)
Definition class_key (file_data : value) : result hkey :=
  name <- get_attr file_data "name" (VStr "Unknown") ;;
  hashable name.

(** The loops of [compare_uml_files], once both sides are normalized. *)
Definition compare_corpora (sc : script) (ref stu : uml_data)
  : result (list string) :=
  ref_names <- data_keys ref ;;
  first <- ref_class_loop sc ref_names ref stu ;;
  stu_names <- data_keys stu ;;
  second <- stu_class_loop stu_names ref ;;
  Ok (first ++ second)%list.

(** [compare_uml_files(ref_data, student_data)] for the dictionary that
    [process_directory] built: a dictionary is compared as it is, and
    its keys are what [name] held in each class. *)
Definition compare_uml_data (sc : script) (ref_data : value)
    (student_data : list (hkey * value)) : result (list string) :=
  ref <- normalize ref_data ;;
  compare_corpora sc ref (Classes student_data).

(** [if v:] *)
Definition truthy (v : value) : bool :=
  match v with
  | VNone => false
  | VBool b => b
  | VInt n => negb (Z.eqb n 0)
  | VStr s => negb (String.eqb s "")
  | VList items => negb (Nat.eqb (List.length items) 0)
  | VDict entries => negb (Nat.eqb (List.length entries) 0)
  end.

(** A row of the results: [(student_id, status, comments)]. *)
Definition row : Type := string * string * string.

(** The status of a row. *)
Definition status (r : row) : string := snd (fst r).

(** The comments of a row. *)
Definition comments (r : row) : string := snd r.

Definition newline : string := String "010"%char "".

(** [(student_id, "FAIL" if differences else "PASS",
      "\n".join(differences))] *)
Definition graded (student_id : string) (differences : list string) : row :=
  (student_id,
   match differences with
   | [] => "PASS"
   | _ :: _ => "FAIL"
   end,
   String.concat newline differences).

(** [s.rfind(c)] for a character [c]: the index of its last
    occurrence, or [-1]. *)
Fixpoint rfind (c : ascii) (s : string) : Z :=
  match s with
  | EmptyString => (-1)%Z
  | String d r =>
      let i := rfind c r in
      if Z.leb 0 i then (i + 1)%Z else if Ascii.eqb c d then 0%Z else (-1)%Z
  end.

(** [p[i:j]], for [0 <= i] *)
Definition slice (p : string) (i j : Z) : string :=
  substring (Z.to_nat i) (Z.to_nat (j - i)) p.

(** [os.path.splitext(p)[0]]: the extension starts at the last dot of
    the last component, unless nothing but dots comes before that dot
    in the component. *)
Definition splitext_root (p : string) : string :=
  let sepIndex := rfind "/" p in
  let dotIndex := rfind "." p in
  if Z.ltb sepIndex dotIndex
     && negb (forallb (Ascii.eqb ".")
                (list_ascii_of_string (slice p (sepIndex + 1) dotIndex)))
  then slice p 0 dotIndex
  else p.

(** [s.replace(old, new)], for two characters *)
Fixpoint replace_char (old new : ascii) (s : string) : string :=
  match s with
  | EmptyString => ""
  | String c r =>
      String (if Ascii.eqb c old then new else c) (replace_char old new r)
  end.

(** [os.path.splitext(rel_path)[0].replace(os.sep, '_')] *)
Definition student_id_of (rel_path : string) : string :=
  replace_char "/" "_" (splitext_root rel_path).

(** A submission as the grading loop meets it: the path of the jar
    relative to the directory of the submissions, what [extract_jar]
    returned, and the walk of the directory it was extracted to. *)
Record submission : Type := {
  rel_path : string;
  extracted : bool;
  extract_dir : list walk_entry
}.

(** The identifier of a submission. *)
Definition student_id (s : submission) : string := student_id_of (rel_path s).


(** [results.sort(key=lambda x: x[0])]: a stable sort on the
    identifier. *)
Fixpoint insert_row (x : row) (l : list row) : list row :=
  match l with
  | [] => [x]
  | y :: r =>
      if String.ltb (fst (fst x)) (fst (fst y)) then x :: l
      else y :: insert_row x r
  end.

(** The rows are inserted one after the other, a row after the rows
    that are not after it. *)
Definition sort_rows (results : list row) : list row :=
  fold_left (fun sorted_rows x => insert_row x sorted_rows) results [].

(** [sum(1 for r in results if r[1] == status)], as in the summary
    that [process_submissions] prints (main.py 508-510). *)
Definition count_status (st : string) (results : list row) : nat :=
  List.length (filter (fun r => String.eqb (status r) st) results).

(** One run of [unzip] on a jar, whichever script starts it: the
    program could not be started, or it ended with a return code,
    within the 30 seconds that the generated script waits or later.  A
    run that never ends is not modelled: the stand-alone script would
    wait for it for ever. *)
Inductive unzip_run : Type :=
| UnzipNotRun
| UnzipExited (returncode : Z) (in_time : bool).

(** One run of the extractor on a file, whichever script starts it: the
    program could not be started; or it ended with a return code and a
    standard error, within the 30 seconds that the generated script
    waits or later, and with an output that can be decoded as text or
    cannot.  A run that never ends is not modelled. *)
Inductive java_process : Type :=
| NotStarted
| Ended (returncode : Z) (stderr : string) (in_time is_text : bool).

(** One run of the extractor, as the scripts see it: [subprocess.run]
    raised an exception (in the generated script also when the 30
    seconds are over), or the program ended with a return code and a
    text on its standard error. *)
Inductive java_run : Type :=
| NotRun
| Exited (returncode : Z) (stderr : string).

(** [output.json] after the run: absent, not to be read (opening,
    loading or removing it raises an exception), or holding data. *)
Inductive output_json : Type :=
| NoOutput
| BadOutput
| Output (data : value).

(** [needle in s], for two strings *)
Definition contains (needle s : string) : bool :=
  match String.index 0 needle s with
  | Some _ => true
  | None => false
  end.

(** The stand-alone script, [src/scripts/grade_uml_structure.py]. *)
Module StandaloneScript.

(** grade_uml_structure.py 10-15: [True] whatever [unzip] returns, as
    the return code is not looked at; [False] when [subprocess.run]
    raises an exception. *)
Definition extract_jar (unzip : unzip_run) : bool :=
  match unzip with
  | UnzipNotRun => false
  | UnzipExited _ _ => true
  end.

(** The run of the extractor as the stand-alone script sees it: the
    script waits for the end of the program, however long it takes, and
    does not decode its output. *)
Definition run_of (process : java_process) : java_run :=
  match process with
  | NotStarted => NotRun
  | Ended returncode stderr _ _ => Exited returncode stderr
  end.

(** grade_uml_structure.py 21-31: with [check=True] a return code other
    than 0 is an exception, and every exception gives [None]. *)
Definition process_file_with_structure_jar (run : java_run)
    (output : output_json) : value :=
  match run with
  | NotRun => VNone
  | Exited returncode _ =>
      if negb (Z.eqb returncode 0) then VNone
      else
        match output with
        | NoOutput => VNone
        | BadOutput => VNone
        | Output data => data
        end
  end.

Section Extractor.
(** What [process_file_with_structure_jar] returns for the file at a
    path. *)
Variable extractor : string -> value.

(** The loop of [process_directory]; [None] is an early [return None],
    also the one of the bare [except]. *)
Fixpoint directory_loop (java_files : list (string * string))
    (result : list (hkey * value)) : option (list (hkey * value)) :=
  match java_files with
  | [] => Some result
  | (_, file_path) :: rest =>
      let file_data := extractor file_path in
      match file_data with
      | VNone => None
      | _ =>
          match class_key file_data with
          | Ok name => directory_loop rest (dict_set hkey_eqb name file_data result)
          | Raise _ => None
          end
      end
  end.

(** grade_uml_structure.py 41-54 *)
Definition process_directory (walk : list walk_entry)
    (target_files : list string) : option (list (hkey * value)) :=
  match find_java_files walk target_files with
  | [] => None
  | java_files => directory_loop java_files []
  end.

(** The body of the loop of [process_student_submissions] for one jar:
    the row appended, or the exception that ends the run. *)
Definition grade (ref_data : value) (target_files : list string)
    (s : submission) : result row :=
  if extracted s then
    match process_directory (extract_dir s) target_files with
    | Some ((_ :: _) as student_data) =>
        differences <- compare_uml_data Standalone ref_data student_data ;;
        Ok (graded (student_id s) differences)
    | Some [] | None =>
        Ok (student_id s, "ERROR", "Failed to generate UML data")
    end
  else Ok (student_id s, "ERROR", "Failed to extract JAR file").

(** grade_uml_structure.py 166-214: the rows written to the two CSV
    files, or the exception that ends the run before they are
    written. *)
Definition process_student_submissions (ref_data : value)
    (lines : list string) (submissions : list submission)
  : result (list row) :=
  let target_files := read_target_files lines in
  results <- mapM (grade ref_data target_files) submissions ;;
  Ok (sort_rows results).
End Extractor.
End StandaloneScript.

(** The grading script that [create_grading_script] of [src/main.py]
    generates. *)
Module EmbeddedScript.

(** main.py 325-333: [True] when [unzip] ends within 30 seconds with
    the return code 0. *)
Definition extract_jar (unzip : unzip_run) : bool :=
  match unzip with
  | UnzipNotRun => false
  | UnzipExited returncode in_time => in_time && Z.eqb returncode 0
  end.

(** The run of the extractor as the generated script sees it: with
    [timeout=30] a program that has not ended after 30 seconds is an
    exception, and with [text=True] so is an output that cannot be
    decoded. *)
Definition run_of (process : java_process) : java_run :=
  match process with
  | NotStarted => NotRun
  | Ended returncode stderr in_time is_text =>
      if in_time && is_text then Exited returncode stderr else NotRun
  end.

(** What [process_directory] returns: a dictionary, ["PARSE_ERROR"] or
    [None]. *)
Inductive directory_data : Type :=
| Data (result : list (hkey * value))
| ParseError
| NoData.

(** main.py 236-260 *)
Definition process_file_with_structure_jar (run : java_run)
    (output : output_json) : value :=
  match run with
  | NotRun => VNone
  | Exited returncode stderr =>
      if negb (Z.eqb returncode 0) then
        let error_msg := strip stderr in
        if contains "ParseProblemException" error_msg
        then VStr "PARSE_ERROR"
        else VNone
      else
        match output with
        | NoOutput => VNone
        | BadOutput => VNone
        | Output data => data
        end
  end.

Section Extractor.
(** What [process_file_with_structure_jar] returns for the file at a
    path. *)
Variable extractor : string -> value.
(** [str(e)]: the model records the kind of an exception only. *)
Variable str_of_exn : exn -> string.

(** The loop of [process_directory]: [result] and [parse_errors] at its
    end, or [None] for an early [return None]. *)
Fixpoint directory_loop (java_files : list (string * string))
    (result : list (hkey * value)) (parse_errors : list string)
  : option (list (hkey * value) * list string) :=
  match java_files with
  | [] => Some (result, parse_errors)
  | (file_name, file_path) :: rest =>
      let file_data := extractor file_path in
      if py_eq file_data (VStr "PARSE_ERROR") then
        directory_loop rest result (parse_errors ++ [file_name])%list
      else
        match file_data with
        | VNone => None
        | _ =>
            match class_key file_data with
            | Ok name =>
                directory_loop rest (dict_set hkey_eqb name file_data result)
                  parse_errors
            | Raise _ => None
            end
        end
  end.

(** main.py 270-289 *)
Definition process_directory (walk : list walk_entry)
    (target_files : list string) : directory_data :=
  match find_java_files walk target_files with
  | [] => NoData
  | java_files =>
      match directory_loop java_files [] [] with
      | None => NoData
      | Some (result, parse_errors) =>
          match parse_errors, result with
          | _ :: _, [] => ParseError
          | _, _ :: _ => Data result
          | [], [] => NoData
          end
      end
  end.

(** The loop of [generate_solution_json] over the files of one
    directory. *)
Definition solution_files (target_files : list string) (root : string)
    (files : list string) (results : list value) : list value :=
  fold_left
    (fun results name =>
       if is_target target_files name then
         let data := extractor (os_path_join root name) in
         if truthy data && negb (py_eq data (VStr "PARSE_ERROR"))
         then (results ++ [data])%list
         else results
       else results)
    files results.

(** main.py 291-323: what is written to [solution.json], or [None] when
    nothing is written and the function returns [False]. *)
Definition generate_solution_json (ref_walk : list walk_entry)
    (lines : list string) : option (list value) :=
  let target_files := read_target_files lines in
  let results :=
    fold_left
      (fun results (entry : walk_entry) =>
         let '(root, _, files) := entry in
         solution_files target_files root files results)
      ref_walk [] in
  match results with
  | [] => None
  | _ :: _ => Some results
  end.

(** The body of the loop of [process_submissions] for one jar: the row
    appended. *)
Definition grade (ref_data : value) (target_files : list string)
    (s : submission) : row :=
  if extracted s then
    match process_directory (extract_dir s) target_files with
    | ParseError =>
        (student_id s, "ERROR", "Parse error - likely syntax error in code")
    | Data ((_ :: _) as student_data) =>
        match compare_uml_data Embedded ref_data student_data with
        | Ok differences => graded (student_id s) differences
        | Raise e =>
            (student_id s, "ERROR", "Processing failed: " ++ str_of_exn e)
        end
    | Data [] | NoData =>
        (student_id s, "ERROR", "Failed to generate UML data")
    end
  else (student_id s, "ERROR", "Failed to extract JAR file").

(** main.py 446-514: the rows written to the two CSV files, or [None]
    when there is no jar and the function returns [False]. *)
Definition process_submissions (ref_data : value) (lines : list string)
    (submissions : list submission) : option (list row) :=
  let target_files := read_target_files lines in
  match submissions with
  | [] => None
  | _ :: _ => Some (sort_rows (map (grade ref_data target_files) submissions))
  end.

(** main.py 516-529: [solution.json] is read back as it was written. *)
Definition main (ref_walk : list walk_entry) (lines : list string)
    (submissions : list submission) : option (list row) :=
  match generate_solution_json ref_walk lines with
  | None => None
  | Some solution => process_submissions (VList solution) lines submissions
  end.
End Extractor.
End EmbeddedScript.

(** The generated script under the recursion limit of section
    [Limited].  Of the functions of the script only the differ
    recurses: [frames] is the number of further calls that the
    interpreter admits where the loop over the jars calls
    [compare_uml_files], and the other calls of the script are taken to
    stay within the limit.  A [RecursionError] is an [Exception], which
    the loop catches. *)
Module LimitedScript.

(** [compare_uml_files(ref_data, student_data)] for the dictionary that
    [process_directory] built. *)
Definition compare_uml_data (sc : script) (frames : nat) (ref_data : value)
    (student_data : list (hkey * value)) : result (list string) :=
  Limited.call frames
    (fun inner =>
       ref <- normalize ref_data ;;
       ref_names <- data_keys ref ;;
       first <- ref_class_loop_by (Limited.compare_values sc inner) ref_names
                  ref (Classes student_data) ;;
       second <- stu_class_loop (map fst student_data) ref ;;
       Ok (first ++ second)%list).

Section Extractor.
Variable extractor : string -> value.
Variable str_of_exn : exn -> string.
Variable frames : nat.

(** The body of the loop of [process_submissions] for one jar. *)
Definition grade (ref_data : value) (target_files : list string)
    (s : submission) : row :=
  if extracted s then
    match EmbeddedScript.process_directory extractor (extract_dir s)
            target_files with
    | EmbeddedScript.ParseError =>
        (student_id s, "ERROR", "Parse error - likely syntax error in code")
    | EmbeddedScript.Data ((_ :: _) as student_data) =>
        match compare_uml_data Embedded frames ref_data student_data with
        | Ok differences => graded (student_id s) differences
        | Raise e =>
            (student_id s, "ERROR", "Processing failed: " ++ str_of_exn e)
        end
    | EmbeddedScript.Data [] | EmbeddedScript.NoData =>
        (student_id s, "ERROR", "Failed to generate UML data")
    end
  else (student_id s, "ERROR", "Failed to extract JAR file").

(** main.py 446-514 *)
Definition process_submissions (ref_data : value) (lines : list string)
    (submissions : list submission) : option (list row) :=
  let target_files := read_target_files lines in
  match submissions with
  | [] => None
  | _ :: _ => Some (sort_rows (map (grade ref_data target_files) submissions))
  end.

(** main.py 516-529 *)
Definition main (ref_walk : list walk_entry) (lines : list string)
    (submissions : list submission) : option (list row) :=
  match EmbeddedScript.generate_solution_json extractor ref_walk lines with
  | None => None
  | Some solution => process_submissions (VList solution) lines submissions
  end.
End Extractor.
End LimitedScript.

(** ** The archive of the sources ([src/main.py])

    [create_source_archive] walks the directory [core] and collects the
    files to put in the archive from which the image of the extractor
    is built.  A directory is modelled as a tree: its subdirectories,
    by name, and the names of its other entries.  [os.walk] yields the
    directory itself first, then walks the subdirectories that are left
    in [dirs], in their order; a symbolic link to a directory is listed
    in [dirs] and not followed, as a subdirectory without entries. *)

Unset Elimination Schemes.
Inductive tree : Type :=
| Dir (subdirs : list (string * tree)) (files : list string).
Set Elimination Schemes.

(** Induction over a tree: the subdirectories are smaller. *)
Section TreeInduction.
Variable P : tree -> Prop.
Hypothesis HDir :
  forall subdirs files,
    Forall (fun d => P (snd d)) subdirs -> P (Dir subdirs files).

Fixpoint tree_ind (t : tree) : P t :=
  match t with
  | Dir subdirs files =>
      HDir subdirs files
        ((fix all (l : list (string * tree))
            : Forall (fun d => P (snd d)) l :=
            match l with
            | [] => Forall_nil _
            | d :: r =>
                @Forall_cons _ (fun d => P (snd d)) d r (tree_ind (snd d))
                  (all r)
            end) subdirs)
  end.
End TreeInduction.

(** [not d.startswith('.') and d != '__pycache__'] *)
Definition keep_dir (d : string) : bool :=
  negb (startswith d ".") && negb (String.eqb d "__pycache__").

(** [not file.startswith('.') and not file.endswith('.pyc')] *)
Definition keep_file (file : string) : bool :=
  negb (startswith file ".") && negb (endswith file ".pyc").

(** [os.path.relpath(file_path, 'core')] for a path below [core]: the
    path without the leading ["core/"]. *)
Definition relpath_core (file_path : string) : string :=
  substring 5 (String.length file_path - 5) file_path.

(** The loop of [create_source_archive] over the walk of the directory
    [root], whose content is [t]: the pairs added to [files_to_add]. *)
Fixpoint source_files (root : string) (t : tree) : list (string * string) :=
  match t with
  | Dir subdirs files =>
      (map (fun file =>
              let file_path := os_path_join root file in
              (file_path, relpath_core file_path))
           (filter keep_file files)
       ++ (fix walk_dirs (dirs : list (string * tree))
             : list (string * string) :=
             match dirs with
             | [] => []
             | (d, sub) :: rest =>
                 ((if keep_dir d then source_files (os_path_join root d) sub
                   else [])
                  ++ walk_dirs rest)%list
             end) subdirs)%list
  end.

(** main.py 20-41: the files added to the archive, with their names in
    it; [None] when there is no directory [core] and the program
    exits. *)
Definition create_source_archive (core : option tree)
  : option (list (string * string)) :=
  match core with
  | None => None
  | Some t => Some (source_files "core" t)
  end.

(** ** Notions used in the further statements *)

(** Every discrepancy of the list begins with the path. *)
Definition under (path : string) (ds : list string) : Prop :=
  Forall (fun d => startswith d path = true) ds.

(** [addressed sc v]: every discrepancy that script [sc] returns, with
    [v] as reference, begins with the path of the comparison. *)
Definition addressed (sc : script) (ref_val : value) : Prop :=
  forall stu_val path ds,
    compare_values sc ref_val stu_val path = Ok ds -> under path ds.

(** What a line of the result of [compare_uml_files] looks like. *)
Definition corpus_line (d : string) : Prop :=
  (exists k, d = missing_class k) \/ (exists k, d = extra_class k)
  \/ exists k, startswith d ("Class " ++ hkey_str k) = true.

(** [ds'] is empty exactly when [ds] is, and it is not longer. *)
Definition condensed (ds ds' : list string) : Prop :=
  (ds = [] <-> ds' = []) /\ List.length ds' <= List.length ds.

(** [follows v]: whenever the stand-alone script, with [v] as reference,
    returns a list, the generated script returns a list too, empty or
    not as the first one, and not longer. *)
Definition follows (ref_val : value) : Prop :=
  forall stu_val path ds,
    compare_values Standalone ref_val stu_val path = Ok ds ->
    exists ds',
      compare_values Embedded ref_val stu_val path = Ok ds'
      /\ condensed ds ds'.

(** Every class of the corpus is valid at its own path. *)
Definition valid_corpus (d : list (string * value)) : Prop :=
  forall n v, In (n, v) d -> valid v ("Class " ++ n) = true.

(** [None], a [bool] or an [int]: neither a list, a dictionary nor a
    string. *)
Definition not_iterable (data : value) : bool :=
  match data with
  | VNone | VBool _ | VInt _ => true
  | _ => false
  end.

(** [symmetric sc v]: whenever script [sc] finds no discrepancy between
    a valid [v], as reference, and a valid value, it finds none the
    other way round. *)
Definition symmetric (sc : script) (v : value) : Prop :=
  forall w path,
    valid v path = true -> valid w path = true ->
    compare_values sc v w path = Ok [] -> compare_values sc w v path = Ok [].

(** [transitive sc v]: on valid values the absence of a discrepancy
    carries over a value in the middle. *)
Definition transitive (sc : script) (v : value) : Prop :=
  forall w u path,
    valid v path = true -> valid w path = true -> valid u path = true ->
    compare_values sc v w path = Ok [] -> compare_values sc w u path = Ok [] ->
    compare_values sc v u path = Ok [].

(** The target files of a walk with their paths, in the order in which
    the walk meets them. *)
Definition targets_met (walk : list walk_entry) (target_files : list string)
  : list (string * string) :=
  flat_map
    (fun entry : walk_entry =>
       let '(root, _, files) := entry in
       map (fun file_name => (file_name, os_path_join root file_name))
           (filter (is_target target_files) files))
    walk.

(** The class to store for a file found, with its key, when the
    extractor gave a dictionary with a hashable name. *)
Definition class_of_file (extract : string -> value) (file : string * string)
  : result (hkey * value) :=
  name <- class_key (extract (snd file)) ;;
  Ok (name, extract (snd file)).

(** The extractor reported a parse error for the file. *)
Definition parse_error (extract : string -> value) (file : string * string)
  : bool :=
  py_eq (extract (snd file)) (VStr "PARSE_ERROR").

(** The extractor reported no parse error for the file. *)
Definition parsed (extract : string -> value) (file : string * string) : bool :=
  negb (parse_error extract file).

(** [data and data != "PARSE_ERROR"] *)
Definition solution_data (data : value) : bool :=
  truthy data && negb (py_eq data (VStr "PARSE_ERROR")).

(** The extractor outputs of the files. *)
Definition classes_of (extract : string -> value)
    (files : list (string * string)) : list value :=
  map (fun file => extract (snd file)) files.


(** The extractor as a function of the path, from the run on each path
    and the [output.json] it left. *)
Definition extractor_of (process_file : java_run -> output_json -> value)
    (runs : string -> java_run * output_json) (file_path : string) : value :=
  process_file (fst (runs file_path)) (snd (runs file_path)).

(** The run ended with a return code other than 0 and a
    [ParseProblemException] on its standard error. *)
Definition parse_problem (run : java_run) : bool :=
  match run with
  | NotRun => false
  | Exited returncode stderr =>
      negb (Z.eqb returncode 0)
      && contains "ParseProblemException" (strip stderr)
  end.

(** The identifier of the first row is not after the one of the
    second. *)
Definition row_le (a b : row) : Prop :=
  String.ltb (fst (fst b)) (fst (fst a)) = false.

(** A row as the graders write it: the status is one of three, and the
    comments are empty exactly when it is PASS. *)
Definition well_formed_row (r : row) : Prop :=
  (status r = "PASS" \/ status r = "FAIL" \/ status r = "ERROR")
  /\ (status r = "PASS" <-> comments r = "").

(** The name of a file, without its extension, as [splitext] wants it:
    no separator in it, and a character other than the dot. *)
Definition stem (name : string) : bool :=
  negb (mem_char "/" name)
  && negb (forallb (Ascii.eqb ".") (list_ascii_of_string name)).

(** An extension, without its dot: neither a dot nor a separator in
    it. *)
Definition extension (ext : string) : bool :=
  negb (mem_char "." ext) && negb (mem_char "/" ext).

(** The file [file] lies in the tree under the directories [dirs], from
    the top down. *)
Fixpoint has_file (t : tree) (dirs : list string) (file : string) : Prop :=
  match t with
  | Dir subdirs files =>
      match dirs with
      | [] => In file files
      | d :: rest =>
          (fix among (l : list (string * tree)) : Prop :=
             match l with
             | [] => False
             | (d', sub) :: l' =>
                 (d' = d /\ has_file sub rest file) \/ among l'
             end) subdirs
      end
  end.

(** [dirs] and [file] as one path below [root]. *)
Definition path_below (root : string) (dirs : list string) (file : string)
  : string :=
  os_path_join (fold_left os_path_join dirs root) file.

(** The walk of the subdirectories in [source_files]. *)
Fixpoint walk_dirs (root : string) (dirs : list (string * tree))
  : list (string * string) :=
  match dirs with
  | [] => []
  | (d, sub) :: rest =>
      ((if keep_dir d then source_files (os_path_join root d) sub else [])
       ++ walk_dirs root rest)%list
  end.

(** [has_file] below one of the subdirectories. *)
Fixpoint among (subdirs : list (string * tree)) (d : string)
    (rest : list string) (file : string) : Prop :=
  match subdirs with
  | [] => False
  | (d', sub) :: l' => (d' = d /\ has_file sub rest file) \/ among l' d rest file
  end.

(** A name as a directory lists it: not empty, and without a
    separator. *)
Definition plain (name : string) : bool :=
  negb (String.eqb name "") && negb (mem_char "/" name).

(** ** Further sample inputs *)

(** The walk of a submission with two target files, and an extractor
    that knows them. *)
Definition sample_walk : list walk_entry :=
  [("/tmp/x", ["a"], ["Foo.java"; "notes.txt"]);
   ("/tmp/x/a", [], ["Bar.java"])].

(** The target files. *)
Definition sample_targets : list string := ["Foo.java"; "Bar.java"].

Definition sample_extract (file_path : string) : value :=
  if String.eqb file_path "/tmp/x/Foo.java" then class_of "Foo" [] [] [] [] []
  else if String.eqb file_path "/tmp/x/a/Bar.java"
       then class_of "Bar" [] [] [] [] []
       else VNone.

Definition sample_submission : submission :=
  {| rel_path := "s01.jar"; extracted := true; extract_dir := sample_walk |}.

(** * Properties *)

(** ** The result monad *)

Lemma bind_ok {A B : Type} (r : result A) (k : A -> result B) (b : B) :
  bind r k = Ok b -> exists a, r = Ok a /\ k a = Ok b.
Proof.
  destruct r as [a | e]; simpl; intros H; [exists a; auto | discriminate].
Qed.

Lemma mapM_ok_length {A B : Type} (f : A -> result B) (l : list A) :
  forall l', mapM f l = Ok l' -> List.length l' = List.length l.
Proof.
  induction l as [| x r IH]; simpl; intros l' H.
  - injection H as <-. reflexivity.
  - apply bind_ok in H as (y & _ & H). apply bind_ok in H as (ys & Hys & H).
    injection H as <-. simpl. f_equal. auto.
Qed.

Lemma mapM_total {A B : Type} (f : A -> result B) (l : list A) :
  Forall (fun x => exists y, f x = Ok y) l -> exists l', mapM f l = Ok l'.
Proof.
  induction 1 as [| x r (y & Hy) _ (ys & Hys)]; simpl.
  - eauto.
  - rewrite Hy, Hys. simpl. eauto.
Qed.

(** ** Unfolding [compare_values] *)

Lemma compare_values_mismatch sc ref_val stu_val path :
  type_name ref_val <> type_name stu_val ->
  compare_values sc ref_val stu_val path
  = Ok [type_mismatch ref_val stu_val path].
Proof.
  intros H. apply String.eqb_neq in H.
  destruct ref_val; simpl in *; rewrite H; reflexivity.
Qed.

Lemma compare_values_dict sc ref_entries stu_entries path :
  compare_values sc (VDict ref_entries) (VDict stu_entries) path
  = (first <- key_loop sc ref_entries stu_entries path ;;
     Ok (first ++ extra_keys ref_entries stu_entries path)%list).
Proof.
  simpl. f_equal.
  induction ref_entries as [| [key ref_item] rest IH]; simpl; [reflexivity |].
  rewrite IH. reflexivity.
Qed.

Lemma compare_values_list sc ref_items stu_items path :
  compare_values sc (VList ref_items) (VList stu_items) path
  = let calls := with_calls sc ref_items in
    if endswith path ".methods" then compare_methods calls stu_items path
    else if endswith path ".fields" then compare_fields calls stu_items path
    else if endswith path ".constructors"
    then compare_constructors calls stu_items path
    else if endswith path ".extends" || endswith path ".implements" then
      ref_sorted <- sorted ref_items ;;
      stu_sorted <- sorted stu_items ;;
      if negb (py_eq (VList ref_sorted) (VList stu_sorted))
      then Ok [content_mismatch ref_sorted stu_sorted path]
      else Ok []
    else
      let differ_len :=
        negb (Nat.eqb (List.length ref_items) (List.length stu_items)) in
      match sc with
      | Standalone =>
          ds <- zip_loop calls stu_items 0 path ;;
          Ok ((if differ_len
               then [length_mismatch sc ref_items stu_items path]
               else []) ++ ds)%list
      | Embedded =>
          if differ_len
          then Ok [length_mismatch sc ref_items stu_items path]
          else zip_loop calls stu_items 0 path
      end.
Proof. reflexivity. Qed.

Lemma compare_values_scalar sc ref_val stu_val path :
  scalar ref_val = true ->
  type_name ref_val = type_name stu_val ->
  compare_values sc ref_val stu_val path
  = if negb (py_eq ref_val stu_val)
    then Ok [value_mismatch ref_val stu_val path]
    else Ok [].
Proof.
  intros Hs Ht.
  destruct ref_val; try discriminate; destruct stu_val; try discriminate;
    reflexivity.
Qed.

(** On scalars of one type [==] is equality. *)
Lemma py_eq_scalar a b :
  scalar a = true -> type_name a = type_name b ->
  py_eq a b = true <-> a = b.
Proof.
  intros Hs Ht.
  destruct a; try discriminate; destruct b; try discriminate; simpl.
  - tauto.
  - rewrite Bool.eqb_true_iff. split; congruence.
  - rewrite Z.eqb_eq. split; congruence.
  - rewrite String.eqb_eq. split; congruence.
Qed.

(** ** A path has one policy *)

#[local] Arguments Ascii.eqb : simpl never.

(** Decide every comparison of characters in the goal. *)
Ltac decide_chars :=
  repeat match goal with
         | |- context [Ascii.eqb ?a ?b] =>
             destruct (Ascii.eqb_spec a b); subst; simpl; try congruence
         end.

(** A path that ends in [.extends] or [.implements] ends in none of
    [.methods], [.fields], [.constructors]. *)
Lemma unordered_not_keyed path :
  unordered path = true ->
  endswith path ".methods" = false /\ endswith path ".fields" = false
  /\ endswith path ".constructors" = false.
Proof.
  unfold unordered, endswith. simpl.
  destruct (rev_string path) as [| c1 [| c2 [| c3 r]]]; simpl; decide_chars;
    intros H; try discriminate H; auto.
Qed.

Lemma positional_branch path :
  positional path = true ->
  endswith path ".methods" = false /\ endswith path ".fields" = false
  /\ endswith path ".constructors" = false
  /\ endswith path ".extends" || endswith path ".implements" = false.
Proof.
  unfold positional. rewrite !andb_true_iff, !negb_true_iff.
  intros ((((-> & ->) & ->) & ->) & ->). auto.
Qed.

Lemma compare_values_positional sc ref_items stu_items path :
  positional path = true ->
  compare_values sc (VList ref_items) (VList stu_items) path
  = let differ_len :=
      negb (Nat.eqb (List.length ref_items) (List.length stu_items)) in
    match sc with
    | Standalone =>
        ds <- zip_loop (with_calls sc ref_items) stu_items 0 path ;;
        Ok ((if differ_len
             then [length_mismatch sc ref_items stu_items path]
             else []) ++ ds)%list
    | Embedded =>
        if differ_len
        then Ok [length_mismatch sc ref_items stu_items path]
        else zip_loop (with_calls sc ref_items) stu_items 0 path
    end.
Proof.
  intros H. apply positional_branch in H as (H1 & H2 & H3 & H4).
  rewrite compare_values_list. cbv zeta. rewrite H1, H2, H3, H4. reflexivity.
Qed.

(** ** Positional sequences of differing lengths *)

(** The generated grading script stops at the length mismatch: one
    discrepancy, whatever the elements are. *)
Lemma embedded_length_mismatch ref_items stu_items path :
  positional path = true ->
  List.length ref_items <> List.length stu_items ->
  compare_values Embedded (VList ref_items) (VList stu_items) path
  = Ok [length_mismatch Embedded ref_items stu_items path].
Proof.
  intros Hp Hlen. rewrite compare_values_positional by assumption.
  apply Nat.eqb_neq in Hlen. cbv zeta. rewrite Hlen. reflexivity.
Qed.

(** The stand-alone script has no [else] there: after the length
    mismatch it still compares the common prefix. *)
Lemma standalone_length_mismatch ref_items stu_items path :
  positional path = true ->
  List.length ref_items <> List.length stu_items ->
  compare_values Standalone (VList ref_items) (VList stu_items) path
  = (ds <- zip_loop (with_calls Standalone ref_items) stu_items 0 path ;;
     Ok (length_mismatch Standalone ref_items stu_items path :: ds)).
Proof.
  intros Hp Hlen. rewrite compare_values_positional by assumption.
  apply Nat.eqb_neq in Hlen. cbv zeta. rewrite Hlen. reflexivity.
Qed.

(** C1, on the stand-alone script: at the positional path [p] the lists
    [[1, 2]] and [[3]] differ in length, and the result holds two
    discrepancies, the length mismatch and one from the element-wise
    comparison that follows it. *)
Theorem standalone_recurses_after_length_mismatch :
  positional "p" = true
  /\ List.length [VInt 1; VInt 2] <> List.length [VInt 3]
  /\ compare_values Standalone (VList [VInt 1; VInt 2]) (VList [VInt 3]) "p"
     = Ok ["p - Length mismatch: expected [1, 2] (2 items), got [3] (1 items)";
           "p[0] - Value mismatch: expected 1, got 3"].
Proof.
  split; [reflexivity |]. split; [simpl; lia |]. reflexivity.
Qed.

(** ** Scalars *)

(** C7 as stated fails: the string ['1'] and the integer [1] are two
    scalars, they are not equal, and the one discrepancy is a type
    mismatch, not a value mismatch. *)
Lemma scalar_type_mismatch_counterexample :
  scalar (VStr "1") = true /\ scalar (VInt 1) = true
  /\ VStr "1" <> VInt 1
  /\ compare_values Standalone (VStr "1") (VInt 1) "p"
     = Ok ["p - Type mismatch: expected str, got int"]
  /\ compare_values Standalone (VStr "1") (VInt 1) "p"
     <> Ok [value_mismatch (VStr "1") (VInt 1) "p"].
Proof.
  repeat split; try reflexivity; try discriminate.
Qed.

(** C7, amended: two scalars of one type give no discrepancy when they
    are equal and otherwise the one value mismatch; two scalars of
    different types give the one type mismatch.  Both scripts. *)
Theorem scalar_comparison sc ref_val stu_val path :
  scalar ref_val = true -> scalar stu_val = true ->
  (type_name ref_val = type_name stu_val ->
   (ref_val = stu_val -> compare_values sc ref_val stu_val path = Ok [])
   /\ (ref_val <> stu_val ->
       compare_values sc ref_val stu_val path
       = Ok [value_mismatch ref_val stu_val path]))
  /\ (type_name ref_val <> type_name stu_val ->
      compare_values sc ref_val stu_val path
      = Ok [type_mismatch ref_val stu_val path]).
Proof.
  intros Hr Hs. split.
  - intros Ht. rewrite compare_values_scalar by assumption.
    pose proof (py_eq_scalar ref_val stu_val Hr Ht) as Heq.
    destruct (py_eq ref_val stu_val); simpl; split; intros H.
    + reflexivity.
    + exfalso. apply H, Heq. reflexivity.
    + apply Heq in H. discriminate H.
    + reflexivity.
  - apply compare_values_mismatch.
Qed.

Lemma scalar_comparison_witness :
  scalar (VStr "int") = true /\ scalar (VStr "long") = true
  /\ type_name (VStr "int") = type_name (VStr "long")
  /\ VStr "int" <> VStr "long"
  /\ compare_values Standalone (VStr "int") (VStr "long")
       "Class Foo.fields.x.type"
     = Ok ["Class Foo.fields.x.type - Value mismatch: expected int, got long"].
Proof.
  split; [reflexivity |]. split; [reflexivity |]. split; [reflexivity |].
  split; [discriminate |].
  apply (scalar_comparison Standalone (VStr "int") (VStr "long")
           "Class Foo.fields.x.type");
    [reflexivity | reflexivity | reflexivity | discriminate].
Defined.

(** ** Sorting a list of strings *)

Lemma ltb_lt a b : String.ltb a b = true <-> String_as_OT.lt a b.
Proof.
  unfold String.ltb. rewrite <- String_as_OT.cmp_lt. unfold String_as_OT.cmp.
  destruct (String.compare a b); split; congruence.
Qed.

Lemma ltb_asym a b : String.ltb a b = true -> String.ltb b a = false.
Proof.
  unfold String.ltb. rewrite (String.compare_antisym a b).
  destruct (String.compare b a); simpl; congruence.
Qed.

Lemma str_le_antisym a b : str_le a b -> str_le b a -> a = b.
Proof.
  unfold str_le, String.ltb. intros H1 H2.
  apply String.compare_eq_iff. rewrite (String.compare_antisym b a) in H1.
  destruct (String.compare a b); simpl in *; congruence.
Qed.

Lemma str_le_refl a : str_le a a.
Proof.
  unfold str_le. destruct (String.ltb a a) eqn:E; [| reflexivity].
  pose proof (ltb_asym _ _ E). congruence.
Qed.

Lemma str_le_trans a b c : str_le a b -> str_le b c -> str_le a c.
Proof.
  unfold str_le. intros H1 H2.
  destruct (String.ltb c a) eqn:E; [| reflexivity]. exfalso.
  apply ltb_lt in E.
  destruct (String.ltb a b) eqn:Eab.
  - apply ltb_lt in Eab.
    pose proof (String_as_OT.lt_trans _ _ _ E Eab) as Hcb.
    apply ltb_lt in Hcb. congruence.
  - assert (a = b) by (apply str_le_antisym; assumption). subst b.
    apply ltb_lt in E. congruence.
Qed.

Lemma insert_str_perm x l : Permutation (x :: l) (insert_str x l).
Proof.
  induction l as [| y r IH]; simpl; [reflexivity |].
  destruct (String.ltb y x); [| reflexivity].
  rewrite perm_swap. apply perm_skip, IH.
Qed.

Lemma sort_str_perm l : Permutation l (sort_str l).
Proof.
  induction l as [| x r IH]; simpl; [reflexivity |].
  rewrite <- insert_str_perm. apply perm_skip, IH.
Qed.

Lemma insert_str_sorted x l :
  StronglySorted str_le l -> StronglySorted str_le (insert_str x l).
Proof.
  induction 1 as [| y r Hr IH Hy]; simpl.
  - constructor; constructor.
  - destruct (String.ltb y x) eqn:E.
    + constructor; [exact IH |].
      rewrite <- (insert_str_perm x r). constructor; [| exact Hy].
      apply ltb_asym, E.
    + constructor; [constructor; assumption |].
      constructor; [exact E |].
      eapply Forall_impl; [| exact Hy]. intros z Hz.
      eapply str_le_trans; [exact E | exact Hz].
Qed.

Lemma sort_str_sorted l : StronglySorted str_le (sort_str l).
Proof.
  induction l; simpl; [constructor | apply insert_str_sorted; assumption].
Qed.

(** A sorted list is determined by its elements. *)
Lemma sorted_perm_eq l1 :
  forall l2, StronglySorted str_le l1 -> StronglySorted str_le l2 ->
             Permutation l1 l2 -> l1 = l2.
Proof.
  induction l1 as [| a l1 IH]; intros l2 H1 H2 HP.
  - apply Permutation_nil in HP. congruence.
  - destruct l2 as [| b l2];
      [apply Permutation_sym, Permutation_nil in HP; discriminate |].
    inversion H1 as [| ? ? S1 F1]; inversion H2 as [| ? ? S2 F2]; subst.
    assert (a = b) as <-.
    { apply str_le_antisym.
      - assert (In b (a :: l1)) as [-> | Hin]
            by (eapply Permutation_in; [symmetry; exact HP | left; reflexivity]).
        + apply str_le_refl.
        + rewrite Forall_forall in F1. auto.
      - assert (In a (b :: l2)) as [-> | Hin]
            by (eapply Permutation_in; [exact HP | left; reflexivity]).
        + apply str_le_refl.
        + rewrite Forall_forall in F2. auto. }
    f_equal. apply IH; try assumption.
    eapply Permutation_cons_inv; exact HP.
Qed.

Lemma sort_str_perm_eq l1 l2 :
  Permutation l1 l2 <-> sort_str l1 = sort_str l2.
Proof.
  split; intros H.
  - apply sorted_perm_eq; try apply sort_str_sorted.
    rewrite <- !sort_str_perm. exact H.
  - rewrite (sort_str_perm l1), (sort_str_perm l2), H. reflexivity.
Qed.

(** On a list of strings [sorted] raises nothing and is [sort_str]. *)
Lemma sort_insert_strs x l :
  sort_insert (VStr x) (map VStr l) = Ok (map VStr (insert_str x l)).
Proof.
  induction l as [| y r IH]; simpl; [reflexivity |].
  destruct (String.ltb y x); simpl; [| reflexivity].
  rewrite IH. reflexivity.
Qed.

Lemma sorted_strs l : sorted (map VStr l) = Ok (map VStr (sort_str l)).
Proof.
  induction l as [| x r IH]; simpl; [reflexivity |].
  rewrite IH. simpl. apply sort_insert_strs.
Qed.

Lemma all_strs l :
  forallb is_str l = true -> exists ss, l = map VStr ss.
Proof.
  induction l as [| v r IH]; simpl; intros H.
  - exists []. reflexivity.
  - apply andb_true_iff in H as (Hv & Hr). destruct (IH Hr) as (ss & ->).
    destruct v; try discriminate. exists (s :: ss). reflexivity.
Qed.

Lemma py_eq_list xs ys : py_eq (VList xs) (VList ys) = all2 py_eq xs ys.
Proof.
  revert ys. induction xs as [| x xs IH]; intros [| y ys]; try reflexivity.
  simpl. rewrite <- IH. reflexivity.
Qed.

Lemma py_eq_strs a b :
  py_eq (VList (map VStr a)) (VList (map VStr b)) = true <-> a = b.
Proof.
  rewrite py_eq_list. revert b.
  induction a as [| x a IH]; intros [| y b]; simpl;
    try (split; [discriminate | congruence]); [tauto |].
  rewrite andb_true_iff, String.eqb_eq, IH. split.
  - intros (-> & ->). reflexivity.
  - intros H. injection H as -> ->. auto.
Qed.

Lemma VStr_perm a b : Permutation (map VStr a) (map VStr b) <-> Permutation a b.
Proof.
  split; [| apply Permutation_map].
  intros H.
  apply (Permutation_map (fun v => match v with VStr s => s | _ => "" end)) in H.
  rewrite !map_map, !map_id in H. exact H.
Qed.

(** ** [extends] and [implements] *)

Lemma compare_values_unordered sc ref_items stu_items path :
  unordered path = true ->
  compare_values sc (VList ref_items) (VList stu_items) path
  = (ref_sorted <- sorted ref_items ;;
     stu_sorted <- sorted stu_items ;;
     if negb (py_eq (VList ref_sorted) (VList stu_sorted))
     then Ok [content_mismatch ref_sorted stu_sorted path]
     else Ok []).
Proof.
  intros H. destruct (unordered_not_keyed path H) as (H1 & H2 & H3).
  unfold unordered in H.
  rewrite compare_values_list. cbv zeta. rewrite H1, H2, H3, H. reflexivity.
Qed.

(** C5 as stated fails: [[1, 'A']] is a sequence of scalars and equal to
    itself as a multiset, but [sorted] compares ['A' < 1] and the
    comparison ends in a [TypeError], with no discrepancy list at all. *)
Lemma unordered_scalars_counterexample :
  unordered "Class Foo.extends" = true
  /\ forallb scalar [VInt 1; VStr "A"] = true
  /\ Permutation [VInt 1; VStr "A"] [VInt 1; VStr "A"]
  /\ compare_values Standalone (VList [VInt 1; VStr "A"])
       (VList [VInt 1; VStr "A"]) "Class Foo.extends"
     = Raise TypeError.
Proof.
  repeat split; reflexivity.
Qed.

(** C5, amended: two sequences of strings compared at a path that ends
    in [.extends] or [.implements] give no discrepancy iff they are
    equal as multisets, and otherwise exactly one discrepancy, which
    names the two sorted sequences; no element is compared on its own.
    Both scripts. *)
Theorem unordered_strings sc ref_items stu_items path :
  unordered path = true ->
  forallb is_str ref_items = true ->
  forallb is_str stu_items = true ->
  exists ref_sorted stu_sorted,
    sorted ref_items = Ok ref_sorted /\ sorted stu_items = Ok stu_sorted
    /\ (Permutation ref_items stu_items <->
        compare_values sc (VList ref_items) (VList stu_items) path = Ok [])
    /\ (~ Permutation ref_items stu_items ->
        compare_values sc (VList ref_items) (VList stu_items) path
        = Ok [content_mismatch ref_sorted stu_sorted path]).
Proof.
  intros Hp Hr Hs.
  apply all_strs in Hr as (rs & ->). apply all_strs in Hs as (ss & ->).
  exists (map VStr (sort_str rs)), (map VStr (sort_str ss)).
  split; [apply sorted_strs |]. split; [apply sorted_strs |].
  rewrite compare_values_unordered by assumption.
  rewrite !sorted_strs. cbv [bind].
  rewrite VStr_perm, sort_str_perm_eq, <- py_eq_strs.
  destruct (py_eq (VList (map VStr (sort_str rs)))
                  (VList (map VStr (sort_str ss)))); cbv [negb].
  - split; [tauto | intros H; now contradiction H].
  - split; [split; discriminate | reflexivity].
Qed.

Lemma unordered_strings_witness :
  unordered "Class Foo.extends" = true
  /\ forallb is_str [VStr "A"; VStr "B"] = true
  /\ forallb is_str [VStr "A"; VStr "C"] = true
  /\ exists ref_sorted stu_sorted,
      sorted [VStr "A"; VStr "B"] = Ok ref_sorted
      /\ sorted [VStr "A"; VStr "C"] = Ok stu_sorted
      /\ (Permutation [VStr "A"; VStr "B"] [VStr "A"; VStr "C"] <->
          compare_values Standalone (VList [VStr "A"; VStr "B"])
            (VList [VStr "A"; VStr "C"]) "Class Foo.extends" = Ok [])
      /\ (~ Permutation [VStr "A"; VStr "B"] [VStr "A"; VStr "C"] ->
          compare_values Standalone (VList [VStr "A"; VStr "B"])
            (VList [VStr "A"; VStr "C"]) "Class Foo.extends"
          = Ok [content_mismatch ref_sorted stu_sorted "Class Foo.extends"]).
Proof.
  split; [reflexivity |]. split; [reflexivity |]. split; [reflexivity |].
  apply (unordered_strings Standalone [VStr "A"; VStr "B"]
           [VStr "A"; VStr "C"] "Class Foo.extends"); reflexivity.
Defined.

(** ** Dictionaries *)

Section DictFacts.
Context {K V : Type}.
Variable keqb : K -> K -> bool.
Hypothesis keqb_refl : forall a, keqb a a = true.
Hypothesis keqb_sym : forall a b, keqb a b = keqb b a.
Hypothesis keqb_trans :
  forall a b c, keqb a b = true -> keqb b c = true -> keqb a c = true.

Lemma dict_get_set k k' v (d : list (K * V)) :
  dict_get keqb k (dict_set keqb k' v d)
  = if keqb k k' then Some v else dict_get keqb k d.
Proof.
  induction d as [| [k1 v1] r IH]; simpl.
  - reflexivity.
  - destruct (keqb k' k1) eqn:E1; simpl.
    + destruct (keqb k k1) eqn:E2.
      * rewrite (keqb_trans k k1 k' E2) by (rewrite keqb_sym; exact E1).
        reflexivity.
      * destruct (keqb k k') eqn:E3; [| reflexivity].
        rewrite (keqb_trans k k' k1 E3 E1) in E2. discriminate.
    + destruct (keqb k k1) eqn:E2; [| exact IH].
      destruct (keqb k k') eqn:E3; [| reflexivity].
      rewrite keqb_sym in E3. rewrite (keqb_trans k' k k1 E3 E2) in E1.
      discriminate.
Qed.

(** Last write wins. *)
Lemma dict_get_fold k (kvs : list (K * V)) :
  forall d,
    dict_get keqb k (fold_left (dict_store keqb) kvs d)
    = match dict_get keqb k (rev kvs) with
      | Some v => Some v
      | None => dict_get keqb k d
      end.
Proof.
  induction kvs as [| [k1 v1] r IH]; intros d; simpl; [reflexivity |].
  unfold dict_store at 2. simpl. rewrite IH, dict_get_set.
  assert (Happ : forall l1 l2 : list (K * V),
             dict_get keqb k (l1 ++ l2)
             = match dict_get keqb k l1 with
               | Some v => Some v
               | None => dict_get keqb k l2
               end).
  { induction l1 as [| [k2 v2] l1 IH1]; intros l2; simpl; [reflexivity |].
    destruct (keqb k k2); [reflexivity | apply IH1]. }
  rewrite Happ. simpl.
  destruct (dict_get keqb k (rev r)); [reflexivity |].
  destruct (keqb k k1); reflexivity.
Qed.

Lemma dict_get_of k (kvs : list (K * V)) :
  dict_get keqb k (dict_of keqb kvs) = dict_get keqb k (rev kvs).
Proof.
  unfold dict_of. rewrite dict_get_fold. simpl.
  destruct (dict_get keqb k (rev kvs)); reflexivity.
Qed.

Lemma dict_get_in k v (d : list (K * V)) :
  dict_get keqb k d = Some v -> exists k', In (k', v) d /\ keqb k k' = true.
Proof.
  induction d as [| [k1 v1] r IH]; simpl; [discriminate |].
  destruct (keqb k k1) eqn:E.
  - intros H. injection H as <-. eauto.
  - intros H. destruct (IH H) as (k' & Hin & Hk). eauto.
Qed.

Lemma dict_get_none k (d : list (K * V)) :
  dict_get keqb k d = None <-> forall k' v, In (k', v) d -> keqb k k' = false.
Proof.
  induction d as [| [k1 v1] r IH]; simpl.
  - split; [intros _ ? ? [] | reflexivity].
  - destruct (keqb k k1) eqn:E.
    + split; [discriminate |]. intros H.
      rewrite (H k1 v1) in E by (left; reflexivity). discriminate.
    + rewrite IH. split.
      * intros H k' v [Heq | Hin]; [congruence | eauto].
      * intros H k' v Hin. eauto.
Qed.

Lemma dict_set_in k v k' v' (d : list (K * V)) :
  In (k, v) (dict_set keqb k' v' d) ->
  In (k, v) d \/ (v = v' /\ keqb k' k = true).
Proof.
  induction d as [| [k1 v1] r IH]; simpl.
  - intros [H | []]. injection H as <- <-. right. auto.
  - destruct (keqb k' k1) eqn:E; simpl.
    + intros [H | H]; [injection H as <- <-; right; auto | left; right; exact H].
    + intros [H | H]; [left; left; exact H |].
      destruct (IH H) as [? | ?]; [left; right; assumption | right; assumption].
Qed.

Lemma fold_set_in k (v : V) kvs :
  forall d, In (k, v) (fold_left (dict_store keqb) kvs d) ->
            In (k, v) d \/ exists k0, In (k0, v) kvs /\ keqb k0 k = true.
Proof.
  induction kvs as [| [k1 v1] r IH]; intros d; simpl; [auto |].
  intros H. apply IH in H as [H | (k0 & Hin & Hk)].
  - apply dict_set_in in H as [H | (-> & Hk)]; [auto |].
    right. exists k1. auto.
  - right. exists k0. auto.
Qed.

(** An entry of a comprehension has the value of an item with that key. *)
Lemma dict_of_in k (v : V) kvs :
  In (k, v) (dict_of keqb kvs) ->
  exists k0, In (k0, v) kvs /\ keqb k0 k = true.
Proof.
  intros H. apply fold_set_in in H as [[] | H]. exact H.
Qed.

Lemma dict_set_keys k v k' v' (d : list (K * V)) :
  In (k, v) (dict_set keqb k' v' d) ->
  (exists v0, In (k, v0) d) \/ (k = k' /\ dict_get keqb k' d = None).
Proof.
  induction d as [| [k1 v1] r IH]; simpl.
  - intros [H | []]. injection H as <- <-. auto.
  - destruct (keqb k' k1) eqn:E; simpl.
    + intros [H | H]; [injection H as <- <- | ]; left; eauto.
    + intros [H | H]; [injection H as <- <-; left; eauto |].
      destruct (IH H) as [(v0 & ?) | ?]; [left; eauto | right; assumption].
Qed.

Lemma dict_set_distinct k v (d : list (K * V)) :
  distinct keqb d -> distinct keqb (dict_set keqb k v d).
Proof.
  induction 1 as [| k1 v1 r Hk1 Hr IH]; simpl.
  - constructor; [intros ? ? [] | constructor].
  - destruct (keqb k k1) eqn:E.
    + constructor; assumption.
    + constructor; [| exact IH].
      intros k' v' Hin.
      apply dict_set_keys in Hin as [(v0 & Hin) | (-> & _)]; [eauto |].
      rewrite keqb_sym. exact E.
Qed.

Lemma dict_of_distinct (kvs : list (K * V)) : distinct keqb (dict_of keqb kvs).
Proof.
  unfold dict_of. generalize (@distinct_nil K V keqb).
  generalize (@nil (K * V)) as d.
  induction kvs as [| kv r IH]; intros d Hd; simpl; [exact Hd |].
  apply IH, dict_set_distinct, Hd.
Qed.

(** In a dictionary an entry is found under its own key. *)
Lemma distinct_get k v (d : list (K * V)) :
  distinct keqb d -> In (k, v) d -> dict_get keqb k d = Some v.
Proof.
  induction 1 as [| k1 v1 r Hk1 Hr IH]; simpl; [intros [] |].
  intros [H | H].
  - injection H as -> ->. rewrite keqb_refl. reflexivity.
  - rewrite keqb_sym, (Hk1 k v H). apply IH, H.
Qed.

Lemma distinct_get_eqv k k' v (d : list (K * V)) :
  distinct keqb d -> In (k', v) d -> keqb k k' = true -> dict_get keqb k d = Some v.
Proof.
  induction 1 as [| k1 v1 r Hk1 Hr IH]; simpl; [intros [] |].
  intros [H | H] Hk.
  - injection H as -> ->. rewrite Hk. reflexivity.
  - destruct (keqb k k1) eqn:E; [| apply IH; assumption].
    exfalso. rewrite keqb_sym in E.
    pose proof (keqb_trans k1 k k' E Hk) as Ht.
    rewrite (Hk1 k' v H) in Ht. discriminate Ht.
Qed.
End DictFacts.

(** ** Keys *)

Lemma hkey_eqb_canon a b : hkey_eqb a b = true <-> canon a = canon b.
Proof.
  destruct a as [| x | x | x], b as [| y | y | y]; simpl;
    try (split; [discriminate | congruence]); try tauto.
  - rewrite Bool.eqb_true_iff. split; [congruence |].
    destruct x, y; simpl; congruence.
  - rewrite Z.eqb_eq. split; congruence.
  - rewrite Z.eqb_eq. split; congruence.
  - rewrite Z.eqb_eq. split; congruence.
  - rewrite String.eqb_eq. split; congruence.
Qed.

Lemma tuple_eqb_canon a b : tuple_eqb a b = true <-> map canon a = map canon b.
Proof.
  revert b. induction a as [| x a IH]; intros [| y b]; simpl;
    try (split; [discriminate | congruence]); [tauto |].
  rewrite andb_true_iff, hkey_eqb_canon, IH. split.
  - intros (-> & ->). reflexivity.
  - intros H. injection H as -> ->. auto.
Qed.

Lemma sig_eqb_canon a b :
  sig_eqb a b = true
  <-> (canon (fst a), map canon (snd a)) = (canon (fst b), map canon (snd b)).
Proof.
  unfold sig_eqb. rewrite andb_true_iff, hkey_eqb_canon, tuple_eqb_canon.
  split; [intros (-> & ->); reflexivity | intros H; injection H; auto].
Qed.

(** A test that decides the equality of images is an equivalence. *)
Section Equivalence.
Context {K C : Type}.
Variable keqb : K -> K -> bool.
Variable image : K -> C.
Hypothesis keqb_image : forall a b, keqb a b = true <-> image a = image b.

Lemma image_refl a : keqb a a = true.
Proof. apply keqb_image. reflexivity. Qed.

Lemma image_sym a b : keqb a b = keqb b a.
Proof.
  destruct (keqb a b) eqn:E1, (keqb b a) eqn:E2; try reflexivity.
  - apply keqb_image in E1. symmetry in E1. apply keqb_image in E1. congruence.
  - apply keqb_image in E2. symmetry in E2. apply keqb_image in E2. congruence.
Qed.

Lemma image_trans a b c : keqb a b = true -> keqb b c = true -> keqb a c = true.
Proof. rewrite !keqb_image. congruence. Qed.
End Equivalence.

(** A key made of strings is equal to itself only. *)
Lemma hkey_eqb_str a b : is_hstr a = true -> hkey_eqb a b = true -> a = b.
Proof.
  destruct a; try discriminate. destruct b; try discriminate.
  simpl. intros _ H. apply String.eqb_eq in H. congruence.
Qed.

Lemma tuple_eqb_strs a b :
  forallb is_hstr a = true -> tuple_eqb a b = true -> a = b.
Proof.
  revert b. induction a as [| x a IH]; intros [| y b]; simpl;
    try discriminate; [reflexivity |].
  rewrite !andb_true_iff. intros (Hx & Ha) (Hxy & Hab).
  f_equal; [apply hkey_eqb_str; assumption | apply IH; assumption].
Qed.

Lemma sig_eqb_strs a b : sig_strs a = true -> sig_eqb a b = true -> a = b.
Proof.
  unfold sig_strs, sig_eqb. rewrite !andb_true_iff.
  destruct a as [n ps], b as [n' ps']; simpl. intros (Hn & Hps) (E1 & E2).
  f_equal; [apply hkey_eqb_str; assumption | apply tuple_eqb_strs; assumption].
Qed.

(** ** The two forms of the loops agree *)

Section DictMap.
Context {K V W : Type}.
Variable keqb : K -> K -> bool.
Variable f : V -> W.

Lemma dict_set_map k v (d : list (K * V)) :
  dict_set keqb k (f v) (map (on_value f) d)
  = map (on_value f) (dict_set keqb k v d).
Proof.
  induction d as [| [k1 v1] r IH]; simpl; [reflexivity |].
  destruct (keqb k k1); simpl; [reflexivity |]. rewrite IH. reflexivity.
Qed.

Lemma dict_of_map (kvs : list (K * V)) :
  dict_of keqb (map (on_value f) kvs) = map (on_value f) (dict_of keqb kvs).
Proof.
  unfold dict_of. change (@nil (K * W)) with (map (@on_value K V W f) []).
  generalize (@nil (K * V)) as d.
  induction kvs as [| [k v] r IH]; intros d; simpl; [reflexivity |].
  unfold dict_store at 2 4. simpl. rewrite dict_set_map. apply IH.
Qed.

Lemma dict_get_map k (d : list (K * V)) :
  dict_get keqb k (map (on_value f) d) = option_map f (dict_get keqb k d).
Proof.
  induction d as [| [k1 v1] r IH]; simpl; [reflexivity |].
  destruct (keqb k k1); [reflexivity | exact IH].
Qed.

Lemma dict_mem_map k (d : list (K * V)) :
  dict_mem keqb k (map (on_value f) d) = dict_mem keqb k d.
Proof.
  unfold dict_mem. rewrite dict_get_map.
  destruct (dict_get keqb k d); reflexivity.
Qed.
End DictMap.

Section KeyedEq.
Context {K : Type}.
Variable key_of : value -> result K.
Variable keqb : K -> K -> bool.
Variable missing extra : string -> K -> string.
Variable item_path : string -> K -> result string.
Variable compare : value -> differ.

Lemma keyed_map_calls items :
  keyed_map key_of keqb fst (map (with_call compare) items)
  = (m <- keyed_map key_of keqb (fun m => m) items ;;
     Ok (map (on_value (with_call compare)) m)).
Proof.
  unfold keyed_map.
  assert (H : mapM (fun a => k <- key_of (fst a) ;; Ok (k, a)) (map (with_call compare) items)
              = (kvs <- mapM (fun a => k <- key_of a ;; Ok (k, a)) items ;;
                 Ok (map (on_value (with_call compare)) kvs))).
  { induction items as [| x r IH]; simpl; [reflexivity |].
    destruct (key_of x) as [k | e]; simpl; [| reflexivity].
    rewrite IH.
    destruct (mapM (fun a => k0 <- key_of a ;; Ok (k0, a)) r); reflexivity. }
  rewrite H.
  destruct (mapM (fun a => k <- key_of a ;; Ok (k, a)) items); simpl;
    [| reflexivity].
  rewrite dict_of_map. reflexivity.
Qed.

Lemma keyed_ref_loop_calls ref_map stu_map path :
  keyed_ref_loop keqb missing item_path (map (on_value (with_call compare)) ref_map)
    stu_map path
  = keyed_loop_by keqb missing item_path compare ref_map stu_map path.
Proof.
  induction ref_map as [| [sig m] r IH]; simpl; [reflexivity |].
  rewrite IH. reflexivity.
Qed.

Lemma keyed_stu_loop_calls (ref_map : list (K * value)) stu_map path :
  keyed_stu_loop keqb extra (map (on_value (with_call compare)) ref_map) stu_map path
  = keyed_stu_loop keqb extra ref_map stu_map path.
Proof.
  unfold keyed_stu_loop. f_equal. apply filter_ext. intros kv.
  rewrite dict_mem_map. reflexivity.
Qed.

Lemma compare_keyed_calls items stu_items path :
  compare_keyed key_of keqb missing extra item_path (map (with_call compare) items)
    stu_items path
  = compare_keyed_by key_of keqb missing extra item_path compare items
      stu_items path.
Proof.
  unfold compare_keyed, compare_keyed_by. rewrite keyed_map_calls.
  destruct (keyed_map key_of keqb (fun m => m) items) as [rm | e]; simpl;
    [| reflexivity].
  destruct (keyed_map key_of keqb (fun m => m) stu_items) as [sm | e]; simpl;
    [| reflexivity].
  rewrite keyed_ref_loop_calls, keyed_stu_loop_calls. reflexivity.
Qed.

Lemma zip_loop_calls items stu_items path :
  forall i, zip_loop (map (with_call compare) items) stu_items i path
            = zip_loop_by compare items stu_items i path.
Proof.
  revert stu_items.
  induction items as [| x r IH]; intros [| s t] i; simpl; try reflexivity.
  rewrite IH. reflexivity.
Qed.
End KeyedEq.

(** The list branch of [compare_values], each call of the source
    written as a call of [compare_values]. *)
Lemma compare_values_list_eq sc ref_items stu_items path :
  compare_values sc (VList ref_items) (VList stu_items) path
  = if endswith path ".methods"
    then methods_by (compare_values sc) ref_items stu_items path
    else if endswith path ".fields"
    then fields_by (compare_values sc) ref_items stu_items path
    else if endswith path ".constructors"
    then constructors_by (compare_values sc) ref_items stu_items path
    else if unordered path then
      ref_sorted <- sorted ref_items ;;
      stu_sorted <- sorted stu_items ;;
      if negb (py_eq (VList ref_sorted) (VList stu_sorted))
      then Ok [content_mismatch ref_sorted stu_sorted path]
      else Ok []
    else
      let differ_len :=
        negb (Nat.eqb (List.length ref_items) (List.length stu_items)) in
      match sc with
      | Standalone =>
          ds <- zip_loop_by (compare_values sc) ref_items stu_items 0 path ;;
          Ok ((if differ_len
               then [length_mismatch sc ref_items stu_items path]
               else []) ++ ds)%list
      | Embedded =>
          if differ_len
          then Ok [length_mismatch sc ref_items stu_items path]
          else zip_loop_by (compare_values sc) ref_items stu_items 0 path
      end.
Proof.
  rewrite compare_values_list. cbv zeta. unfold with_calls.
  unfold compare_methods, compare_fields, compare_constructors.
  rewrite !compare_keyed_calls, !zip_loop_calls. reflexivity.
Qed.

(** ** The two scripts against each other *)

Lemma no_length_mismatch_app sc a b :
  no_length_mismatch sc (a ++ b)
  <-> no_length_mismatch sc a /\ no_length_mismatch sc b.
Proof.
  unfold no_length_mismatch. split.
  - intros H. split; intros r s p Hlen Hin; apply (H r s p Hlen);
      apply in_or_app; auto.
  - intros (Ha & Hb) r s p Hlen Hin. apply in_app_or in Hin as [Hin | Hin];
      [apply (Ha r s p Hlen Hin) | apply (Hb r s p Hlen Hin)].
Qed.

Lemma dict_of_values {K V : Type} (keqb : K -> K -> bool) (kvs : list (K * V)) :
  forall k v, In (k, v) (dict_of keqb kvs) -> In v (map snd kvs).
Proof.
  assert (Hset : forall k v k' v' (d : list (K * V)),
             In (k, v) (dict_set keqb k' v' d) -> v = v' \/ In v (map snd d)).
  { intros k v k' v' d. induction d as [| [k1 v1] r IH]; simpl.
    - intros [H | []]. injection H as <- <-. auto.
    - destruct (keqb k' k1); simpl.
      + intros [H | H]; [injection H as <- <-; auto |].
        right. right. apply (in_map snd _ _ H).
      + intros [H | H]; [injection H as <- <-; auto |].
        destruct (IH H); auto. }
  unfold dict_of.
  assert (Hfold : forall (l d : list (K * V)) k v,
             In (k, v) (fold_left (dict_store keqb) l d) ->
             In v (map snd d) \/ In v (map snd l)).
  { induction l as [| [k1 v1] r IH]; intros d k v; simpl.
    - intros H. left. apply (in_map snd _ _ H).
    - intros H. apply IH in H as [H | H]; [| auto].
      unfold dict_store in H. simpl in H.
      apply in_map_iff in H as ([k2 v2] & <- & H). simpl.
      apply Hset in H as [-> | H]; auto. }
  intros k v H. apply Hfold in H as [[] | H]. exact H.
Qed.

Lemma keyed_map_values {K : Type} (key_of : value -> result K) keqb items m :
  keyed_map key_of keqb (fun x => x) items = Ok m ->
  forall k v, In (k, v) m -> In v items.
Proof.
  unfold keyed_map. intros H k v Hin.
  apply bind_ok in H as (kvs & Hkvs & H). injection H as <-.
  apply dict_of_values in Hin.
  assert (map snd kvs = items) as <-; [| exact Hin].
  clear Hin. revert kvs Hkvs.
  induction items as [| x r IH]; simpl; intros kvs H.
  - injection H as <-. reflexivity.
  - apply bind_ok in H as ([k1 a1] & H1 & H).
    apply bind_ok in H1 as (k2 & _ & H1). injection H1 as <- <-.
    apply bind_ok in H as (ys & Hys & H). injection H as <-.
    simpl. f_equal. apply IH, Hys.
Qed.

Section Agree.
Variables sc1 sc2 : script.

Lemma key_loop_agree ref_entries stu_entries path :
  Forall (fun kv => agree sc1 sc2 (snd kv)) ref_entries ->
  forall ds,
    key_loop sc1 ref_entries stu_entries path = Ok ds ->
    no_length_mismatch sc1 ds ->
    key_loop sc2 ref_entries stu_entries path = Ok ds.
Proof.
  induction 1 as [| [key ref_item] rest Hx _ IH]; simpl; intros ds H Hn;
    [exact H |].
  apply bind_ok in H as (d & Hd & H). apply bind_ok in H as (ds' & Hds & H).
  injection H as <-. apply no_length_mismatch_app in Hn as (Hn1 & Hn2).
  rewrite (IH _ Hds Hn2). simpl in Hx.
  destruct (dict_get String.eqb key stu_entries) as [stu_item |].
  - rewrite (Hx _ _ _ Hd Hn1). reflexivity.
  - rewrite Hd. reflexivity.
Qed.

Lemma zip_loop_agree ref_items :
  Forall (agree sc1 sc2) ref_items ->
  forall stu_items i path ds,
    zip_loop_by (compare_values sc1) ref_items stu_items i path = Ok ds ->
    no_length_mismatch sc1 ds ->
    zip_loop_by (compare_values sc2) ref_items stu_items i path = Ok ds.
Proof.
  induction 1 as [| x r Hx _ IH]; intros [| s t] i path ds; simpl;
    try (intros H _; exact H).
  intros H Hn.
  apply bind_ok in H as (d & Hd & H). apply bind_ok in H as (ds' & Hds & H).
  injection H as <-. apply no_length_mismatch_app in Hn as (Hn1 & Hn2).
  rewrite (Hx _ _ _ Hd Hn1), (IH _ _ _ _ Hds Hn2). reflexivity.
Qed.

Section KeyedAgree.
Context {K : Type}.
Variable key_of : value -> result K.
Variable keqb : K -> K -> bool.
Variable missing extra : string -> K -> string.
Variable item_path : string -> K -> result string.

Lemma keyed_loop_agree ref_map stu_map path :
  (forall k m, In (k, m) ref_map -> agree sc1 sc2 m) ->
  forall ds,
    keyed_loop_by keqb missing item_path (compare_values sc1) ref_map stu_map
      path = Ok ds ->
    no_length_mismatch sc1 ds ->
    keyed_loop_by keqb missing item_path (compare_values sc2) ref_map stu_map
      path = Ok ds.
Proof.
  induction ref_map as [| [sig m] rest IH]; simpl; intros Hall ds H Hn;
    [exact H |].
  apply bind_ok in H as (d & Hd & H). apply bind_ok in H as (ds' & Hds & H).
  injection H as <-. apply no_length_mismatch_app in Hn as (Hn1 & Hn2).
  rewrite (IH (fun k m' Hin => Hall k m' (or_intror Hin)) _ Hds Hn2).
  destruct (dict_get keqb sig stu_map) as [stu_item |].
  - apply bind_ok in Hd as (p & Hp & Hd). rewrite Hp. simpl.
    rewrite (Hall sig m (or_introl eq_refl) _ _ _ Hd Hn1). reflexivity.
  - rewrite Hd. reflexivity.
Qed.

Lemma compare_keyed_agree ref_items stu_items path ds :
  Forall (agree sc1 sc2) ref_items ->
  compare_keyed_by key_of keqb missing extra item_path (compare_values sc1)
    ref_items stu_items path = Ok ds ->
  no_length_mismatch sc1 ds ->
  compare_keyed_by key_of keqb missing extra item_path (compare_values sc2)
    ref_items stu_items path = Ok ds.
Proof.
  unfold compare_keyed_by. intros Hall H Hn.
  apply bind_ok in H as (rm & Hrm & H). apply bind_ok in H as (sm & Hsm & H).
  apply bind_ok in H as (first & Hfirst & H). injection H as <-.
  apply no_length_mismatch_app in Hn as (Hn1 & _).
  rewrite Hrm, Hsm. simpl.
  rewrite (keyed_loop_agree rm sm path) with (ds := first); auto.
  intros k m Hin. rewrite Forall_forall in Hall.
  apply Hall. eapply keyed_map_values; eassumption.
Qed.
End KeyedAgree.

Lemma compare_values_agree ref_val : agree sc1 sc2 ref_val.
Proof.
  induction ref_val as [| b | n | s | items IH | entries IH]
    using value_ind;
    intros stu_val path ds H Hn;
    try (destruct stu_val; exact H).
  - (* lists *)
    destruct stu_val as [| | | | stu_items |]; try exact H.
    rewrite compare_values_list_eq in *.
    destruct (endswith path ".methods");
      [eapply compare_keyed_agree; eassumption |].
    destruct (endswith path ".fields");
      [eapply compare_keyed_agree; eassumption |].
    destruct (endswith path ".constructors");
      [eapply compare_keyed_agree; eassumption |].
    destruct (unordered path); [exact H |].
    cbv zeta in *.
    destruct (Nat.eqb (List.length items) (List.length stu_items)) eqn:Hlen;
      simpl negb in *; cbv iota in *.
    + assert (Hzip : zip_loop_by (compare_values sc1) items stu_items 0 path
                     = Ok ds).
      { destruct sc1; [| exact H].
        apply bind_ok in H as (ds' & Hds & H). injection H as <-. exact Hds. }
      rewrite (zip_loop_agree items IH _ _ _ _ Hzip Hn).
      destruct sc2; reflexivity.
    + exfalso. apply Nat.eqb_neq in Hlen.
      apply (Hn items stu_items path Hlen).
      destruct sc1.
      * apply bind_ok in H as (ds' & _ & H). injection H as <-.
        left. reflexivity.
      * injection H as <-. left. reflexivity.
  - (* dictionaries *)
    destruct stu_val as [| | | | | stu_entries]; try exact H.
    rewrite compare_values_dict in *.
    apply bind_ok in H as (first & Hfirst & H). injection H as <-.
    apply no_length_mismatch_app in Hn as (Hn1 & _).
    rewrite (key_loop_agree entries stu_entries path IH _ Hfirst Hn1).
    reflexivity.
Qed.
End Agree.

Lemma ref_class_loop_agree sc1 sc2 names ref stu :
  forall ds,
    ref_class_loop sc1 names ref stu = Ok ds ->
    no_length_mismatch sc1 ds ->
    ref_class_loop sc2 names ref stu = Ok ds.
Proof.
  induction names as [| class_name rest IH]; simpl; intros ds H Hn;
    [exact H |].
  apply bind_ok in H as (present & Hp & H). apply bind_ok in H as (d & Hd & H).
  apply bind_ok in H as (ds' & Hds & H). injection H as <-.
  apply no_length_mismatch_app in Hn as (Hn1 & Hn2).
  rewrite Hp, (IH _ Hds Hn2). simpl.
  destruct (negb present).
  - rewrite Hd. reflexivity.
  - apply bind_ok in Hd as (rc & Hrc & Hd). apply bind_ok in Hd as (sc & Hsc & Hd).
    rewrite Hrc, Hsc. simpl.
    rewrite (compare_values_agree sc1 sc2 rc _ _ _ Hd Hn1). reflexivity.
Qed.

Lemma compare_uml_files_agree sc1 sc2 ref_data student_data ds :
  compare_uml_files sc1 ref_data student_data = Ok ds ->
  no_length_mismatch sc1 ds ->
  compare_uml_files sc2 ref_data student_data = Ok ds.
Proof.
  unfold compare_uml_files. intros H Hn.
  apply bind_ok in H as (ref & Href & H). apply bind_ok in H as (stu & Hstu & H).
  apply bind_ok in H as (rn & Hrn & H). apply bind_ok in H as (first & Hf & H).
  apply bind_ok in H as (sn & Hsn & H). apply bind_ok in H as (second & Hs & H).
  injection H as <-. apply no_length_mismatch_app in Hn as (Hn1 & _).
  rewrite Href. cbn [bind]. rewrite Hstu. cbn [bind]. rewrite Hrn. cbn [bind].
  rewrite (ref_class_loop_agree sc1 sc2 _ _ _ _ Hf Hn1). cbn [bind].
  rewrite Hsn. cbn [bind]. rewrite Hs. reflexivity.
Qed.

(** The length mismatch of the stand-alone script ends in a closing
    parenthesis, the one of the embedded script in a closing bracket; a
    list of strings that end otherwise holds none. *)
Lemma last_char_app a b :
  last_char (a ++ b)
  = match last_char b with
    | Some c => Some c
    | None => last_char a
    end.
Proof.
  induction a as [| c a IH]; simpl.
  - destruct (last_char b); reflexivity.
  - rewrite IH. destruct (last_char b); reflexivity.
Qed.

Lemma length_mismatch_closes sc ref_items stu_items path :
  closes sc (length_mismatch sc ref_items stu_items path) = true.
Proof.
  unfold closes, length_mismatch.
  destruct sc; cbn [py_repr]; rewrite !last_char_app; reflexivity.
Qed.

Lemma no_length_mismatch_closes sc ds :
  forallb (fun d => negb (closes sc d)) ds = true -> no_length_mismatch sc ds.
Proof.
  intros H ref_items stu_items path _ Hin.
  rewrite forallb_forall in H. specialize (H _ Hin).
  rewrite length_mismatch_closes in H. discriminate H.
Qed.

Lemma length_mismatch_wording ref_items stu_items path ref_items' stu_items'
    path' :
  length_mismatch Standalone ref_items stu_items path
  <> length_mismatch Embedded ref_items' stu_items' path'.
Proof.
  intros H.
  pose proof (length_mismatch_closes Standalone ref_items stu_items path) as H1.
  pose proof (length_mismatch_closes Embedded ref_items' stu_items' path')
    as H2.
  rewrite H in H1. unfold closes in H1, H2.
  destruct (last_char _) as [c |]; [| discriminate].
  apply Ascii.eqb_eq in H1, H2. subst c. discriminate H2.
Qed.

(** Where the lengths differ the two scripts never return the same. *)
Lemma scripts_differ_on_length_mismatch ref_items stu_items path :
  positional path = true ->
  List.length ref_items <> List.length stu_items ->
  compare_values Standalone (VList ref_items) (VList stu_items) path
  <> compare_values Embedded (VList ref_items) (VList stu_items) path.
Proof.
  intros Hp Hlen.
  rewrite standalone_length_mismatch, embedded_length_mismatch by assumption.
  destruct (zip_loop _ _ _ _) as [ds | e]; cbn [bind]; [| discriminate].
  intros H. injection H as H _.
  exact (length_mismatch_wording _ _ _ _ _ _ H).
Qed.

(** C9 as stated fails: at the positional path [p] the lists [[1]] and
    [[]] differ in length, and the two scripts word the discrepancy
    differently. *)
Lemma scripts_differ_counterexample :
  compare_values Standalone (VList [VInt 1]) (VList []) "p"
  = Ok ["p - Length mismatch: expected [1] (1 items), got [] (0 items)"]
  /\ compare_values Embedded (VList [VInt 1]) (VList []) "p"
     = Ok ["p - Length mismatch: expected [1], got []"]
  /\ compare_values Standalone (VList [VInt 1]) (VList []) "p"
     <> compare_values Embedded (VList [VInt 1]) (VList []) "p".
Proof.
  repeat split; try reflexivity. discriminate.
Qed.

(** C9, amended: whenever one script returns a list of discrepancies
    with none of its length mismatches in it, the other script returns
    the same list; at the level of values and at the level of corpora,
    and in both directions.  Where two positional sequences of differing
    lengths are compared, the two scripts word the discrepancy
    differently and their results differ. *)
Theorem scripts_agree_without_length_mismatch sc1 sc2 :
  (forall ref_val stu_val path ds,
      compare_values sc1 ref_val stu_val path = Ok ds ->
      no_length_mismatch sc1 ds ->
      compare_values sc2 ref_val stu_val path = Ok ds)
  /\ (forall ref_data student_data ds,
         compare_uml_files sc1 ref_data student_data = Ok ds ->
         no_length_mismatch sc1 ds ->
         compare_uml_files sc2 ref_data student_data = Ok ds)
  /\ (forall ref_items stu_items path,
         positional path = true ->
         List.length ref_items <> List.length stu_items ->
         length_mismatch Standalone ref_items stu_items path
         <> length_mismatch Embedded ref_items stu_items path
         /\ compare_values Standalone (VList ref_items) (VList stu_items) path
            <> compare_values Embedded (VList ref_items) (VList stu_items)
                 path).
Proof.
  split; [| split].
  - intros ref_val. apply compare_values_agree.
  - intros ref_data student_data ds. apply compare_uml_files_agree.
  - intros ref_items stu_items path Hp Hlen. split.
    + apply length_mismatch_wording.
    + apply scripts_differ_on_length_mismatch; assumption.
Qed.

Lemma scripts_agree_without_length_mismatch_witness :
  compare_values Embedded (foo_with_field "int") (foo_with_field "long")
    "Class Foo"
  = Ok ["Class Foo.fields.x.type - Value mismatch: expected int, got long"]
  /\ no_length_mismatch Embedded
       ["Class Foo.fields.x.type - Value mismatch: expected int, got long"]
  /\ compare_values Standalone (foo_with_field "int") (foo_with_field "long")
       "Class Foo"
     = Ok ["Class Foo.fields.x.type - Value mismatch: expected int, got long"].
Proof.
  split; [reflexivity |].
  split; [apply no_length_mismatch_closes; reflexivity |].
  apply (proj1 (scripts_agree_without_length_mismatch Embedded Standalone)).
  - reflexivity.
  - apply no_length_mismatch_closes. reflexivity.
Defined.

(** ** Keyed collections of valid items *)

Lemma distinct_keys_spec {V : Type} (entries : list (string * V)) :
  distinct_keys entries = true -> distinct String.eqb entries.
Proof.
  induction entries as [| [k v] r IH]; simpl; intros H; [constructor |].
  apply andb_true_iff in H as (Hk & Hr). constructor; [| auto].
  apply negb_true_iff in Hk. unfold dict_mem in Hk.
  destruct (dict_get String.eqb k r) eqn:E; [discriminate |].
  apply dict_get_none. exact E.
Qed.

Lemma filter_none {A : Type} (f : A -> bool) (l : list A) :
  (forall x, In x l -> f x = false) -> filter f l = [].
Proof.
  induction l as [| x r IH]; simpl; intros H; [reflexivity |].
  rewrite (H x) by (left; reflexivity). apply IH. intros y Hy. apply H.
  right. exact Hy.
Qed.

Section KeyedValid.
Context {K : Type}.
Variable key_of : value -> result K.
Variable keqb : K -> K -> bool.
Variable strs : K -> bool.
Variable missing extra : string -> K -> string.
Variable item_path : string -> K -> result string.
Hypothesis keqb_refl : forall a, keqb a a = true.
Hypothesis keqb_sym : forall a b, keqb a b = keqb b a.
Hypothesis keqb_trans :
  forall a b c, keqb a b = true -> keqb b c = true -> keqb a c = true.
Hypothesis strs_eq : forall a b, strs a = true -> keqb a b = true -> a = b.

Lemma keyed_item_ok_spec path m :
  keyed_item_ok key_of strs item_path valid path m = true ->
  exists k, item_ok key_of strs item_path path k m.
Proof.
  unfold keyed_item_ok, item_ok.
  destruct (key_of m) as [k | e]; [| discriminate].
  rewrite andb_true_iff. intros (Hs & H).
  destruct (item_path path k) as [p | e] eqn:Hp; [| discriminate].
  exists k. repeat split; try assumption. exists p. auto.
Qed.

Lemma key_pairs_valid path items :
  forallb (keyed_item_ok key_of strs item_path valid path) items = true ->
  exists kvs,
    mapM (fun a => k <- key_of a ;; Ok (k, a)) items = Ok kvs
    /\ forall k v, In (k, v) kvs -> In v items /\ item_ok key_of strs item_path path k v.
Proof.
  induction items as [| x r IH]; simpl; intros H.
  - exists []. split; [reflexivity | intros ? ? []].
  - apply andb_true_iff in H as (Hx & Hr).
    destruct (IH Hr) as (kvs & Hkvs & Hall).
    destruct (keyed_item_ok_spec _ _ Hx) as (k & Hk).
    exists ((k, x) :: kvs). split.
    + destruct Hk as (-> & _). simpl. rewrite Hkvs. reflexivity.
    + intros k' v [Heq | Hin].
      * injection Heq as <- <-. auto.
      * destruct (Hall _ _ Hin). auto.
Qed.

(** The dictionary of a valid collection: its entries are items under
    their own keys. *)
Lemma keyed_map_valid path items :
  forallb (keyed_item_ok key_of strs item_path valid path) items = true ->
  exists m,
    keyed_map key_of keqb (fun x => x) items = Ok m
    /\ distinct keqb m
    /\ forall k v, In (k, v) m -> In v items /\ item_ok key_of strs item_path path k v.
Proof.
  intros H. destruct (key_pairs_valid _ _ H) as (kvs & Hkvs & Hall).
  exists (dict_of keqb kvs). unfold keyed_map. rewrite Hkvs. simpl.
  split; [reflexivity |]. split; [apply dict_of_distinct; assumption |].
  intros k v Hin.
  apply (dict_of_in keqb keqb_refl) in Hin as (k0 & Hin & Hk).
  destruct (Hall _ _ Hin) as (Hv & Hok). split; [exact Hv |].
  assert (k0 = k) as <-; [| exact Hok].
  apply strs_eq; [| exact Hk]. apply Hok.
Qed.

Lemma valid_lookup path (m : list (K * value)) k v :
  (forall k v, In (k, v) m -> item_ok key_of strs item_path path k v) ->
  dict_get keqb k m = Some v -> item_ok key_of strs item_path path k v.
Proof.
  intros Hall H. apply dict_get_in in H as (k' & Hin & Hk).
  assert (k' = k) as <-; [| auto].
  apply strs_eq; [apply (Hall _ _ Hin) | rewrite keqb_sym; exact Hk].
Qed.

Section Loops.
Variable compare : value -> differ.

(** Totality: every comparison of two items valid at one path returns. *)
Lemma keyed_loop_total path ref_map stu_map :
  (forall k v, In (k, v) ref_map ->
               item_ok key_of strs item_path path k v
               /\ forall stu p, valid v p = true -> valid stu p = true ->
                                exists ds, compare v stu p = Ok ds) ->
  (forall k v, In (k, v) stu_map -> item_ok key_of strs item_path path k v) ->
  exists ds,
    keyed_loop_by keqb missing item_path compare ref_map stu_map path = Ok ds.
Proof.
  intros Href Hstu.
  induction ref_map as [| [sig m] rest IH]; simpl; [eauto |].
  destruct IH as (ds & Hds); [intros k v Hin; apply Href; right; exact Hin |].
  rewrite Hds.
  destruct (Href sig m (or_introl eq_refl)) as ((_ & _ & p & Hp & Hm) & Hcmp).
  destruct (dict_get keqb sig stu_map) as [stu_item |] eqn:E.
  - destruct (valid_lookup path _ _ _ Hstu E) as (_ & _ & p' & Hp' & Hs).
    rewrite Hp in Hp'. injection Hp' as <-.
    rewrite Hp. simpl. destruct (Hcmp _ _ Hm Hs) as (d & ->). simpl. eauto.
  - simpl. eauto.
Qed.

Lemma compare_keyed_total path ref_items stu_items :
  forallb (keyed_item_ok key_of strs item_path valid path) ref_items = true ->
  forallb (keyed_item_ok key_of strs item_path valid path) stu_items = true ->
  Forall (fun m => forall stu p, valid m p = true -> valid stu p = true ->
                                 exists ds, compare m stu p = Ok ds)
         ref_items ->
  exists ds,
    compare_keyed_by key_of keqb missing extra item_path compare ref_items
      stu_items path = Ok ds.
Proof.
  intros Hr Hs Hall.
  destruct (keyed_map_valid _ _ Hr) as (rm & Hrm & _ & Hrm_in).
  destruct (keyed_map_valid _ _ Hs) as (sm & Hsm & _ & Hsm_in).
  unfold compare_keyed_by. rewrite Hrm, Hsm. simpl.
  destruct (keyed_loop_total path rm sm) as (ds & ->); [| | simpl; eauto].
  - intros k v Hin. destruct (Hrm_in _ _ Hin) as (Hv & Hok).
    split; [exact Hok |]. rewrite Forall_forall in Hall. auto.
  - intros k v Hin. apply Hsm_in, Hin.
Qed.

(** Reflexivity: a dictionary walked against itself. *)
Lemma keyed_loop_refl path (m : list (K * value)) :
  distinct keqb m ->
  forall l,
    incl l m ->
    (forall k v, In (k, v) l ->
                 item_ok key_of strs item_path path k v
                 /\ forall p, valid v p = true -> compare v v p = Ok []) ->
    keyed_loop_by keqb missing item_path compare l m path = Ok [].
Proof.
  intros Hd. induction l as [| [sig v] rest IH]; simpl; intros Hincl Hall;
    [reflexivity |].
  rewrite IH;
    [| intros x Hx; apply Hincl; right; exact Hx
     | intros k w Hin; apply Hall; right; exact Hin].
  rewrite (distinct_get keqb keqb_refl keqb_sym sig v m Hd)
    by (apply Hincl; left; reflexivity).
  destruct (Hall sig v (or_introl eq_refl)) as ((_ & _ & p & Hp & Hv) & Hcmp).
  rewrite Hp. simpl. rewrite (Hcmp p Hv). reflexivity.
Qed.

Lemma keyed_stu_loop_refl path (m : list (K * value)) :
  distinct keqb m -> keyed_stu_loop keqb extra m m path = [].
Proof.
  intros Hd. unfold keyed_stu_loop.
  rewrite filter_none; [reflexivity |].
  intros [k v] Hin. simpl. unfold dict_mem.
  rewrite (distinct_get keqb keqb_refl keqb_sym k v m Hd Hin). reflexivity.
Qed.

Lemma compare_keyed_refl path items :
  forallb (keyed_item_ok key_of strs item_path valid path) items = true ->
  Forall (fun m => forall p, valid m p = true -> compare m m p = Ok []) items ->
  compare_keyed_by key_of keqb missing extra item_path compare items items path
  = Ok [].
Proof.
  intros Hv Hall.
  destruct (keyed_map_valid _ _ Hv) as (m & Hm & Hd & Hin).
  unfold compare_keyed_by. rewrite Hm. simpl.
  rewrite (keyed_loop_refl path m Hd m), keyed_stu_loop_refl; try assumption.
  - reflexivity.
  - apply incl_refl.
  - intros k v Hkv. destruct (Hin _ _ Hkv) as (Hv' & Hok).
    split; [exact Hok |]. rewrite Forall_forall in Hall. auto.
Qed.

End Loops.
End KeyedValid.

(** The three kinds of keys. *)
Lemma hkey_refl a : hkey_eqb a a = true.
Proof. exact (image_refl hkey_eqb canon hkey_eqb_canon a). Qed.

Lemma hkey_sym a b : hkey_eqb a b = hkey_eqb b a.
Proof. exact (image_sym hkey_eqb canon hkey_eqb_canon a b). Qed.


Lemma tuple_refl a : tuple_eqb a a = true.
Proof. exact (image_refl tuple_eqb (map canon) tuple_eqb_canon a). Qed.

Lemma tuple_sym a b : tuple_eqb a b = tuple_eqb b a.
Proof. exact (image_sym tuple_eqb (map canon) tuple_eqb_canon a b). Qed.


Lemma sig_refl a : sig_eqb a a = true.
Proof. exact (image_refl sig_eqb _ sig_eqb_canon a). Qed.

Lemma sig_sym a b : sig_eqb a b = sig_eqb b a.
Proof. exact (image_sym sig_eqb _ sig_eqb_canon a b). Qed.

Lemma sig_trans a b c :
  sig_eqb a b = true -> sig_eqb b c = true -> sig_eqb a c = true.
Proof. exact (image_trans sig_eqb _ sig_eqb_canon a b c). Qed.

(** ** Unfolding [valid] *)

Lemma valid_list items path :
  valid (VList items) path
  = if endswith path ".methods" then
      forallb (keyed_item_ok method_sig sig_strs method_path valid path) items
    else if endswith path ".fields" then
      forallb (keyed_item_ok name_key is_hstr field_path valid path) items
    else if endswith path ".constructors" then
      forallb (keyed_item_ok params_key (forallb is_hstr) constructor_path
                 valid path) items
    else if unordered path then forallb is_str items
    else valid_elements items 0 path.
Proof.
  simpl. unfold unordered.
  repeat match goal with |- context [if ?c then _ else _] => destruct c end;
    try reflexivity.
  generalize 0. induction items as [| x r IH]; intros i; simpl;
    [reflexivity |].
  rewrite IH. reflexivity.
Qed.

Lemma valid_dict entries path :
  valid (VDict entries) path
  = distinct_keys entries
    && forallb (fun kv => valid (snd kv) (path ++ "." ++ fst kv)) entries.
Proof. reflexivity. Qed.

Lemma forallb_lookup (entries : list (string * value)) path key v :
  forallb (fun kv => valid (snd kv) (path ++ "." ++ fst kv)) entries = true ->
  dict_get String.eqb key entries = Some v ->
  valid v (path ++ "." ++ key) = true.
Proof.
  intros Hall H. apply dict_get_in in H as (k' & Hin & Hk).
  apply String.eqb_eq in Hk as <-.
  rewrite forallb_forall in Hall. apply (Hall (key, v) Hin).
Qed.

(** ** Totality on valid inputs *)

Section Total.
Variable sc : script.

Lemma scalar_returns ref_val : scalar ref_val = true -> returns sc ref_val.
Proof.
  intros Hs stu_val path _ _.
  destruct (string_dec (type_name ref_val) (type_name stu_val)) as [E | E].
  - rewrite compare_values_scalar by assumption.
    destruct (negb (py_eq ref_val stu_val)); eauto.
  - rewrite compare_values_mismatch by assumption. eauto.
Qed.

Lemma key_loop_total ref_entries stu_entries path :
  Forall (fun kv => returns sc (snd kv)) ref_entries ->
  forallb (fun kv => valid (snd kv) (path ++ "." ++ fst kv)) ref_entries = true ->
  forallb (fun kv => valid (snd kv) (path ++ "." ++ fst kv)) stu_entries = true ->
  exists ds, key_loop sc ref_entries stu_entries path = Ok ds.
Proof.
  intros Hall Hr Hs.
  induction Hall as [| [key ref_item] rest Hx _ IH]; simpl in *; [eauto |].
  apply andb_true_iff in Hr as (Hv & Hr).
  destruct (IH Hr) as (ds & ->).
  destruct (dict_get String.eqb key stu_entries) as [stu_item |] eqn:E.
  - destruct (Hx stu_item _ Hv (forallb_lookup _ _ _ _ Hs E)) as (d & ->).
    simpl. eauto.
  - simpl. eauto.
Qed.

Lemma zip_loop_total ref_items :
  Forall (returns sc) ref_items ->
  forall stu_items i path,
    valid_elements ref_items i path = true ->
    valid_elements stu_items i path = true ->
    exists ds,
      zip_loop_by (compare_values sc) ref_items stu_items i path = Ok ds.
Proof.
  induction 1 as [| x r Hx _ IH]; intros [| s t] i path; simpl; eauto.
  rewrite !andb_true_iff. intros (Hv & Hr) (Hs & Ht).
  destruct (Hx s _ Hv Hs) as (d & ->). destruct (IH t _ _ Hr Ht) as (ds & ->).
  simpl. eauto.
Qed.

Lemma compare_values_returns ref_val : returns sc ref_val.
Proof.
  induction ref_val as [| b | n | s | items IH | entries IH] using value_ind;
    try (apply scalar_returns; reflexivity);
    intros stu_val path Hr Hs.
  - (* lists *)
    destruct stu_val as [| | | | stu_items |];
      try (rewrite compare_values_mismatch by discriminate; eauto).
    rewrite compare_values_list_eq. rewrite valid_list in Hr, Hs.
    destruct (endswith path ".methods").
    { apply (compare_keyed_total method_sig sig_eqb sig_strs _ _ method_path
               sig_refl sig_sym sig_eqb_strs); assumption. }
    destruct (endswith path ".fields").
    { apply (compare_keyed_total name_key hkey_eqb is_hstr _ _ field_path
               hkey_refl hkey_sym hkey_eqb_str); assumption. }
    destruct (endswith path ".constructors").
    { apply (compare_keyed_total params_key tuple_eqb (forallb is_hstr) _ _
               constructor_path tuple_refl tuple_sym tuple_eqb_strs);
        assumption. }
    destruct (unordered path).
    { apply all_strs in Hr as (rs & ->). apply all_strs in Hs as (ss & ->).
      rewrite !sorted_strs. cbv [bind].
      destruct (negb _); eauto. }
    cbv zeta.
    destruct (zip_loop_total items IH stu_items 0 path Hr Hs) as (ds & Hds).
    rewrite Hds. destruct sc; simpl; [eauto |].
    destruct (negb _); eauto.
  - (* dictionaries *)
    destruct stu_val as [| | | | | stu_entries];
      try (rewrite compare_values_mismatch by discriminate; eauto).
    rewrite compare_values_dict. rewrite valid_dict in Hr, Hs.
    apply andb_true_iff in Hr as (_ & Hr). apply andb_true_iff in Hs as (_ & Hs).
    destruct (key_loop_total entries stu_entries path IH Hr Hs) as (ds & ->).
    simpl. eauto.
Qed.
End Total.

(** ** Reflexivity on valid inputs *)

Section Reflexive.
Variable sc : script.

Lemma scalar_reflexive v : scalar v = true -> reflexive sc v.
Proof.
  intros Hs path _. rewrite compare_values_scalar by auto.
  rewrite (proj2 (py_eq_scalar v v Hs eq_refl) eq_refl). reflexivity.
Qed.

Lemma key_loop_refl entries path :
  distinct String.eqb entries ->
  forall l,
    incl l entries ->
    Forall (fun kv => reflexive sc (snd kv)) l ->
    forallb (fun kv => valid (snd kv) (path ++ "." ++ fst kv)) l = true ->
    key_loop sc l entries path = Ok [].
Proof.
  intros Hd. induction l as [| [key v] rest IH]; simpl; intros Hincl Hall Hv;
    [reflexivity |].
  apply andb_true_iff in Hv as (Hv & Hrest). inversion Hall as [| ? ? Hx Hr]; subst.
  rewrite (distinct_get String.eqb String.eqb_refl String.eqb_sym key v entries Hd)
    by (apply Hincl; left; reflexivity).
  simpl in Hx. rewrite (Hx _ Hv). rewrite IH; try assumption; [reflexivity |].
  intros x Hin. apply Hincl. right. exact Hin.
Qed.

Lemma extra_keys_refl entries path :
  distinct String.eqb entries -> extra_keys entries entries path = [].
Proof.
  intros Hd. unfold extra_keys. rewrite filter_none; [reflexivity |].
  intros [k v] Hin. simpl. unfold dict_mem.
  rewrite (distinct_get String.eqb String.eqb_refl String.eqb_sym k v entries
             Hd Hin).
  reflexivity.
Qed.

Lemma zip_loop_refl items :
  Forall (reflexive sc) items ->
  forall i path,
    valid_elements items i path = true ->
    zip_loop_by (compare_values sc) items items i path = Ok [].
Proof.
  induction 1 as [| x r Hx _ IH]; intros i path; simpl; [reflexivity |].
  rewrite andb_true_iff. intros (Hv & Hr).
  rewrite (Hx _ Hv), (IH _ _ Hr). reflexivity.
Qed.

End Reflexive.

Lemma compare_values_reflexive sc v : reflexive sc v.
Proof.
  induction v as [| b | n | s | items IH | entries IH] using value_ind;
    try (apply scalar_reflexive; reflexivity);
    intros path Hv.
  - rewrite compare_values_list_eq. rewrite valid_list in Hv.
    destruct (endswith path ".methods").
    { apply (compare_keyed_refl method_sig sig_eqb sig_strs _ _ method_path
               sig_refl sig_sym sig_eqb_strs); assumption. }
    destruct (endswith path ".fields").
    { apply (compare_keyed_refl name_key hkey_eqb is_hstr _ _ field_path
               hkey_refl hkey_sym hkey_eqb_str); assumption. }
    destruct (endswith path ".constructors").
    { apply (compare_keyed_refl params_key tuple_eqb (forallb is_hstr) _ _
               constructor_path tuple_refl tuple_sym tuple_eqb_strs);
        assumption. }
    destruct (unordered path).
    { apply all_strs in Hv as (ss & ->). rewrite !sorted_strs. cbv [bind].
      rewrite (proj2 (py_eq_strs _ _) eq_refl). reflexivity. }
    cbv zeta. rewrite Nat.eqb_refl, (zip_loop_refl sc items IH 0 path Hv).
    destruct sc; reflexivity.
  - rewrite compare_values_dict. rewrite valid_dict in Hv.
    apply andb_true_iff in Hv as (Hd & Hv). apply distinct_keys_spec in Hd.
    rewrite (key_loop_refl sc entries path Hd entries (incl_refl _) IH Hv).
    simpl. rewrite extra_keys_refl by assumption. reflexivity.
Qed.

(** ** The differ under the recursion limit *)

Lemma key_loop_eq sc ref_entries stu_entries path :
  key_loop sc ref_entries stu_entries path
  = key_loop_by (compare_values sc) ref_entries stu_entries path.
Proof.
  induction ref_entries as [| [key ref_item] rest IH]; simpl; [reflexivity |].
  rewrite IH. reflexivity.
Qed.

Lemma ref_class_loop_eq sc names ref stu :
  ref_class_loop sc names ref stu
  = ref_class_loop_by (compare_values sc) names ref stu.
Proof.
  induction names as [| n rest IH]; simpl; [reflexivity |].
  rewrite IH. reflexivity.
Qed.

Lemma cut_short_refl {A : Type} (r : result A) : cut_short r r.
Proof. left. reflexivity. Qed.

Lemma cut_short_bind {A B : Type} (r r' : result A) (k k' : A -> result B) :
  cut_short r r' -> (forall a, cut_short (k a) (k' a)) ->
  cut_short (bind r k) (bind r' k').
Proof.
  intros [-> | ->] Hk; [| right; reflexivity].
  destruct r' as [a | e]; [apply Hk | left; reflexivity].
Qed.

Section CutShort.
Variables compare compare' : value -> differ.
Hypothesis compare_cut :
  forall x s p, cut_short (compare x s p) (compare' x s p).

Lemma key_loop_cut ref_entries stu_entries path :
  cut_short (key_loop_by compare ref_entries stu_entries path)
            (key_loop_by compare' ref_entries stu_entries path).
Proof.
  induction ref_entries as [| [key ref_item] rest IH]; cbn [key_loop_by];
    [apply cut_short_refl |].
  apply cut_short_bind.
  - destruct (dict_get String.eqb key stu_entries);
      [apply compare_cut | apply cut_short_refl].
  - intros d. apply cut_short_bind; [exact IH | intros; apply cut_short_refl].
Qed.

Lemma zip_loop_cut ref_items :
  forall stu_items i path,
    cut_short (zip_loop_by compare ref_items stu_items i path)
              (zip_loop_by compare' ref_items stu_items i path).
Proof.
  induction ref_items as [| x r IH]; intros [| s t] i path;
    cbn [zip_loop_by]; try apply cut_short_refl.
  apply cut_short_bind; [apply compare_cut |].
  intros d. apply cut_short_bind; [apply IH | intros; apply cut_short_refl].
Qed.

Lemma ref_class_loop_cut names ref stu :
  cut_short (ref_class_loop_by compare names ref stu)
            (ref_class_loop_by compare' names ref stu).
Proof.
  induction names as [| n rest IH]; cbn [ref_class_loop_by];
    [apply cut_short_refl |].
  apply cut_short_bind; [apply cut_short_refl |]. intros present.
  apply cut_short_bind.
  - destruct (negb present); [apply cut_short_refl |].
    apply cut_short_bind; [apply cut_short_refl |]. intros r.
    apply cut_short_bind; [apply cut_short_refl |]. intros s.
    apply compare_cut.
  - intros d. apply cut_short_bind; [exact IH | intros; apply cut_short_refl].
Qed.

Section KeyedCut.
Context {K : Type}.
Variable key_of : value -> result K.
Variable keqb : K -> K -> bool.
Variable missing extra : string -> K -> string.
Variable item_path : string -> K -> result string.

Lemma keyed_loop_cut ref_map stu_map path :
  cut_short (keyed_loop_by keqb missing item_path compare ref_map stu_map path)
            (keyed_loop_by keqb missing item_path compare' ref_map stu_map path).
Proof.
  induction ref_map as [| [sig m] rest IH]; cbn [keyed_loop_by];
    [apply cut_short_refl |].
  apply cut_short_bind.
  - destruct (dict_get keqb sig stu_map); [| apply cut_short_refl].
    apply cut_short_bind; [apply cut_short_refl |]. intros p. apply compare_cut.
  - intros d. apply cut_short_bind; [exact IH | intros; apply cut_short_refl].
Qed.

Lemma compare_keyed_cut ref_items stu_items path :
  cut_short
    (compare_keyed_by key_of keqb missing extra item_path compare ref_items
       stu_items path)
    (compare_keyed_by key_of keqb missing extra item_path compare' ref_items
       stu_items path).
Proof.
  unfold compare_keyed_by.
  apply cut_short_bind; [apply cut_short_refl |]. intros rm.
  apply cut_short_bind; [apply cut_short_refl |]. intros sm.
  apply cut_short_bind; [apply keyed_loop_cut |]. intros first.
  apply cut_short_refl.
Qed.
End KeyedCut.
End CutShort.

Lemma limited_call_cut {A : Type} frames (body : nat -> result A) r :
  (forall inner, inner < frames -> cut_short (body inner) r) ->
  cut_short (Limited.call frames body) r.
Proof.
  destruct frames as [| inner]; intros H; [right; reflexivity |].
  apply H. apply Nat.lt_succ_diag_r.
Qed.

Lemma limited_compare_values_cut sc frames :
  forall ref_val stu_val path,
    cut_short (Limited.compare_values sc frames ref_val stu_val path)
              (compare_values sc ref_val stu_val path).
Proof.
  induction frames as [frames IH] using lt_wf_ind.
  destruct frames as [| frames]; [right; reflexivity |].
  assert (IH0 := IH frames (Nat.lt_succ_diag_r frames)).
  intros ref_val stu_val path.
  destruct ref_val as [| b | n | s | items | entries],
           stu_val as [| b' | n' | s' | items' | entries'];
    try (left; reflexivity).
  - (* lists *)
    rewrite compare_values_list_eq. cbn [Limited.compare_values type_name].
    rewrite String.eqb_refl. cbn [negb]. fold (unordered path).
    destruct (endswith path ".methods").
    { apply limited_call_cut. intros inner Hlt. apply compare_keyed_cut.
      apply IH. lia. }
    destruct (endswith path ".fields").
    { apply limited_call_cut. intros inner Hlt. apply compare_keyed_cut.
      apply IH. lia. }
    destruct (endswith path ".constructors").
    { apply limited_call_cut. intros inner Hlt. apply compare_keyed_cut.
      apply IH. lia. }
    destruct (unordered path); [apply cut_short_refl |].
    cbv zeta. destruct sc.
    + apply cut_short_bind; [apply zip_loop_cut, IH0 | intros; apply cut_short_refl].
    + destruct (negb _); [apply cut_short_refl | apply zip_loop_cut, IH0].
  - (* dictionaries *)
    rewrite compare_values_dict, key_loop_eq.
    cbn [Limited.compare_values type_name]. rewrite String.eqb_refl. cbn [negb].
    apply cut_short_bind; [apply key_loop_cut, IH0 | intros; apply cut_short_refl].
Qed.

Lemma in_list_max x l : In x l -> x <= list_max l.
Proof.
  induction l as [| y r IH]; cbn [list_max fold_right]; [intros [] |].
  intros [-> | H]; [apply Nat.le_max_l |].
  specialize (IH H). fold (list_max r). lia.
Qed.

Lemma depth_item x items : In x items -> depth x < depth (VList items).
Proof.
  intros H. cbn [depth]. apply Nat.lt_succ_r, in_list_max.
  apply in_map, H.
Qed.

Lemma depth_entry (kv : string * value) entries :
  In kv entries -> depth (snd kv) < depth (VDict entries).
Proof.
  intros H. cbn [depth]. apply Nat.lt_succ_r, in_list_max.
  apply (in_map (fun kv => depth (snd kv)) _ _ H).
Qed.

Section SameOnItems.
Variables compare compare' : value -> differ.

Lemma key_loop_same ref_entries stu_entries path :
  (forall kv, In kv ref_entries ->
              forall s p, compare (snd kv) s p = compare' (snd kv) s p) ->
  key_loop_by compare ref_entries stu_entries path
  = key_loop_by compare' ref_entries stu_entries path.
Proof.
  induction ref_entries as [| [key ref_item] rest IH]; cbn [key_loop_by];
    intros H; [reflexivity |].
  rewrite IH by (intros kv Hin; apply H; right; exact Hin).
  pose proof (H (key, ref_item) (or_introl eq_refl)) as Hx. cbn [snd] in Hx.
  destruct (dict_get String.eqb key stu_entries); [| reflexivity].
  rewrite Hx. reflexivity.
Qed.

Lemma zip_loop_same ref_items :
  (forall x, In x ref_items -> forall s p, compare x s p = compare' x s p) ->
  forall stu_items i path,
    zip_loop_by compare ref_items stu_items i path
    = zip_loop_by compare' ref_items stu_items i path.
Proof.
  induction ref_items as [| x r IH]; intros H [| s t] i path;
    cbn [zip_loop_by]; try reflexivity.
  rewrite (H x (or_introl eq_refl)).
  rewrite IH by (intros y Hy; apply H; right; exact Hy). reflexivity.
Qed.

Lemma ref_class_loop_same names ref stu :
  (forall k r, data_item k ref = Ok r ->
               forall s p, compare r s p = compare' r s p) ->
  ref_class_loop_by compare names ref stu
  = ref_class_loop_by compare' names ref stu.
Proof.
  intros H. induction names as [| n rest IH]; cbn [ref_class_loop_by];
    [reflexivity |].
  rewrite IH. destruct (data_mem n stu) as [present |]; [| reflexivity].
  cbn [bind]. destruct (negb present); [reflexivity |].
  destruct (data_item n ref) as [r |] eqn:E; [| reflexivity].
  cbn [bind]. destruct (data_item n stu) as [s |]; [| reflexivity].
  cbn [bind]. rewrite (H n r E). reflexivity.
Qed.

Section KeyedSame.
Context {K : Type}.
Variable key_of : value -> result K.
Variable keqb : K -> K -> bool.
Variable missing extra : string -> K -> string.
Variable item_path : string -> K -> result string.

Lemma keyed_loop_same ref_map stu_map path :
  (forall k v, In (k, v) ref_map ->
               forall s p, compare v s p = compare' v s p) ->
  keyed_loop_by keqb missing item_path compare ref_map stu_map path
  = keyed_loop_by keqb missing item_path compare' ref_map stu_map path.
Proof.
  induction ref_map as [| [sig m] rest IH]; cbn [keyed_loop_by]; intros H;
    [reflexivity |].
  rewrite IH by (intros k v Hin; apply (H k v); right; exact Hin).
  destruct (dict_get keqb sig stu_map) as [stu_item |]; [| reflexivity].
  destruct (item_path path sig) as [p |]; [| reflexivity].
  cbn [bind]. rewrite (H sig m (or_introl eq_refl)). reflexivity.
Qed.

Lemma compare_keyed_same ref_items stu_items path :
  (forall x, In x ref_items -> forall s p, compare x s p = compare' x s p) ->
  compare_keyed_by key_of keqb missing extra item_path compare ref_items
    stu_items path
  = compare_keyed_by key_of keqb missing extra item_path compare' ref_items
      stu_items path.
Proof.
  intros H. unfold compare_keyed_by.
  destruct (keyed_map key_of keqb (fun m => m) ref_items) as [rm |] eqn:E;
    [| reflexivity].
  cbn [bind].
  destruct (keyed_map key_of keqb (fun m => m) stu_items) as [sm |];
    [| reflexivity].
  cbn [bind]. rewrite (keyed_loop_same rm sm path); [reflexivity |].
  intros k v Hin. apply H. apply (keyed_map_values _ _ _ _ E k v Hin).
Qed.
End KeyedSame.
End SameOnItems.

(** With enough frames for the nesting of the reference the limit is
    not met. *)
Lemma limited_compare_values_within sc ref_val :
  forall frames stu_val path,
    2 * depth ref_val < frames ->
    Limited.compare_values sc frames ref_val stu_val path
    = compare_values sc ref_val stu_val path.
Proof.
  induction ref_val as [| b | n | s | items IH | entries IH] using value_ind;
    intros [| frames] stu_val path Hd; try (exfalso; lia);
    try (destruct stu_val; reflexivity).
  - (* lists *)
    destruct stu_val as [| | | | stu_items |]; try reflexivity.
    rewrite compare_values_list_eq. cbn [Limited.compare_values type_name].
    rewrite String.eqb_refl. cbn [negb]. fold (unordered path).
    rewrite Forall_forall in IH.
    assert (Hkeyed : forall inner x, frames = S inner -> In x items ->
                       forall s p, Limited.compare_values sc inner x s p
                                   = compare_values sc x s p).
    { intros inner x -> Hx s p. apply IH; [exact Hx |].
      pose proof (depth_item x items Hx). lia. }
    assert (Hpos : forall x, In x items ->
                     forall s p, Limited.compare_values sc frames x s p
                                 = compare_values sc x s p).
    { intros x Hx s p. apply IH; [exact Hx |].
      pose proof (depth_item x items Hx). lia. }
    assert (Hf : exists inner, frames = S inner).
    { destruct frames as [| inner]; [cbn [depth] in Hd; lia | eauto]. }
    destruct Hf as (inner & Hf).
    destruct (endswith path ".methods").
    { rewrite Hf. cbn [Limited.call]. apply compare_keyed_same.
      intros x Hx. apply (Hkeyed inner x Hf Hx). }
    destruct (endswith path ".fields").
    { rewrite Hf. cbn [Limited.call]. apply compare_keyed_same.
      intros x Hx. apply (Hkeyed inner x Hf Hx). }
    destruct (endswith path ".constructors").
    { rewrite Hf. cbn [Limited.call]. apply compare_keyed_same.
      intros x Hx. apply (Hkeyed inner x Hf Hx). }
    destruct (unordered path); [reflexivity |].
    cbv zeta. rewrite (zip_loop_same _ _ items Hpos). reflexivity.
  - (* dictionaries *)
    destruct stu_val as [| | | | | stu_entries]; try reflexivity.
    rewrite compare_values_dict, key_loop_eq.
    cbn [Limited.compare_values type_name]. rewrite String.eqb_refl. cbn [negb].
    rewrite Forall_forall in IH.
    rewrite (key_loop_same (Limited.compare_values sc frames) (compare_values sc)
               entries stu_entries path); [reflexivity |].
    intros kv Hkv s p. apply (IH kv Hkv).
    pose proof (depth_entry kv entries Hkv). lia.
Qed.

Lemma name_entries_items items :
  forall es, mapM name_entry items = Ok es ->
             forall k v, In (k, v) (somes es) -> In v items.
Proof.
  induction items as [| x r IH]; cbn [mapM]; intros es H k v Hin.
  - injection H as <-. destruct Hin.
  - apply bind_ok in H as (o & Ho & H). apply bind_ok in H as (os & Hos & H).
    injection H as <-.
    assert (Hx : forall kv, o = Some kv -> snd kv = x).
    { intros kv ->. destruct x as [| | | s | l | entries];
        cbn [name_entry] in Ho; try discriminate Ho.
      - destruct (String.index 0 "name" s); discriminate Ho.
      - destruct (existsb _ l); discriminate Ho.
      - destruct (dict_get String.eqb "name" entries) as [name |];
          [| discriminate Ho].
        apply bind_ok in Ho as (k0 & _ & Ho). injection Ho as <-. reflexivity. }
    destruct o as [kv |]; cbn [somes] in Hin.
    + destruct Hin as [-> | Hin]; [left; symmetry; apply (Hx _ eq_refl) |].
      right. apply (IH _ Hos k v Hin).
    + right. apply (IH _ Hos k v Hin).
Qed.

(** A class of the reference is nested less than the reference. *)
Lemma depth_class ref_data ref k r :
  normalize ref_data = Ok ref -> data_item k ref = Ok r ->
  depth r < depth ref_data.
Proof.
  destruct ref_data as [| | | s | items | entries]; cbn [normalize];
    intros Hn Hi; try (injection Hn as <-; discriminate Hi).
  - apply bind_ok in Hn as (d & Hd & Hn). injection Hn as <-.
    cbn [data_item] in Hi.
    destruct (dict_get hkey_eqb k d) as [v |] eqn:E; [| discriminate Hi].
    injection Hi as ->. apply dict_get_in in E as (k' & Hin & _).
    unfold by_name in Hd. apply bind_ok in Hd as (es & Hes & Hd).
    injection Hd as <-.
    apply dict_of_values, in_map_iff in Hin as ([k0 v0] & Hv & Hin).
    cbn [snd] in Hv. subst v0.
    apply depth_item, (name_entries_items items es Hes k0 r Hin).
  - injection Hn as <-. cbn [data_item] in Hi.
    destruct (dict_get hkey_eqb k _) as [v |] eqn:E; [| discriminate Hi].
    injection Hi as ->. apply dict_get_in in E as (k' & Hin & _).
    apply in_map_iff in Hin as (kv & Hkv & Hin). injection Hkv as _ <-.
    apply (depth_entry kv entries Hin).
Qed.

Lemma compare_uml_files_loops sc ref_data student_data :
  compare_uml_files sc ref_data student_data
  = (ref <- normalize ref_data ;;
     stu <- normalize student_data ;;
     ref_names <- data_keys ref ;;
     first <- ref_class_loop_by (compare_values sc) ref_names ref stu ;;
     stu_names <- data_keys stu ;;
     second <- stu_class_loop stu_names ref ;;
     Ok (first ++ second)%list).
Proof.
  unfold compare_uml_files.
  destruct (normalize ref_data) as [ref |]; [| reflexivity]. cbn [bind].
  destruct (normalize student_data) as [stu |]; [| reflexivity]. cbn [bind].
  destruct (data_keys ref) as [names |]; [| reflexivity]. cbn [bind].
  rewrite ref_class_loop_eq. reflexivity.
Qed.

Lemma limited_compare_uml_files_cut sc frames ref_data student_data :
  cut_short (Limited.compare_uml_files sc frames ref_data student_data)
            (compare_uml_files sc ref_data student_data).
Proof.
  rewrite compare_uml_files_loops. unfold Limited.compare_uml_files.
  apply limited_call_cut. intros inner _.
  apply cut_short_bind; [apply cut_short_refl |]. intros ref.
  apply cut_short_bind; [apply cut_short_refl |]. intros stu.
  apply cut_short_bind; [apply cut_short_refl |]. intros names.
  apply cut_short_bind;
    [apply ref_class_loop_cut, limited_compare_values_cut |].
  intros first. apply cut_short_refl.
Qed.

Lemma limited_compare_uml_files_within sc frames ref_data student_data :
  2 * depth ref_data < frames ->
  Limited.compare_uml_files sc frames ref_data student_data
  = compare_uml_files sc ref_data student_data.
Proof.
  intros Hd. rewrite compare_uml_files_loops. unfold Limited.compare_uml_files.
  destruct frames as [| inner]; [lia |]. cbn [Limited.call].
  destruct (normalize ref_data) as [ref |] eqn:En; [| reflexivity]. cbn [bind].
  destruct (normalize student_data) as [stu |]; [| reflexivity]. cbn [bind].
  destruct (data_keys ref) as [names |]; [| reflexivity]. cbn [bind].
  rewrite (ref_class_loop_same (Limited.compare_values sc inner)
             (compare_values sc) names ref stu); [reflexivity |].
  intros k r Hr s p. apply limited_compare_values_within.
  pose proof (depth_class ref_data ref k r En Hr). lia.
Qed.

Lemma nested_valid n : forall path, valid (nested n) path = true.
Proof.
  induction n as [| n IH]; intros path; [reflexivity |].
  cbn [nested]. rewrite valid_dict. cbn [distinct_keys forallb fst snd].
  rewrite IH. reflexivity.
Qed.

Lemma nested_depth n : depth (nested n) = n.
Proof.
  induction n as [| n IH]; [reflexivity |].
  cbn [nested depth map list_max fold_right snd]. rewrite IH.
  rewrite Nat.max_0_r. reflexivity.
Qed.

Lemma nested_limit sc n :
  forall frames path,
    Limited.compare_values sc frames (nested n) (nested n) path
    = if Nat.ltb n frames then Ok [] else Raise RecursionError.
Proof.
  induction n as [| n IH]; intros [| frames] path; try reflexivity.
  cbn [nested Limited.compare_values type_name]. rewrite String.eqb_refl.
  cbn [negb key_loop_by dict_get]. rewrite String.eqb_refl. rewrite IH.
  change (Nat.ltb (S n) (S frames)) with (Nat.ltb n frames).
  destruct (Nat.ltb n frames); reflexivity.
Qed.

(** C2 as stated fails: the class [foo_with_odd_field] has the shape of
    section 6, its field carries one more attribute, [implements], and
    comparing the class with itself ends in a [TypeError]
    ([None < None]) instead of the empty list. *)
Lemma reflexivity_counterexample :
  spec_class_shape foo_with_odd_field = true
  /\ compare_values Standalone foo_with_odd_field foo_with_odd_field
       "Class Foo" = Raise TypeError
  /\ compare_values Embedded foo_with_odd_field foo_with_odd_field
       "Class Foo" = Raise TypeError.
Proof.
  repeat split; reflexivity.
Qed.

(** C2, amended: a value made of [None], booleans, integers, strings,
    lists and dictionaries (no float), valid at a path and compared with
    itself at that path, gives the empty list of discrepancies when the
    interpreter admits enough further calls for its nesting.  Both
    scripts. *)
Theorem reflexivity_on_valid sc frames x path :
  valid x path = true -> enough frames x x ->
  Limited.compare_values sc frames x x path = Ok [].
Proof.
  unfold enough. intros Hv Hd.
  rewrite limited_compare_values_within by lia.
  apply compare_values_reflexive, Hv.
Qed.

Lemma reflexivity_on_valid_witness :
  valid (foo_with_field "int") "Class Foo" = true
  /\ enough 10 (foo_with_field "int") (foo_with_field "int")
  /\ Limited.compare_values Standalone 10 (foo_with_field "int")
       (foo_with_field "int") "Class Foo" = Ok [].
Proof.
  assert (He : enough 10 (foo_with_field "int") (foo_with_field "int"))
    by (vm_compute; lia).
  split; [reflexivity |]. split; [exact He |].
  apply (reflexivity_on_valid Standalone 10 (foo_with_field "int") "Class Foo"
           eq_refl He).
Defined.

(** C3 as stated fails: the two classes [foo_with_odd_method] have the
    shape of section 6, their method carries one more attribute,
    [fields], and the comparison ends in an [AttributeError] (a string
    has no [get]). *)
Lemma totality_counterexample :
  spec_class_shape (foo_with_odd_method "a") = true
  /\ spec_class_shape (foo_with_odd_method "b") = true
  /\ compare_values Standalone (foo_with_odd_method "a")
       (foo_with_odd_method "b") "Class Foo" = Raise AttributeError
  /\ compare_values Embedded (foo_with_odd_method "a")
       (foo_with_odd_method "b") "Class Foo" = Raise AttributeError.
Proof.
  repeat split; reflexivity.
Qed.

(** C3, amended: two values made of [None], booleans, integers,
    strings, lists and dictionaries (no float) that are valid at a path,
    compared at that path, give a list of discrepancies and no exception
    when the interpreter admits enough further calls for their nesting.
    Both scripts. *)
Theorem totality_on_valid sc frames ref_val stu_val path :
  valid ref_val path = true -> valid stu_val path = true ->
  enough frames ref_val stu_val ->
  exists ds, Limited.compare_values sc frames ref_val stu_val path = Ok ds.
Proof.
  unfold enough. intros Hr Hs Hd.
  rewrite limited_compare_values_within by lia.
  apply compare_values_returns; assumption.
Qed.

Lemma totality_on_valid_witness :
  valid (foo_with_field "int") "Class Foo" = true
  /\ valid (foo_with_field "long") "Class Foo" = true
  /\ enough 10 (foo_with_field "int") (foo_with_field "long")
  /\ exists ds,
      Limited.compare_values Standalone 10 (foo_with_field "int")
        (foo_with_field "long") "Class Foo" = Ok ds.
Proof.
  assert (He : enough 10 (foo_with_field "int") (foo_with_field "long"))
    by (vm_compute; lia).
  split; [reflexivity |]. split; [reflexivity |]. split; [exact He |].
  apply (totality_on_valid Standalone 10 (foo_with_field "int")
           (foo_with_field "long") "Class Foo" eq_refl eq_refl He).
Defined.

(** ** Permuting a keyed collection *)

Lemma mapM_perm {A B : Type} (f : A -> result B) (l l' : list A) :
  Permutation l l' ->
  forall l1, mapM f l = Ok l1 ->
             exists l1', mapM f l' = Ok l1' /\ Permutation l1 l1'.
Proof.
  induction 1 as [| x l l' _ IH | x y l | l l' l'' _ IH1 _ IH2];
    simpl; intros l1 H.
  - injection H as <-. eauto.
  - apply bind_ok in H as (y & Hy & H). apply bind_ok in H as (ys & Hys & H).
    injection H as <-. destruct (IH _ Hys) as (ys' & -> & HP).
    rewrite Hy. simpl. eauto.
  - apply bind_ok in H as (y' & Hy & H). apply bind_ok in H as (ys & Hys & H).
    apply bind_ok in Hys as (x' & Hx & Hys).
    apply bind_ok in Hys as (zs & Hzs & Hys).
    injection Hys as <-. injection H as <-.
    rewrite Hx, Hy, Hzs. simpl. eexists. split; [reflexivity | apply perm_swap].
  - destruct (IH1 _ H) as (l2 & H2 & HP2). destruct (IH2 _ H2) as (l3 & H3 & HP3).
    exists l3. split; [exact H3 | etransitivity; eassumption].
Qed.

Section DictPerm.
Context {K V : Type}.
Variable keqb : K -> K -> bool.
Hypothesis keqb_refl : forall a, keqb a a = true.
Hypothesis keqb_sym : forall a b, keqb a b = keqb b a.
Hypothesis keqb_trans :
  forall a b c, keqb a b = true -> keqb b c = true -> keqb a c = true.

Lemma distinct_perm (d d' : list (K * V)) :
  Permutation d d' -> distinct keqb d -> distinct keqb d'.
Proof.
  induction 1 as [| [k v] l l' HP IH | [k1 v1] [k2 v2] l | l l' l'' _ IH1 _ IH2];
    intros Hd.
  - exact Hd.
  - inversion Hd as [| ? ? ? Hk Hl]; subst. constructor; [| auto].
    intros k' v' Hin. apply (Hk k' v').
    eapply Permutation_in; [symmetry; exact HP | exact Hin].
  - inversion Hd as [| ? ? ? Hk1 Hl]; subst.
    inversion Hl as [| ? ? ? Hk2 Hl']; subst.
    constructor; [| constructor; [| exact Hl']].
    + intros k' v' [Heq | Hin].
      * injection Heq as <- <-. rewrite keqb_sym.
        apply (Hk1 k1 v1). left. reflexivity.
      * apply (Hk2 k' v' Hin).
    + intros k' v' Hin. apply (Hk1 k' v'). right. exact Hin.
  - auto.
Qed.

Lemma dict_get_perm k (d d' : list (K * V)) :
  Permutation d d' -> distinct keqb d ->
  dict_get keqb k d = dict_get keqb k d'.
Proof.
  intros HP Hd. pose proof (distinct_perm d d' HP Hd) as Hd'.
  destruct (dict_get keqb k d) as [v |] eqn:E.
  - apply dict_get_in in E as (k' & Hin & Hk). symmetry.
    apply (distinct_get_eqv keqb keqb_sym keqb_trans k k' v d' Hd'); [| exact Hk].
    eapply Permutation_in; eassumption.
  - symmetry. apply dict_get_none. intros k' v Hin.
    apply (proj1 (dict_get_none keqb k d) E k' v).
    eapply Permutation_in; [symmetry; exact HP | exact Hin].
Qed.

(** Without repeated keys the comprehension keeps every item. *)
Lemma dict_set_new k v (d : list (K * V)) :
  (forall k' v', In (k', v') d -> keqb k k' = false) ->
  dict_set keqb k v d = (d ++ [(k, v)])%list.
Proof.
  induction d as [| [k1 v1] r IH]; simpl; intros H; [reflexivity |].
  rewrite (H k1 v1) by (left; reflexivity). f_equal. apply IH.
  intros k' v' Hin. apply (H k' v'). right. exact Hin.
Qed.

Lemma distinct_app_l (d r : list (K * V)) k v :
  distinct keqb (d ++ (k, v) :: r) ->
  forall k' v', In (k', v') d -> keqb k k' = false.
Proof.
  induction d as [| [k1 v1] d IH]; simpl; intros Hd k' v' Hin; [contradiction |].
  inversion Hd as [| ? ? ? Hk1 Hrest]; subst. destruct Hin as [Heq | Hin].
  - injection Heq as <- <-. rewrite keqb_sym. apply (Hk1 k v).
    apply in_or_app. right. left. reflexivity.
  - apply (IH Hrest k' v' Hin).
Qed.

Lemma fold_store_distinct (kvs : list (K * V)) :
  forall d, distinct keqb (d ++ kvs) ->
            fold_left (dict_store keqb) kvs d = (d ++ kvs)%list.
Proof.
  induction kvs as [| [k v] r IH]; intros d Hd; simpl.
  - rewrite app_nil_r. reflexivity.
  - unfold dict_store at 2. simpl.
    rewrite (dict_set_new k v d (distinct_app_l d r k v Hd)).
    rewrite IH; rewrite <- app_assoc; [reflexivity | exact Hd].
Qed.

Lemma dict_of_distinct_id (kvs : list (K * V)) :
  distinct keqb kvs -> dict_of keqb kvs = kvs.
Proof.
  intros Hd. unfold dict_of. apply (fold_store_distinct kvs [] Hd).
Qed.
End DictPerm.

(** Filtering a permuted list permutes the filtered list. *)
Lemma filter_perm {A : Type} (keep : A -> bool) (xs ys : list A) :
  Permutation xs ys -> Permutation (filter keep xs) (filter keep ys).
Proof.
  induction 1 as [| x xs ys _ IH | x y xs | xs ys zs _ IH1 _ IH2]; simpl.
  - constructor.
  - destruct (keep x); [apply perm_skip |]; exact IH.
  - destruct (keep x), (keep y); try reflexivity. apply perm_swap.
  - etransitivity; eassumption.
Qed.

Section KeyedPerm.
Context {K : Type}.
Variable key_of : value -> result K.
Variable keqb : K -> K -> bool.
Variable missing extra : string -> K -> string.
Variable item_path : string -> K -> result string.
Variable compare : value -> differ.
Hypothesis keqb_refl : forall a, keqb a a = true.
Hypothesis keqb_sym : forall a b, keqb a b = keqb b a.
Hypothesis keqb_trans :
  forall a b c, keqb a b = true -> keqb b c = true -> keqb a c = true.

Lemma no_repeat_distinct (ks : list K) :
  no_repeat keqb ks = true ->
  forall items : list value,
    List.length items = List.length ks -> distinct keqb (combine ks items).
Proof.
  induction ks as [| k r IH]; simpl; intros H items Hlen; [constructor |].
  destruct items as [| x items]; [discriminate |]. simpl.
  apply andb_true_iff in H as (Hk & Hr). injection Hlen as Hlen.
  constructor; [| apply IH; assumption].
  intros k' v' Hin. apply in_combine_l in Hin.
  apply negb_true_iff in Hk.
  destruct (keqb k k') eqn:E; [| reflexivity].
  rewrite <- Hk. symmetry. apply existsb_exists. eauto.
Qed.

Lemma key_pairs_combine items :
  forall ks, mapM key_of items = Ok ks ->
             mapM (fun a => k <- key_of a ;; Ok (k, a)) items
             = Ok (combine ks items).
Proof.
  induction items as [| x r IH]; simpl; intros ks H.
  - injection H as <-. reflexivity.
  - apply bind_ok in H as (k & Hk & H). apply bind_ok in H as (ks' & Hks & H).
    injection H as <-. rewrite Hk, (IH _ Hks). reflexivity.
Qed.

(** Without repeated keys the dictionary is the list of the items, each
    under its key, and a permutation of the items permutes it. *)
Lemma keyed_map_perm items items' :
  Permutation items items' ->
  distinct_by key_of keqb items = true ->
  exists m m',
    keyed_map key_of keqb (fun x => x) items = Ok m
    /\ keyed_map key_of keqb (fun x => x) items' = Ok m'
    /\ Permutation m m' /\ distinct keqb m.
Proof.
  unfold distinct_by, keyed_map. intros HP Hd.
  destruct (mapM key_of items) as [ks |] eqn:Hks; [| discriminate].
  pose proof (key_pairs_combine _ _ Hks) as Hkvs.
  assert (Hdist : distinct keqb (combine ks items)).
  { apply no_repeat_distinct; [exact Hd |].
    symmetry. eapply mapM_ok_length. exact Hks. }
  destruct (mapM_perm _ _ _ HP _ Hkvs) as (kvs' & Hkvs' & HP').
  exists (combine ks items), kvs'. rewrite Hkvs, Hkvs'. simpl.
  rewrite !(dict_of_distinct_id keqb keqb_sym);
    try assumption; [auto | eapply distinct_perm; eassumption].
Qed.

Lemma keyed_loop_perm_stu ref_map stu_map stu_map' path :
  Permutation stu_map stu_map' -> distinct keqb stu_map ->
  keyed_loop_by keqb missing item_path compare ref_map stu_map path
  = keyed_loop_by keqb missing item_path compare ref_map stu_map' path.
Proof.
  intros HP Hd. induction ref_map as [| [sig m] rest IH]; simpl;
    [reflexivity |].
  rewrite IH, (dict_get_perm keqb keqb_sym keqb_trans sig _ _ HP Hd).
  reflexivity.
Qed.

Lemma keyed_loop_perm_ref ref_map ref_map' stu_map path :
  Permutation ref_map ref_map' ->
  forall ds,
    keyed_loop_by keqb missing item_path compare ref_map stu_map path = Ok ds ->
    exists ds',
      keyed_loop_by keqb missing item_path compare ref_map' stu_map path
      = Ok ds'
      /\ Permutation ds ds'.
Proof.
  induction 1 as [| [sig m] l l' _ IH | [s1 m1] [s2 m2] l | l l' l'' _ IH1 _ IH2];
    simpl; intros ds H.
  - injection H as <-. eauto.
  - apply bind_ok in H as (d & Hd & H). apply bind_ok in H as (ds0 & Hds & H).
    injection H as <-. destruct (IH _ Hds) as (ds' & -> & HP).
    rewrite Hd. simpl. eexists. split; [reflexivity |].
    apply Permutation_app_head, HP.
  - apply bind_ok in H as (d2 & Hd2 & H). apply bind_ok in H as (ds0 & Hds & H).
    apply bind_ok in Hds as (d1 & Hd1 & Hds).
    apply bind_ok in Hds as (ds1 & Hds1 & Hds).
    injection Hds as <-. injection H as <-.
    rewrite Hd1, Hd2, Hds1. simpl. eexists. split; [reflexivity |].
    rewrite !app_assoc. apply Permutation_app_tail, Permutation_app_comm.
  - destruct (IH1 _ H) as (ds2 & H2 & HP2).
    destruct (IH2 _ H2) as (ds3 & H3 & HP3).
    exists ds3. split; [exact H3 | etransitivity; eassumption].
Qed.

Lemma keyed_stu_loop_perm (ref_map ref_map' : list (K * value))
    stu_map stu_map' path :
  Permutation ref_map ref_map' -> distinct keqb ref_map ->
  Permutation stu_map stu_map' ->
  Permutation (keyed_stu_loop keqb extra ref_map stu_map path)
              (keyed_stu_loop keqb extra ref_map' stu_map' path).
Proof.
  intros HPr Hd HPs. unfold keyed_stu_loop. apply Permutation_map.
  rewrite (filter_ext _ (fun kv => negb (dict_mem keqb (fst kv) ref_map'))).
  - apply filter_perm, HPs.
  - intros kv. unfold dict_mem.
    rewrite (dict_get_perm keqb keqb_sym keqb_trans (fst kv) _ _ HPr Hd).
    reflexivity.
Qed.

(** Order independence of a keyed collection without repeated keys. *)
Lemma compare_keyed_perm ref_items ref_items' stu_items stu_items' path ds :
  Permutation ref_items ref_items' -> Permutation stu_items stu_items' ->
  distinct_by key_of keqb ref_items = true ->
  distinct_by key_of keqb stu_items = true ->
  compare_keyed_by key_of keqb missing extra item_path compare ref_items
    stu_items path = Ok ds ->
  exists ds',
    compare_keyed_by key_of keqb missing extra item_path compare ref_items'
      stu_items' path = Ok ds'
    /\ Permutation ds ds'.
Proof.
  intros HPr HPs Hdr Hds H.
  destruct (keyed_map_perm _ _ HPr Hdr) as (rm & rm' & Hrm & Hrm' & HPrm & Hd1).
  destruct (keyed_map_perm _ _ HPs Hds) as (sm & sm' & Hsm & Hsm' & HPsm & Hd2).
  unfold compare_keyed_by in *. rewrite Hrm, Hsm in H. rewrite Hrm', Hsm'.
  simpl in *.
  apply bind_ok in H as (first & Hfirst & H). injection H as <-.
  rewrite (keyed_loop_perm_stu rm sm sm' path HPsm Hd2) in Hfirst.
  destruct (keyed_loop_perm_ref rm rm' sm' path HPrm _ Hfirst)
    as (first' & -> & HPf).
  simpl. eexists. split; [reflexivity |].
  apply Permutation_app; [exact HPf |].
  apply keyed_stu_loop_perm; assumption.
Qed.
End KeyedPerm.

Lemma compare_values_methods sc ref_methods stu_methods path :
  endswith path ".methods" = true ->
  compare_values sc (VList ref_methods) (VList stu_methods) path
  = methods_by (compare_values sc) ref_methods stu_methods path.
Proof.
  intros H. rewrite compare_values_list_eq, H. reflexivity.
Qed.

(** C4 as stated fails: the student's list holds two methods with the
    key [('f', ())].  The later one wins, so the order of the two decides
    whether the return type [long] or [int] is compared with the
    reference, and the two orders give different discrepancies. *)
Lemma methods_order_counterexample :
  Permutation [method_of "f" [] "int"; method_of "f" [] "long"]
              [method_of "f" [] "long"; method_of "f" [] "int"]
  /\ compare_values Standalone (VList [method_of "f" [] "int"])
       (VList [method_of "f" [] "int"; method_of "f" [] "long"])
       "Class Foo.methods"
     = Ok ["Class Foo.methods.f().returnType - Value mismatch: expected int, got long"]
  /\ compare_values Standalone (VList [method_of "f" [] "int"])
       (VList [method_of "f" [] "long"; method_of "f" [] "int"])
       "Class Foo.methods"
     = Ok [].
Proof.
  split; [apply perm_swap |]. split; reflexivity.
Qed.

(** C4, amended: when no two methods of the reference have equal keys,
    and no two of the student, permuting either list permutes the list
    of discrepancies, so their set stays the same.  Both scripts. *)
Theorem methods_order_independent sc ref_methods ref_methods' stu_methods
    stu_methods' path ds :
  endswith path ".methods" = true ->
  Permutation ref_methods ref_methods' ->
  Permutation stu_methods stu_methods' ->
  distinct_by method_sig sig_eqb ref_methods = true ->
  distinct_by method_sig sig_eqb stu_methods = true ->
  compare_values sc (VList ref_methods) (VList stu_methods) path = Ok ds ->
  exists ds',
    compare_values sc (VList ref_methods') (VList stu_methods') path = Ok ds'
    /\ Permutation ds ds'
    /\ forall d, In d ds <-> In d ds'.
Proof.
  intros Hp HPr HPs Hdr Hds H. rewrite compare_values_methods in * by assumption.
  destruct (compare_keyed_perm method_sig sig_eqb method_missing method_extra
              method_path (compare_values sc) sig_sym sig_trans
              _ _ _ _ path ds HPr HPs Hdr Hds H) as (ds' & Hds' & HP).
  exists ds'. split; [exact Hds' |]. split; [exact HP |].
  intros d. split; apply Permutation_in; [| symmetry]; exact HP.
Qed.

Lemma methods_order_independent_witness :
  endswith "Class Foo.methods" ".methods" = true
  /\ Permutation [method_of "f" [] "int"; method_of "g" ["int"] "int"]
                 [method_of "g" ["int"] "int"; method_of "f" [] "int"]
  /\ Permutation [method_of "f" [] "long"; method_of "h" [] "int"]
                 [method_of "h" [] "int"; method_of "f" [] "long"]
  /\ distinct_by method_sig sig_eqb
       [method_of "f" [] "int"; method_of "g" ["int"] "int"] = true
  /\ distinct_by method_sig sig_eqb
       [method_of "f" [] "long"; method_of "h" [] "int"] = true
  /\ compare_values Standalone
       (VList [method_of "f" [] "int"; method_of "g" ["int"] "int"])
       (VList [method_of "f" [] "long"; method_of "h" [] "int"])
       "Class Foo.methods"
     = Ok ["Class Foo.methods.f().returnType - Value mismatch: expected int, got long";
           "Class Foo.methods - Missing method: g with params ['int']";
           "Class Foo.methods - Extra method: h with params []"]
  /\ exists ds',
      compare_values Standalone
        (VList [method_of "g" ["int"] "int"; method_of "f" [] "int"])
        (VList [method_of "h" [] "int"; method_of "f" [] "long"])
        "Class Foo.methods" = Ok ds'
      /\ Permutation
           ["Class Foo.methods.f().returnType - Value mismatch: expected int, got long";
            "Class Foo.methods - Missing method: g with params ['int']";
            "Class Foo.methods - Extra method: h with params []"] ds'
      /\ forall d,
          In d ["Class Foo.methods.f().returnType - Value mismatch: expected int, got long";
                "Class Foo.methods - Missing method: g with params ['int']";
                "Class Foo.methods - Extra method: h with params []"]
          <-> In d ds'.
Proof.
  split; [reflexivity |]. split; [apply perm_swap |].
  split; [apply perm_swap |]. split; [reflexivity |]. split; [reflexivity |].
  split; [reflexivity |].
  apply (methods_order_independent Standalone
           [method_of "f" [] "int"; method_of "g" ["int"] "int"]
           [method_of "g" ["int"] "int"; method_of "f" [] "int"]
           [method_of "f" [] "long"; method_of "h" [] "int"]
           [method_of "h" [] "int"; method_of "f" [] "long"]
           "Class Foo.methods");
    try reflexivity; apply perm_swap.
Defined.

(** ** Entries without the attribute of their key *)





Section KeyedReport.
Context {K : Type}.
Variable key_of : value -> result K.
Variable keqb : K -> K -> bool.
Variable strs : K -> bool.
Variable missing extra : string -> K -> string.
Variable item_path : string -> K -> result string.
Variable compare : value -> differ.
Hypothesis keqb_refl : forall a, keqb a a = true.
Hypothesis keqb_sym : forall a b, keqb a b = keqb b a.
Hypothesis keqb_trans :
  forall a b c, keqb a b = true -> keqb b c = true -> keqb a c = true.
Hypothesis strs_eq : forall a b, strs a = true -> keqb a b = true -> a = b.






End KeyedReport.




(** ** Corpora *)

Section DictKeyMap.
Context {K K' V : Type}.
Variable keqb : K -> K -> bool.
Variable keqb' : K' -> K' -> bool.
Variable f : K -> K'.
Hypothesis keqb_f : forall a b, keqb' (f a) (f b) = keqb a b.

Lemma dict_get_on_key k (d : list (K * V)) :
  dict_get keqb' (f k) (map (on_key f) d) = dict_get keqb k d.
Proof.
  induction d as [| [k1 v1] r IH]; simpl; [reflexivity |].
  rewrite keqb_f, IH. reflexivity.
Qed.

Lemma dict_mem_on_key k (d : list (K * V)) :
  dict_mem keqb' (f k) (map (on_key f) d) = dict_mem keqb k d.
Proof. unfold dict_mem. rewrite dict_get_on_key. reflexivity. Qed.

Lemma dict_set_on_key k v (d : list (K * V)) :
  dict_set keqb' (f k) v (map (on_key f) d) = map (on_key f) (dict_set keqb k v d).
Proof.
  induction d as [| [k1 v1] r IH]; simpl; [reflexivity |].
  rewrite keqb_f. destruct (keqb k k1); simpl; [reflexivity |].
  rewrite IH. reflexivity.
Qed.

Lemma dict_of_on_key (kvs : list (K * V)) :
  dict_of keqb' (map (on_key f) kvs) = map (on_key f) (dict_of keqb kvs).
Proof.
  unfold dict_of. change (@nil (K' * V)) with (map (@on_key K K' V f) []).
  generalize (@nil (K * V)) as d.
  induction kvs as [| [k v] r IH]; intros d; simpl; [reflexivity |].
  unfold dict_store at 2 4. simpl. rewrite dict_set_on_key. apply IH.
Qed.
End DictKeyMap.

Lemma hkey_eqb_HStr a b : hkey_eqb (HStr a) (HStr b) = String.eqb a b.
Proof. reflexivity. Qed.

(** A list of class entries becomes the corpus of the specification. *)
Lemma by_name_keyed items :
  forallb class_entry items = true ->
  by_name items = Ok (string_keys (name_keyed items)).
Proof.
  intros H. unfold by_name.
  assert (Hm : exists es, mapM name_entry items = Ok es
                          /\ somes es = map (on_key HStr) (named items)).
  { induction items as [| x r IH]; simpl in *; [exists []; auto |].
    apply andb_true_iff in H as (Hx & Hr).
    destruct (IH Hr) as (es & Hes & Hs). rewrite Hes.
    destruct x as [| | | | | e]; try discriminate. simpl in *.
    destruct (dict_get String.eqb "name" e) as [[| | | n | |] |];
      try discriminate; simpl.
    - eexists. split; [reflexivity |]. simpl. rewrite Hs. reflexivity.
    - eexists. split; [reflexivity |]. simpl. exact Hs. }
  destruct Hm as (es & Hes & Hs). rewrite Hes. cbn [bind]. rewrite Hs.
  unfold string_keys, name_keyed.
  rewrite (dict_of_on_key String.eqb hkey_eqb HStr hkey_eqb_HStr). reflexivity.
Qed.

Lemma normalize_list items :
  forallb class_entry items = true ->
  normalize (VList items) = normalize (VDict (name_keyed items)).
Proof.
  intros H. simpl. rewrite (by_name_keyed items H). reflexivity.
Qed.




Lemma ref_class_loop_total sc names ref stu :
  (forall k, In k names -> dict_mem hkey_eqb k ref = true) ->
  (forall k r s, In k names ->
                 dict_get hkey_eqb k ref = Some r ->
                 dict_get hkey_eqb k stu = Some s ->
                 exists dc, compare_values sc r s ("Class " ++ hkey_str k) = Ok dc) ->
  exists ds, ref_class_loop sc names (Classes ref) (Classes stu) = Ok ds.
Proof.
  induction names as [| n rest IH]; intros Hmem Hall; [simpl; eauto |].
  cbn [ref_class_loop data_mem data_item bind].
  destruct IH as (ds & ->);
    [intros k Hk; apply Hmem; right; exact Hk
    | intros k r s Hk; apply Hall; right; exact Hk |].
  pose proof (Hmem n (or_introl eq_refl)) as Hn. unfold dict_mem in *.
  destruct (dict_get hkey_eqb n stu) as [s |] eqn:Hs; cbn [negb bind];
    [| eauto].
  destruct (dict_get hkey_eqb n ref) as [r |] eqn:Hr; [| discriminate].
  cbn [bind].
  destruct (Hall n r s (or_introl eq_refl) Hr Hs) as (dc & ->). cbn [bind].
  eauto.
Qed.

Lemma stu_class_loop_spec names ref :
  exists ds,
    stu_class_loop names (Classes ref) = Ok ds
    /\ forall k, In k names -> dict_mem hkey_eqb k ref = false ->
                 In (extra_class k) ds.
Proof.
  induction names as [| n rest (ds & Hds & IH)];
    cbn [stu_class_loop data_mem bind].
  - exists []. split; [reflexivity | intros ? []].
  - rewrite Hds. cbn [bind]. eexists. split; [reflexivity |].
    intros k [-> | Hin] Hk.
    + rewrite Hk. left. reflexivity.
    + apply in_or_app. right. auto.
Qed.

Lemma in_keys_mem {V : Type} n (d : list (string * V)) :
  In n (map fst d) -> dict_mem String.eqb n d = true.
Proof.
  unfold dict_mem. induction d as [| [k v] r IH]; simpl; [contradiction |].
  intros [-> | Hin].
  - rewrite String.eqb_refl. reflexivity.
  - destruct (String.eqb n k); [reflexivity | auto].
Qed.

Lemma mem_in_keys {V : Type} n (d : list (string * V)) :
  dict_mem String.eqb n d = true -> In n (map fst d).
Proof.
  unfold dict_mem. induction d as [| [k v] r IH]; simpl; [discriminate |].
  destruct (String.eqb_spec n k) as [-> | _]; auto.
Qed.




(** ** Where a discrepancy points *)

Lemma startswith_app p r : startswith (p ++ r) p = true.
Proof.
  induction p as [| c p IH]; simpl; [destruct r; reflexivity |].
  rewrite Ascii.eqb_refl. exact IH.
Qed.

Lemma startswith_trans d p q :
  startswith d p = true -> startswith p q = true -> startswith d q = true.
Proof.
  revert d p. induction q as [| c q IH]; intros d p;
    [intros _ _; destruct d; reflexivity |].
  destruct p as [| c1 p]; simpl; [discriminate |].
  destruct d as [| c2 d]; simpl; [discriminate |].
  rewrite !andb_true_iff. intros (H1 & H2) (H3 & H4).
  apply Ascii.eqb_eq in H1, H3. subst. rewrite Ascii.eqb_refl.
  split; [reflexivity | eauto].
Qed.

Lemma startswith_under d path rest :
  startswith d (path ++ rest) = true -> startswith d path = true.
Proof.
  intros H. apply (startswith_trans d _ path H), startswith_app.
Qed.

Lemma under_app path a b : under path a -> under path b -> under path (a ++ b).
Proof. intros Ha Hb. apply Forall_app. auto. Qed.

Lemma under_deeper path rest ds : under (path ++ rest) ds -> under path ds.
Proof.
  intros H. eapply Forall_impl; [| exact H].
  intros d. apply startswith_under.
Qed.

Section KeyedUnder.
Context {K : Type}.
Variable key_of : value -> result K.
Variable keqb : K -> K -> bool.
Variable missing extra : string -> K -> string.
Variable item_path : string -> K -> result string.
Variable sc : script.
Hypothesis missing_under : forall path k, startswith (missing path k) path = true.
Hypothesis extra_under : forall path k, startswith (extra path k) path = true.
Hypothesis path_under :
  forall path k p, item_path path k = Ok p -> startswith p path = true.

Lemma keyed_loop_under ref_map stu_map path :
  (forall k m, In (k, m) ref_map -> addressed sc m) ->
  forall ds,
    keyed_loop_by keqb missing item_path (compare_values sc) ref_map stu_map
      path = Ok ds ->
    under path ds.
Proof.
  induction ref_map as [| [sig m] rest IH]; simpl; intros Hall ds H.
  - injection H as <-. constructor.
  - apply bind_ok in H as (d & Hd & H). apply bind_ok in H as (ds' & Hds & H).
    injection H as <-. apply under_app.
    + destruct (dict_get keqb sig stu_map) as [stu_item |].
      * apply bind_ok in Hd as (p & Hp & Hd).
        apply (Hall sig m (or_introl eq_refl)) in Hd.
        eapply Forall_impl; [| exact Hd]. intros x Hx.
        apply (startswith_trans x p path Hx), (path_under _ _ _ Hp).
      * injection Hd as <-. constructor; [apply missing_under | constructor].
    + apply IH; [| exact Hds]. intros k m' Hin. apply (Hall k m'). right. exact Hin.
Qed.

Lemma compare_keyed_under ref_items stu_items path ds :
  Forall (addressed sc) ref_items ->
  compare_keyed_by key_of keqb missing extra item_path (compare_values sc)
    ref_items stu_items path = Ok ds ->
  under path ds.
Proof.
  unfold compare_keyed_by. intros Hall H.
  apply bind_ok in H as (rm & Hrm & H). apply bind_ok in H as (sm & Hsm & H).
  apply bind_ok in H as (first & Hfirst & H). injection H as <-.
  apply under_app.
  - apply (keyed_loop_under rm sm path); [| exact Hfirst].
    intros k m Hin. rewrite Forall_forall in Hall.
    apply Hall. eapply keyed_map_values; eassumption.
  - unfold keyed_stu_loop. apply Forall_forall. intros d Hd.
    apply in_map_iff in Hd as (kv & <- & _). apply extra_under.
Qed.
End KeyedUnder.

Lemma key_loop_under sc ref_entries stu_entries path :
  Forall (fun kv => addressed sc (snd kv)) ref_entries ->
  forall ds, key_loop sc ref_entries stu_entries path = Ok ds -> under path ds.
Proof.
  induction 1 as [| [key ref_item] rest Hx _ IH]; simpl; intros ds H.
  - injection H as <-. constructor.
  - apply bind_ok in H as (d & Hd & H). apply bind_ok in H as (ds' & Hds & H).
    injection H as <-. apply under_app; [| auto].
    destruct (dict_get String.eqb key stu_entries) as [stu_item |].
    + apply Hx in Hd. apply (under_deeper _ _ _ Hd).
    + injection Hd as <-. constructor; [apply startswith_app | constructor].
Qed.

Lemma zip_loop_under sc ref_items :
  Forall (addressed sc) ref_items ->
  forall stu_items i path ds,
    zip_loop_by (compare_values sc) ref_items stu_items i path = Ok ds ->
    under path ds.
Proof.
  induction 1 as [| x r Hx _ IH]; intros [| s t] i path ds; simpl;
    try (intros H; injection H as <-; constructor).
  intros H.
  apply bind_ok in H as (d & Hd & H). apply bind_ok in H as (ds' & Hds & H).
  injection H as <-. apply under_app; [| eauto].
  apply Hx in Hd. apply (under_deeper _ _ _ Hd).
Qed.

Lemma method_path_under path k p :
  method_path path k = Ok p -> startswith p path = true.
Proof.
  unfold method_path. intros H. apply bind_ok in H as (ps & _ & H).
  injection H as <-. apply startswith_app.
Qed.

Lemma field_path_under path k p :
  field_path path k = Ok p -> startswith p path = true.
Proof.
  unfold field_path. intros H. injection H as <-. apply startswith_app.
Qed.

Lemma constructor_path_under path k p :
  constructor_path path k = Ok p -> startswith p path = true.
Proof.
  unfold constructor_path. intros H. apply bind_ok in H as (ps & _ & H).
  injection H as <-. apply startswith_app.
Qed.

Lemma scalar_addressed sc ref_val : scalar ref_val = true -> addressed sc ref_val.
Proof.
  intros Hs stu_val path ds H.
  destruct (string_dec (type_name ref_val) (type_name stu_val)) as [E | E].
  - rewrite compare_values_scalar in H by assumption.
    destruct (negb (py_eq ref_val stu_val)); injection H as <-;
      constructor; [apply startswith_app | constructor].
  - rewrite compare_values_mismatch in H by assumption. injection H as <-.
    constructor; [apply startswith_app | constructor].
Qed.

Lemma compare_values_addressed sc ref_val : addressed sc ref_val.
Proof.
  induction ref_val as [| b | n | s | items IH | entries IH] using value_ind;
    try (apply scalar_addressed; reflexivity);
    intros stu_val path ds H.
  - (* lists *)
    destruct stu_val as [| | | | stu_items |];
      try (rewrite compare_values_mismatch in H by discriminate;
           injection H as <-; constructor; [apply startswith_app | constructor]).
    rewrite compare_values_list_eq in H.
    destruct (endswith path ".methods").
    { refine (compare_keyed_under method_sig sig_eqb method_missing method_extra
               method_path sc _ _ method_path_under _ _ _ _ IH H);
        intros; apply startswith_app. }
    destruct (endswith path ".fields").
    { refine (compare_keyed_under name_key hkey_eqb field_missing field_extra
               field_path sc _ _ field_path_under _ _ _ _ IH H);
        intros; apply startswith_app. }
    destruct (endswith path ".constructors").
    { refine (compare_keyed_under params_key tuple_eqb constructor_missing constructor_extra
               constructor_path sc _ _ constructor_path_under _ _ _ _ IH H);
        intros; apply startswith_app. }
    destruct (unordered path).
    { apply bind_ok in H as (rs & _ & H). apply bind_ok in H as (ss & _ & H).
      destruct (negb _); injection H as <-;
        constructor; [apply startswith_app | constructor]. }
    cbv zeta in H.
    destruct sc.
    + apply bind_ok in H as (zs & Hz & H). injection H as <-.
      apply under_app; [| apply (zip_loop_under _ items IH _ _ _ _ Hz)].
      destruct (negb _); constructor; [apply startswith_app | constructor].
    + destruct (negb _).
      * injection H as <-. constructor; [apply startswith_app | constructor].
      * apply (zip_loop_under _ items IH _ _ _ _ H).
  - (* dictionaries *)
    destruct stu_val as [| | | | | stu_entries];
      try (rewrite compare_values_mismatch in H by discriminate;
           injection H as <-; constructor; [apply startswith_app | constructor]).
    rewrite compare_values_dict in H.
    apply bind_ok in H as (first & Hfirst & H). injection H as <-.
    apply under_app; [apply (key_loop_under sc entries stu_entries path IH _ Hfirst) |].
    unfold extra_keys. apply Forall_forall. intros d Hd.
    apply in_map_iff in Hd as (kv & <- & _). apply startswith_app.
Qed.

Lemma compare_uml_files_corpora sc ref_data student_data :
  compare_uml_files sc ref_data student_data
  = (ref <- normalize ref_data ;;
     stu <- normalize student_data ;;
     compare_corpora sc ref stu).
Proof. reflexivity. Qed.

Lemma ref_class_loop_lines sc names ref stu :
  forall ds,
    ref_class_loop sc names ref stu = Ok ds -> Forall corpus_line ds.
Proof.
  induction names as [| k rest IH]; cbn [ref_class_loop]; intros ds H.
  - injection H as <-. constructor.
  - apply bind_ok in H as (present & _ & H). apply bind_ok in H as (d & Hd & H).
    apply bind_ok in H as (ds' & Hds & H). injection H as <-.
    apply Forall_app. split; [| auto].
    destruct (negb present).
    + injection Hd as <-. constructor; [| constructor]. left. eauto.
    + apply bind_ok in Hd as (rc & _ & Hd). apply bind_ok in Hd as (sc' & _ & Hd).
      apply compare_values_addressed in Hd.
      eapply Forall_impl; [| exact Hd]. intros x Hx. right. right. exists k. exact Hx.
Qed.

Lemma stu_class_loop_lines names ref :
  forall ds, stu_class_loop names ref = Ok ds -> Forall corpus_line ds.
Proof.
  induction names as [| k rest IH]; simpl; intros ds H.
  - injection H as <-. constructor.
  - apply bind_ok in H as (present & _ & H).
    apply bind_ok in H as (ds' & Hds & H). injection H as <-.
    apply Forall_app. split; [| auto].
    destruct (negb present); constructor; [| constructor]. right. left. eauto.
Qed.

Lemma compare_corpora_lines sc ref stu ds :
  compare_corpora sc ref stu = Ok ds -> Forall corpus_line ds.
Proof.
  unfold compare_corpora. intros H.
  apply bind_ok in H as (rn & _ & H). apply bind_ok in H as (first & Hf & H).
  apply bind_ok in H as (sn & _ & H). apply bind_ok in H as (second & Hs & H).
  injection H as <-. apply Forall_app. split.
  - apply (ref_class_loop_lines _ _ _ _ _ Hf).
  - apply (stu_class_loop_lines _ _ _ Hs).
Qed.

(** X1: every discrepancy returned by [compare_values] begins with the
    path at which the two values were compared, and every line returned
    by [compare_uml_files] is a ["Missing class: ..."], an
    ["Extra class: ..."], or begins with ["Class <name>"].  Both
    scripts. *)
Theorem discrepancies_addressed sc :
  (forall ref_val stu_val path ds,
      compare_values sc ref_val stu_val path = Ok ds ->
      forall d, In d ds -> startswith d path = true)
  /\ (forall ref_data student_data ds,
         compare_uml_files sc ref_data student_data = Ok ds ->
         forall d, In d ds -> corpus_line d).
Proof.
  split.
  - intros ref_val stu_val path ds H.
    apply Forall_forall. exact (compare_values_addressed sc ref_val _ _ _ H).
  - intros ref_data student_data ds H. apply Forall_forall.
    rewrite compare_uml_files_corpora in H.
    apply bind_ok in H as (ref & _ & H). apply bind_ok in H as (stu & _ & H).
    exact (compare_corpora_lines _ _ _ _ H).
Qed.

Lemma discrepancies_addressed_witness :
  compare_values Standalone (foo_with_field "int") (foo_with_field "long")
    "Class Foo"
  = Ok ["Class Foo.fields.x.type - Value mismatch: expected int, got long"]
  /\ startswith
       "Class Foo.fields.x.type - Value mismatch: expected int, got long"
       "Class Foo" = true.
Proof.
  split; [reflexivity |].
  apply (proj1 (discrepancies_addressed Standalone) (foo_with_field "int")
           (foo_with_field "long") "Class Foo"
           ["Class Foo.fields.x.type - Value mismatch: expected int, got long"]
           eq_refl).
  left. reflexivity.
Defined.

(** ** When nothing is reported *)

Lemma key_loop_pass sc ref_entries stu_entries path :
  key_loop sc ref_entries stu_entries path = Ok []
  <-> forall key ref_item,
        In (key, ref_item) ref_entries ->
        exists stu_item,
          dict_get String.eqb key stu_entries = Some stu_item
          /\ compare_values sc ref_item stu_item (path ++ "." ++ key) = Ok [].
Proof.
  induction ref_entries as [| [k v] rest IH]; cbn [key_loop].
  - split; [intros _ ? ? [] | reflexivity].
  - split.
    + intros H. apply bind_ok in H as (d & Hd & H).
      apply bind_ok in H as (ds & Hds & H). injection H as H.
      apply app_eq_nil in H as (-> & ->).
      intros key ref_item [Heq | Hin].
      * injection Heq as <- <-.
        destruct (dict_get String.eqb k stu_entries) as [stu_item |];
          [eauto | discriminate Hd].
      * apply (proj1 IH Hds), Hin.
    + intros H.
      destruct (H k v (or_introl eq_refl)) as (stu_item & -> & ->).
      rewrite (proj2 IH); [reflexivity |].
      intros key ref_item Hin. apply H. right. exact Hin.
Qed.

Lemma extra_keys_pass ref_entries stu_entries path :
  extra_keys ref_entries stu_entries path = []
  <-> forall key,
        dict_mem String.eqb key stu_entries = true ->
        dict_mem String.eqb key ref_entries = true.
Proof.
  unfold extra_keys. split.
  - intros H key Hk. apply mem_in_keys in Hk.
    apply in_map_iff in Hk as (kv & <- & Hin).
    destruct (dict_mem String.eqb (fst kv) ref_entries) eqn:E; [reflexivity |].
    apply map_eq_nil in H.
    assert (Hf : In kv (filter (fun kv => negb (dict_mem String.eqb (fst kv)
                                                  ref_entries)) stu_entries))
      by (apply filter_In; rewrite E; auto).
    rewrite H in Hf. contradiction.
  - intros H. rewrite filter_none; [reflexivity |].
    intros kv Hin. rewrite H; [reflexivity |].
    apply in_keys_mem, in_map, Hin.
Qed.

Lemma compare_dict_pass sc ref_entries stu_entries path :
  compare_values sc (VDict ref_entries) (VDict stu_entries) path = Ok []
  <-> (forall key ref_item,
          In (key, ref_item) ref_entries ->
          exists stu_item,
            dict_get String.eqb key stu_entries = Some stu_item
            /\ compare_values sc ref_item stu_item (path ++ "." ++ key) = Ok [])
      /\ (forall key,
             dict_mem String.eqb key stu_entries = true ->
             dict_mem String.eqb key ref_entries = true).
Proof.
  rewrite compare_values_dict, <- key_loop_pass, <- (extra_keys_pass _ _ path).
  split.
  - intros H. apply bind_ok in H as (first & Hf & H). injection H as H.
    apply app_eq_nil in H as (-> & H). auto.
  - intros (-> & H). cbn [bind]. rewrite H. reflexivity.
Qed.

(** X2: two mappings compare without a discrepancy exactly when every
    key of the reference is in the student's mapping with a value that
    compares without a discrepancy at [path.key], and the student's
    mapping has no key that the reference lacks.  Both scripts. *)
Theorem mapping_pass sc ref_entries stu_entries path :
  compare_values sc (VDict ref_entries) (VDict stu_entries) path = Ok []
  <-> (forall key ref_item,
          In (key, ref_item) ref_entries ->
          exists stu_item,
            dict_get String.eqb key stu_entries = Some stu_item
            /\ compare_values sc ref_item stu_item (path ++ "." ++ key) = Ok [])
      /\ (forall key,
             dict_mem String.eqb key stu_entries = true ->
             dict_mem String.eqb key ref_entries = true).
Proof.
  apply compare_dict_pass.
Qed.

Lemma zip_loop_pass sc ref_items :
  forall stu_items i path,
    zip_loop_by (compare_values sc) ref_items stu_items i path = Ok []
    <-> forall j ref_item stu_item,
          nth_error ref_items j = Some ref_item ->
          nth_error stu_items j = Some stu_item ->
          compare_values sc ref_item stu_item
            (path ++ "[" ++ str_of_nat (i + j) ++ "]") = Ok [].
Proof.
  induction ref_items as [| x r IH]; intros [| s t] i path;
    cbn [zip_loop_by].
  - split; [intros _ [| j] ? ? H; discriminate H | reflexivity].
  - split; [intros _ [| j] ? ? H; discriminate H | reflexivity].
  - split; [intros _ [| j] ? ? _ H; discriminate H | reflexivity].
  - split.
    + intros H. apply bind_ok in H as (d & Hd & H).
      apply bind_ok in H as (ds & Hds & H). injection H as H.
      apply app_eq_nil in H as (-> & ->).
      intros [| j] ref_item stu_item; simpl.
      * intros Hr Hs. injection Hr as <-. injection Hs as <-.
        rewrite Nat.add_0_r. exact Hd.
      * intros Hr Hs. rewrite Nat.add_succ_r.
        apply (proj1 (IH t (S i) path) Hds j); assumption.
    + intros H. pose proof (H 0 x s eq_refl eq_refl) as H0.
      rewrite Nat.add_0_r in H0. rewrite H0. cbn [bind].
      rewrite (proj2 (IH t (S i) path)); [reflexivity |].
      intros j ref_item stu_item Hr Hs.
      specialize (H (S j) ref_item stu_item Hr Hs).
      rewrite Nat.add_succ_r in H. exact H.
Qed.

Lemma compare_sequence_pass sc ref_items stu_items path :
  positional path = true ->
  compare_values sc (VList ref_items) (VList stu_items) path = Ok []
  <-> List.length ref_items = List.length stu_items
      /\ forall j ref_item stu_item,
           nth_error ref_items j = Some ref_item ->
           nth_error stu_items j = Some stu_item ->
           compare_values sc ref_item stu_item
             (path ++ "[" ++ str_of_nat j ++ "]") = Ok [].
Proof.
  intros Hp. rewrite compare_values_list_eq.
  apply positional_branch in Hp as (-> & -> & -> & Hu).
  unfold unordered. rewrite Hu. cbv zeta.
  pose proof (zip_loop_pass sc ref_items stu_items 0 path) as Hz.
  cbn [Nat.add] in Hz. rewrite <- Hz.
  destruct (Nat.eqb_spec (List.length ref_items) (List.length stu_items))
    as [E | E]; cbn [negb].
  - destruct sc.
    + split.
      * intros H. apply bind_ok in H as (ds & Hds & H).
        injection H as H. cbn [app] in H. subst ds. auto.
      * intros (_ & ->). reflexivity.
    + tauto.
  - destruct sc.
    + split; [| tauto]. intros H. apply bind_ok in H as (ds & _ & H).
      discriminate H.
    + split; [discriminate | tauto].
Qed.

(** X3: at a path that ends in none of the five attribute names, two
    sequences compare without a discrepancy exactly when they have the
    same length and every pair of elements at one index [j] compares
    without a discrepancy at [path[j]].  Both scripts. *)
Theorem sequence_pass sc ref_items stu_items path :
  positional path = true ->
  compare_values sc (VList ref_items) (VList stu_items) path = Ok []
  <-> List.length ref_items = List.length stu_items
      /\ forall j ref_item stu_item,
           nth_error ref_items j = Some ref_item ->
           nth_error stu_items j = Some stu_item ->
           compare_values sc ref_item stu_item
             (path ++ "[" ++ str_of_nat j ++ "]") = Ok [].
Proof.
  apply compare_sequence_pass.
Qed.

Lemma sequence_pass_witness :
  positional "Class Foo.tags" = true
  /\ compare_values Embedded (VList [VStr "a"; VInt 1])
       (VList [VStr "a"; VInt 1]) "Class Foo.tags" = Ok [].
Proof.
  split; [reflexivity |].
  apply (proj2 (sequence_pass Embedded [VStr "a"; VInt 1] [VStr "a"; VInt 1]
                  "Class Foo.tags" eq_refl)).
  split; [reflexivity |].
  intros [| [| j]] ref_item stu_item Hr Hs; simpl in Hr, Hs;
    try (injection Hr as <-; injection Hs as <-; reflexivity).
  destruct j; discriminate Hr.
Defined.

(** ** The generated script follows the stand-alone one *)

Lemma condensed_refl ds : condensed ds ds.
Proof. split; [tauto | lia]. Qed.

Lemma condensed_app a a' b b' :
  condensed a a' -> condensed b b' -> condensed (a ++ b) (a' ++ b').
Proof.
  intros (Ha & Hla) (Hb & Hlb). split.
  - split; intros H; apply app_eq_nil in H as (H1 & H2);
      [apply Ha in H1; apply Hb in H2 | apply Ha in H1; apply Hb in H2];
      subst; reflexivity.
  - rewrite !length_app. lia.
Qed.

Lemma key_loop_follows ref_entries stu_entries path :
  Forall (fun kv => follows (snd kv)) ref_entries ->
  forall ds,
    key_loop Standalone ref_entries stu_entries path = Ok ds ->
    exists ds',
      key_loop Embedded ref_entries stu_entries path = Ok ds'
      /\ condensed ds ds'.
Proof.
  induction 1 as [| [key ref_item] rest Hx _ IH]; cbn [key_loop]; intros ds H.
  - injection H as <-. exists []. split; [reflexivity | apply condensed_refl].
  - apply bind_ok in H as (d & Hd & H). apply bind_ok in H as (ds1 & Hds & H).
    injection H as <-. destruct (IH _ Hds) as (ds1' & -> & Hc1).
    cbn [snd] in Hx.
    destruct (dict_get String.eqb key stu_entries) as [stu_item |].
    + destruct (Hx _ _ _ Hd) as (d' & -> & Hc). cbn [bind].
      eexists. split; [reflexivity | apply condensed_app; assumption].
    + rewrite Hd. cbn [bind].
      eexists. split; [reflexivity |].
      apply condensed_app; [apply condensed_refl | assumption].
Qed.

Lemma zip_loop_follows ref_items :
  Forall follows ref_items ->
  forall stu_items i path ds,
    zip_loop_by (compare_values Standalone) ref_items stu_items i path = Ok ds ->
    exists ds',
      zip_loop_by (compare_values Embedded) ref_items stu_items i path = Ok ds'
      /\ condensed ds ds'.
Proof.
  induction 1 as [| x r Hx _ IH]; intros [| s t] i path ds; cbn [zip_loop_by];
    try (intros H; injection H as <-; exists []; split;
         [reflexivity | apply condensed_refl]).
  intros H.
  apply bind_ok in H as (d & Hd & H). apply bind_ok in H as (ds1 & Hds & H).
  injection H as <-.
  destruct (Hx _ _ _ Hd) as (d' & -> & Hc).
  destruct (IH _ _ _ _ Hds) as (ds1' & -> & Hc1). cbn [bind].
  eexists. split; [reflexivity | apply condensed_app; assumption].
Qed.

Section KeyedFollows.
Context {K : Type}.
Variable key_of : value -> result K.
Variable keqb : K -> K -> bool.
Variable missing extra : string -> K -> string.
Variable item_path : string -> K -> result string.

Lemma keyed_loop_follows ref_map stu_map path :
  (forall k m, In (k, m) ref_map -> follows m) ->
  forall ds,
    keyed_loop_by keqb missing item_path (compare_values Standalone) ref_map
      stu_map path = Ok ds ->
    exists ds',
      keyed_loop_by keqb missing item_path (compare_values Embedded) ref_map
        stu_map path = Ok ds'
      /\ condensed ds ds'.
Proof.
  induction ref_map as [| [sig m] rest IH]; cbn [keyed_loop_by];
    intros Hall ds H.
  - injection H as <-. exists []. split; [reflexivity | apply condensed_refl].
  - apply bind_ok in H as (d & Hd & H). apply bind_ok in H as (ds1 & Hds & H).
    injection H as <-.
    destruct (IH (fun k m' Hin => Hall k m' (or_intror Hin)) _ Hds)
      as (ds1' & -> & Hc1).
    destruct (dict_get keqb sig stu_map) as [stu_item |].
    + apply bind_ok in Hd as (p & Hp & Hd). rewrite Hp. cbn [bind].
      destruct (Hall sig m (or_introl eq_refl) _ _ _ Hd) as (d' & -> & Hc).
      cbn [bind].
      eexists. split; [reflexivity | apply condensed_app; assumption].
    + rewrite Hd. cbn [bind]. eexists. split; [reflexivity |].
      apply condensed_app; [apply condensed_refl | assumption].
Qed.

Lemma compare_keyed_follows ref_items stu_items path ds :
  Forall follows ref_items ->
  compare_keyed_by key_of keqb missing extra item_path
    (compare_values Standalone) ref_items stu_items path = Ok ds ->
  exists ds',
    compare_keyed_by key_of keqb missing extra item_path
      (compare_values Embedded) ref_items stu_items path = Ok ds'
    /\ condensed ds ds'.
Proof.
  unfold compare_keyed_by. intros Hall H.
  apply bind_ok in H as (rm & Hrm & H). apply bind_ok in H as (sm & Hsm & H).
  apply bind_ok in H as (first & Hfirst & H). injection H as <-.
  rewrite Hrm, Hsm. cbn [bind].
  destruct (keyed_loop_follows rm sm path) with (ds := first)
    as (first' & -> & Hc); [| exact Hfirst |].
  - intros k m Hin. rewrite Forall_forall in Hall.
    apply Hall. eapply keyed_map_values; eassumption.
  - cbn [bind]. eexists. split; [reflexivity |].
    apply condensed_app; [assumption | apply condensed_refl].
Qed.
End KeyedFollows.

Lemma compare_values_follows ref_val : follows ref_val.
Proof.
  induction ref_val as [| b | n | s | items IH | entries IH] using value_ind;
    intros stu_val path ds H;
    try (exists ds; split; [destruct stu_val; exact H | apply condensed_refl]).
  - (* lists *)
    destruct stu_val as [| | | | stu_items |];
      try (exists ds; split; [exact H | apply condensed_refl]).
    rewrite compare_values_list_eq in *.
    destruct (endswith path ".methods");
      [eapply compare_keyed_follows; eassumption |].
    destruct (endswith path ".fields");
      [eapply compare_keyed_follows; eassumption |].
    destruct (endswith path ".constructors");
      [eapply compare_keyed_follows; eassumption |].
    destruct (unordered path);
      [exists ds; split; [exact H | apply condensed_refl] |].
    cbv zeta in *.
    apply bind_ok in H as (zs & Hz & H). injection H as <-.
    destruct (negb (Nat.eqb (List.length items) (List.length stu_items))).
    + eexists. split; [reflexivity |]. split.
      * split; discriminate.
      * simpl. lia.
    + destruct (zip_loop_follows items IH _ _ _ _ Hz) as (zs' & Hz' & Hc).
      exists zs'. split; [exact Hz' | exact Hc].
  - (* dictionaries *)
    destruct stu_val as [| | | | | stu_entries];
      try (exists ds; split; [exact H | apply condensed_refl]).
    rewrite compare_values_dict in *.
    apply bind_ok in H as (first & Hfirst & H). injection H as <-.
    destruct (key_loop_follows entries stu_entries path IH _ Hfirst)
      as (first' & -> & Hc).
    cbn [bind]. eexists. split; [reflexivity |].
    apply condensed_app; [assumption | apply condensed_refl].
Qed.

Lemma ref_class_loop_follows names ref stu :
  forall ds,
    ref_class_loop Standalone names ref stu = Ok ds ->
    exists ds',
      ref_class_loop Embedded names ref stu = Ok ds' /\ condensed ds ds'.
Proof.
  induction names as [| class_name rest IH]; cbn [ref_class_loop]; intros ds H.
  - injection H as <-. exists []. split; [reflexivity | apply condensed_refl].
  - apply bind_ok in H as (present & Hp & H). apply bind_ok in H as (d & Hd & H).
    apply bind_ok in H as (ds1 & Hds & H). injection H as <-.
    destruct (IH _ Hds) as (ds1' & -> & Hc1). rewrite Hp. cbn [bind].
    destruct (negb present).
    + rewrite Hd. cbn [bind]. eexists. split; [reflexivity |].
      apply condensed_app; [apply condensed_refl | assumption].
    + apply bind_ok in Hd as (rc & Hrc & Hd).
      apply bind_ok in Hd as (sc & Hsc & Hd).
      rewrite Hrc, Hsc. cbn [bind].
      destruct (compare_values_follows rc _ _ _ Hd) as (d' & -> & Hc).
      cbn [bind]. eexists. split; [reflexivity |].
      apply condensed_app; assumption.
Qed.

Lemma compare_corpora_follows ref stu ds :
  compare_corpora Standalone ref stu = Ok ds ->
  exists ds', compare_corpora Embedded ref stu = Ok ds' /\ condensed ds ds'.
Proof.
  unfold compare_corpora. intros H.
  apply bind_ok in H as (rn & Hrn & H). apply bind_ok in H as (first & Hf & H).
  apply bind_ok in H as (sn & Hsn & H). apply bind_ok in H as (second & Hs & H).
  injection H as <-.
  destruct (ref_class_loop_follows _ _ _ _ Hf) as (first' & Hf' & Hc).
  rewrite Hrn. cbn [bind]. rewrite Hf'. cbn [bind]. rewrite Hsn. cbn [bind].
  rewrite Hs. cbn [bind]. eexists. split; [reflexivity |].
  apply condensed_app; [assumption | apply condensed_refl].
Qed.

(** X4: whenever the stand-alone script returns a list of discrepancies,
    the generated script returns one too, for the same two inputs; its
    list is empty exactly when the stand-alone one is (the same verdict
    PASS or FAIL) and it is not longer.  At the level of values and at
    the level of corpora. *)
Theorem embedded_follows_standalone :
  (forall ref_val stu_val path ds,
      compare_values Standalone ref_val stu_val path = Ok ds ->
      exists ds',
        compare_values Embedded ref_val stu_val path = Ok ds'
        /\ (ds = [] <-> ds' = []) /\ List.length ds' <= List.length ds)
  /\ (forall ref_data student_data ds,
         compare_uml_files Standalone ref_data student_data = Ok ds ->
         exists ds',
           compare_uml_files Embedded ref_data student_data = Ok ds'
           /\ (ds = [] <-> ds' = []) /\ List.length ds' <= List.length ds).
Proof.
  split.
  - intros ref_val. apply compare_values_follows.
  - intros ref_data student_data ds H.
    rewrite compare_uml_files_corpora in *.
    apply bind_ok in H as (ref & Href & H). apply bind_ok in H as (stu & Hstu & H).
    rewrite Href, Hstu. cbn [bind]. apply compare_corpora_follows, H.
Qed.

Lemma embedded_follows_standalone_witness :
  compare_values Standalone (VList [VInt 1; VInt 2]) (VList [VInt 3]) "p"
  = Ok ["p - Length mismatch: expected [1, 2] (2 items), got [3] (1 items)";
        "p[0] - Value mismatch: expected 1, got 3"]
  /\ exists ds',
      compare_values Embedded (VList [VInt 1; VInt 2]) (VList [VInt 3]) "p"
      = Ok ds'
      /\ ds' <> [] /\ List.length ds' <= 2.
Proof.
  split; [reflexivity |].
  destruct (proj1 embedded_follows_standalone (VList [VInt 1; VInt 2])
              (VList [VInt 3]) "p" _ eq_refl) as (ds' & H & Hnil & Hlen).
  exists ds'. split; [exact H |]. split; [| exact Hlen].
  intros E. apply Hnil in E. discriminate E.
Defined.

(** ** Corpora of valid classes *)

Lemma string_keys_get n (d : list (string * value)) :
  dict_get hkey_eqb (HStr n) (string_keys d) = dict_get String.eqb n d.
Proof. apply (dict_get_on_key String.eqb hkey_eqb HStr hkey_eqb_HStr). Qed.

Lemma string_keys_mem n (d : list (string * value)) :
  dict_mem hkey_eqb (HStr n) (string_keys d) = dict_mem String.eqb n d.
Proof. apply (dict_mem_on_key String.eqb hkey_eqb HStr hkey_eqb_HStr). Qed.

Lemma string_keys_names (d : list (string * value)) :
  map fst (string_keys d) = map HStr (map fst d).
Proof. unfold string_keys. rewrite !map_map. reflexivity. Qed.

Lemma valid_corpus_get d n v :
  valid_corpus d -> dict_get String.eqb n d = Some v ->
  valid v ("Class " ++ n) = true.
Proof.
  intros Hd H. apply dict_get_in in H as (n' & Hin & Hn).
  apply String.eqb_eq in Hn as <-. apply (Hd _ _ Hin).
Qed.

Lemma stu_class_loop_none names ref :
  (forall k, In k names -> dict_mem hkey_eqb k ref = true) ->
  stu_class_loop names (Classes ref) = Ok [].
Proof.
  induction names as [| k rest IH]; cbn [stu_class_loop data_mem bind];
    intros H; [reflexivity |].
  rewrite IH by (intros k' Hk'; apply H; right; exact Hk').
  rewrite (H k (or_introl eq_refl)). reflexivity.
Qed.

Lemma ref_class_loop_refl sc d names :
  valid_corpus d ->
  (forall n, In n names -> dict_mem String.eqb n d = true) ->
  ref_class_loop sc (map HStr names) (Classes (string_keys d))
    (Classes (string_keys d)) = Ok [].
Proof.
  intros Hd. induction names as [| n rest IH]; intros Hin; [reflexivity |].
  cbn [map ref_class_loop data_mem data_item bind].
  rewrite IH by (intros n' Hn'; apply Hin; right; exact Hn').
  rewrite string_keys_mem, string_keys_get.
  pose proof (Hin n (or_introl eq_refl)) as Hn. rewrite Hn.
  unfold dict_mem in Hn.
  destruct (dict_get String.eqb n d) as [v |] eqn:E; [| discriminate Hn].
  cbn [negb bind hkey_str value_of_hkey py_str].
  rewrite (compare_values_reflexive sc v _ (valid_corpus_get _ _ _ Hd E)).
  reflexivity.
Qed.

Lemma compare_corpora_refl sc d :
  valid_corpus d ->
  compare_corpora sc (Classes (string_keys d)) (Classes (string_keys d)) = Ok [].
Proof.
  intros Hd. unfold compare_corpora. cbn [data_keys bind].
  rewrite string_keys_names.
  rewrite (ref_class_loop_refl sc d (map fst d) Hd)
    by (intros n Hn; apply in_keys_mem, Hn).
  cbn [bind]. rewrite stu_class_loop_none; [reflexivity |].
  intros k Hk. apply in_map_iff in Hk as (n & <- & Hn).
  rewrite string_keys_mem. apply in_keys_mem, Hn.
Qed.

Lemma depth_name_keyed items :
  depth (VDict (name_keyed items)) <= depth (VList items).
Proof.
  cbn [depth]. apply le_n_S, list_max_le, Forall_forall.
  intros d Hd. apply in_map_iff in Hd as ([k v] & <- & Hin). cbn [snd].
  apply in_list_max, in_map.
  unfold name_keyed in Hin. apply dict_of_values in Hin.
  apply in_map_iff in Hin as ([k0 v0] & Hv & Hin). cbn [snd] in Hv. subst v0.
  unfold named in Hin. apply in_flat_map in Hin as (x & Hx & Hin).
  destruct x as [| | | | | e]; try destruct Hin.
  destruct (dict_get String.eqb "name" e) as [[| | | m | |] |];
    try destruct Hin.
  - injection H as _ <-. exact Hx.
  - destruct H.
Qed.

Lemma compare_uml_files_reflexive sc items :
  forallb class_entry items = true ->
  valid_corpus (name_keyed items) ->
  compare_uml_files sc (VList items) (VList items) = Ok []
  /\ compare_uml_files sc (VList items) (VDict (name_keyed items)) = Ok []
  /\ compare_uml_files sc (VDict (name_keyed items)) (VList items) = Ok []
  /\ compare_uml_files sc (VDict (name_keyed items)) (VDict (name_keyed items))
     = Ok [].
Proof.
  intros Hitems Hd. rewrite !compare_uml_files_corpora.
  rewrite (normalize_list items Hitems).
  change (normalize (VDict (name_keyed items)))
    with (Ok (Classes (string_keys (name_keyed items)))).
  cbn [bind]. rewrite (compare_corpora_refl sc _ Hd). auto.
Qed.

(** X5: a corpus whose classes are valid and hold no float, compared
    with itself, gives no discrepancy, whether it is passed as a mapping
    from names to classes or as the list of class entries it is built
    from, on either side, when the interpreter admits enough further
    calls for the nesting of the list.  Both scripts. *)
Theorem corpus_reflexive sc frames items :
  forallb class_entry items = true ->
  valid_corpus (name_keyed items) ->
  enough frames (VList items) (VList items) ->
  Limited.compare_uml_files sc frames (VList items) (VList items) = Ok []
  /\ Limited.compare_uml_files sc frames (VList items)
       (VDict (name_keyed items)) = Ok []
  /\ Limited.compare_uml_files sc frames (VDict (name_keyed items))
       (VList items) = Ok []
  /\ Limited.compare_uml_files sc frames (VDict (name_keyed items))
       (VDict (name_keyed items)) = Ok [].
Proof.
  unfold enough. intros Hitems Hd Hf.
  pose proof (depth_name_keyed items) as Hk.
  rewrite !limited_compare_uml_files_within by lia.
  apply compare_uml_files_reflexive; assumption.
Qed.

Lemma corpus_reflexive_witness :
  forallb class_entry reference_list = true
  /\ valid_corpus (name_keyed reference_list)
  /\ enough 10 (VList reference_list) (VList reference_list)
  /\ Limited.compare_uml_files Embedded 10 (VList reference_list)
       (VList reference_list) = Ok [].
Proof.
  assert (Hd : valid_corpus (name_keyed reference_list)).
  { intros n v Hin. vm_compute in Hin.
    destruct Hin as [H | [H | []]]; injection H as <- <-; reflexivity. }
  assert (Hf : enough 10 (VList reference_list) (VList reference_list))
    by (vm_compute; lia).
  split; [reflexivity |]. split; [exact Hd |]. split; [exact Hf |].
  apply (corpus_reflexive Embedded 10 reference_list eq_refl Hd Hf).
Defined.

Lemma compare_corpora_total sc ref stu :
  valid_corpus ref -> valid_corpus stu ->
  exists ds,
    compare_corpora sc (Classes (string_keys ref)) (Classes (string_keys stu))
    = Ok ds.
Proof.
  intros Hr Hs. unfold compare_corpora. cbn [data_keys bind].
  destruct (ref_class_loop_total sc (map fst (string_keys ref))
              (string_keys ref) (string_keys stu)) as (first & ->).
  { intros k Hin. rewrite string_keys_names in Hin.
    apply in_map_iff in Hin as (n & <- & Hin).
    rewrite string_keys_mem. apply in_keys_mem, Hin. }
  { intros k r s Hin. rewrite string_keys_names in Hin.
    apply in_map_iff in Hin as (n & <- & Hin).
    rewrite !string_keys_get. intros Hgr Hgs.
    apply compare_values_returns.
    - apply (valid_corpus_get _ _ _ Hr Hgr).
    - apply (valid_corpus_get _ _ _ Hs Hgs). }
  destruct (stu_class_loop_spec (map fst (string_keys stu)) (string_keys ref))
    as (second & -> & _).
  cbn [bind]. eauto.
Qed.

Lemma compare_uml_files_total sc ref_items stu :
  forallb class_entry ref_items = true ->
  valid_corpus (name_keyed ref_items) ->
  valid_corpus stu ->
  exists ds, compare_uml_files sc (VList ref_items) (VDict stu) = Ok ds.
Proof.
  intros Hri Hr Hs. rewrite compare_uml_files_corpora.
  rewrite (normalize_list ref_items Hri).
  change (normalize (VDict (name_keyed ref_items)))
    with (Ok (Classes (string_keys (name_keyed ref_items)))).
  change (normalize (VDict stu)) with (Ok (Classes (string_keys stu))).
  cbn [bind]. apply compare_corpora_total; assumption.
Qed.

(** X6: a reference given as a list of class entries and a student's
    mapping from names to classes, both without floats, are compared
    without an exception when the classes of both are valid and the
    interpreter admits enough further calls for their nesting.  Both
    scripts. *)
Theorem corpus_total sc frames ref_items stu :
  forallb class_entry ref_items = true ->
  valid_corpus (name_keyed ref_items) ->
  valid_corpus stu ->
  enough frames (VList ref_items) (VDict stu) ->
  exists ds,
    Limited.compare_uml_files sc frames (VList ref_items) (VDict stu) = Ok ds.
Proof.
  unfold enough. intros Hri Hr Hs Hf.
  rewrite limited_compare_uml_files_within by lia.
  apply compare_uml_files_total; assumption.
Qed.

Lemma corpus_total_witness :
  forallb class_entry reference_list = true
  /\ valid_corpus (name_keyed reference_list)
  /\ valid_corpus student_corpus
  /\ enough 10 (VList reference_list) (VDict student_corpus)
  /\ exists ds,
      Limited.compare_uml_files Standalone 10 (VList reference_list)
        (VDict student_corpus) = Ok ds.
Proof.
  assert (Hr : valid_corpus (name_keyed reference_list)).
  { intros n v Hin. vm_compute in Hin.
    destruct Hin as [H | [H | []]]; injection H as <- <-; reflexivity. }
  assert (Hs : valid_corpus student_corpus).
  { intros n v Hin.
    destruct Hin as [H | [H | []]]; injection H as <- <-; reflexivity. }
  assert (Hf : enough 10 (VList reference_list) (VDict student_corpus))
    by (vm_compute; lia).
  split; [reflexivity |]. split; [exact Hr |]. split; [exact Hs |].
  split; [exact Hf |].
  apply (corpus_total Standalone 10 reference_list student_corpus eq_refl Hr Hs
           Hf).
Defined.

(** ** Data that is no corpus *)

Lemma normalize_raises data e : normalize data = Raise e -> e = TypeError.
Proof.
  destruct data as [| | | | items |]; try discriminate. cbn [normalize].
  unfold by_name.
  destruct (mapM name_entry items) as [es |] eqn:E; [discriminate |].
  cbn [bind]. intros H. injection H as <-.
  induction items as [| x r IH]; cbn [mapM] in E; [discriminate |].
  destruct (name_entry x) as [o | e1] eqn:Ex; cbn [bind] in E.
  - destruct (mapM name_entry r) as [os | e2]; cbn [bind] in E;
      [discriminate |].
    injection E as <-. apply IH. reflexivity.
  - injection E as <-.
    destruct x as [| | | s | l | entries]; cbn [name_entry] in Ex;
      try (injection Ex as <-; reflexivity).
    + destruct (String.index 0 "name" s); [| discriminate].
      injection Ex as <-. reflexivity.
    + destruct (existsb _ l); [| discriminate]. injection Ex as <-. reflexivity.
    + destruct (dict_get String.eqb "name" entries) as [name |];
        [| discriminate].
      destruct name; cbn [hashable bind] in Ex; try discriminate;
        injection Ex as <-; reflexivity.
Qed.

Lemma ref_class_loop_not_iterable sc names ref :
  names <> [] -> ref_class_loop sc names ref NotIterable = Raise TypeError.
Proof. destruct names; [congruence | reflexivity]. Qed.

(** X7: a reference or a student's data that is [None], a boolean or an
    integer (a JSON file holding [null], [true] or a number) is refused
    with a [TypeError], whatever the other side is.  Both scripts. *)
Theorem scalar_data_raises sc ref_data student_data :
  not_iterable ref_data = true \/ not_iterable student_data = true ->
  compare_uml_files sc ref_data student_data = Raise TypeError.
Proof.
  intros H. rewrite compare_uml_files_corpora.
  destruct (normalize ref_data) as [ref | e] eqn:Hr;
    [| apply normalize_raises in Hr as ->; reflexivity].
  destruct (normalize student_data) as [stu | e] eqn:Hs;
    [| apply normalize_raises in Hs as ->; reflexivity].
  cbn [bind]. unfold compare_corpora.
  destruct H as [H | H].
  - destruct ref_data; try discriminate H; injection Hr as <-; reflexivity.
  - assert (stu = NotIterable) as ->
      by (destruct student_data; try discriminate H; injection Hs as <-;
          reflexivity).
    destruct (data_keys ref) as [names | e] eqn:Hk.
    + cbn [bind]. destruct names as [| k rest]; [reflexivity |].
      rewrite ref_class_loop_not_iterable by discriminate. reflexivity.
    + destruct ref; try discriminate Hk. injection Hk as <-. reflexivity.
Qed.

Lemma scalar_data_raises_witness :
  not_iterable VNone = true
  /\ compare_uml_files Standalone (VList reference_list) VNone
     = Raise TypeError.
Proof.
  split; [reflexivity |].
  apply (scalar_data_raises Standalone (VList reference_list) VNone).
  right. reflexivity.
Defined.

(** ** Corpora without a common class *)

Lemma ref_class_loop_disjoint sc names ref stu :
  (forall k, In k names -> dict_mem hkey_eqb k stu = false) ->
  ref_class_loop sc names (Classes ref) (Classes stu)
  = Ok (map missing_class names).
Proof.
  induction names as [| k rest IH]; intros H; [reflexivity |].
  cbn [ref_class_loop data_mem bind map].
  rewrite (H k (or_introl eq_refl)). cbn [negb bind].
  rewrite IH by (intros k' Hk'; apply H; right; exact Hk'). reflexivity.
Qed.

Lemma stu_class_loop_disjoint names ref :
  (forall k, In k names -> dict_mem hkey_eqb k ref = false) ->
  stu_class_loop names (Classes ref) = Ok (map extra_class names).
Proof.
  induction names as [| k rest IH]; intros H; [reflexivity |].
  cbn [stu_class_loop data_mem bind map].
  rewrite (H k (or_introl eq_refl)). cbn [negb bind].
  rewrite IH by (intros k' Hk'; apply H; right; exact Hk'). reflexivity.
Qed.

Lemma hkey_in_mem {V : Type} (d : list (hkey * V)) k :
  In k (map fst d) -> dict_mem hkey_eqb k d = true.
Proof.
  unfold dict_mem.
  induction d as [| [k1 v1] r IH]; simpl; [contradiction |].
  intros [-> | Hin].
  - rewrite hkey_refl. reflexivity.
  - destruct (hkey_eqb k k1); [reflexivity | auto].
Qed.

Lemma compare_corpora_disjoint sc ref stu :
  (forall k, In k (map fst ref) -> dict_mem hkey_eqb k stu = false) ->
  compare_corpora sc (Classes ref) (Classes stu)
  = Ok (map missing_class (map fst ref) ++ map extra_class (map fst stu))%list.
Proof.
  intros H. unfold compare_corpora. cbn [data_keys bind].
  rewrite ref_class_loop_disjoint by exact H.
  cbn [bind]. rewrite stu_class_loop_disjoint; [reflexivity |].
  intros k Hk. unfold dict_mem.
  destruct (dict_get hkey_eqb k ref) as [v |] eqn:E; [| reflexivity].
  apply dict_get_in in E as (k' & Hin & Hkk).
  apply (in_map fst) in Hin. apply H in Hin. cbn [fst] in Hin.
  unfold dict_mem in Hin.
  destruct (dict_get hkey_eqb k' stu) eqn:E'; [discriminate Hin |].
  rewrite dict_get_none in E'.
  apply in_map_iff in Hk as ([k2 v2] & <- & Hk).
  specialize (E' _ _ Hk). cbn [fst] in Hkk.
  rewrite hkey_sym, Hkk in E'. discriminate E'.
Qed.

(** X8: when no class name is on both sides, the result is one
    ["Missing class: <name>"] per class of the reference, in the order
    of the reference, followed by one ["Extra class: <name>"] per class
    of the student, in the student's order; so an empty reference makes
    every class of the student an extra one, and an empty student's
    mapping makes every class of the reference a missing one.  Both
    scripts. *)
Theorem disjoint_corpora sc ref stu :
  (forall n, In n (map fst ref) -> ~ In n (map fst stu)) ->
  compare_uml_files sc (VDict ref) (VDict stu)
  = Ok (List.app (map (fun n => "Missing class: " ++ n) (map fst ref))
                 (map (fun n => "Extra class: " ++ n) (map fst stu))).
Proof.
  intros H. rewrite compare_uml_files_corpora.
  change (normalize (VDict ref)) with (Ok (Classes (string_keys ref))).
  change (normalize (VDict stu)) with (Ok (Classes (string_keys stu))).
  cbn [bind]. rewrite compare_corpora_disjoint.
  - rewrite !string_keys_names, !map_map. reflexivity.
  - intros k Hk. rewrite string_keys_names in Hk.
    apply in_map_iff in Hk as (n & <- & Hn). rewrite string_keys_mem.
    destruct (dict_mem String.eqb n stu) eqn:E; [| reflexivity].
    apply mem_in_keys in E. destruct (H n Hn E).
Qed.

Lemma disjoint_corpora_witness :
  (forall n, In n (map fst (@nil (string * value))) ->
             ~ In n (map fst student_corpus))
  /\ compare_uml_files Standalone (VDict []) (VDict student_corpus)
     = Ok ["Extra class: Foo"; "Extra class: Baz"].
Proof.
  split; [intros n [] |].
  apply (disjoint_corpora Standalone [] student_corpus). intros n [].
Defined.

(** ** The verdict PASS *)

Lemma ref_class_loop_pass sc names ref stu :
  (forall k, In k names -> dict_mem hkey_eqb k ref = true) ->
  ref_class_loop sc names (Classes ref) (Classes stu) = Ok []
  <-> forall k, In k names ->
        exists r s,
          dict_get hkey_eqb k ref = Some r /\ dict_get hkey_eqb k stu = Some s
          /\ compare_values sc r s ("Class " ++ hkey_str k) = Ok [].
Proof.
  induction names as [| n rest IH]; intros Hmem.
  - split; [intros _ ? [] | reflexivity].
  - cbn [ref_class_loop data_mem data_item bind].
    assert (Hrest : forall k, In k rest -> dict_mem hkey_eqb k ref = true)
      by (intros k Hk; apply Hmem; right; exact Hk).
    specialize (IH Hrest).
    pose proof (Hmem n (or_introl eq_refl)) as Hn. unfold dict_mem in Hn |- *.
    destruct (dict_get hkey_eqb n ref) as [r |] eqn:Er; [| discriminate Hn].
    split.
    + intros H. apply bind_ok in H as (d & Hd & H).
      apply bind_ok in H as (ds & Hds & H). injection H as H.
      apply app_eq_nil in H as (-> & ->).
      intros k [<- | Hk]; [| apply (proj1 IH Hds k Hk)].
      destruct (dict_get hkey_eqb n stu) as [s |] eqn:Es;
        cbn [negb bind] in Hd; [| discriminate Hd].
      exists r, s. auto.
    + intros H. destruct (H n (or_introl eq_refl)) as (r' & s & Hr & -> & Hc).
      rewrite Er in Hr. injection Hr as <-. cbn [negb bind]. rewrite Hc.
      cbn [bind]. rewrite (proj2 IH); [reflexivity |].
      intros k Hk. apply H. right. exact Hk.
Qed.

Lemma stu_class_loop_pass names ref :
  stu_class_loop names (Classes ref) = Ok []
  <-> forall k, In k names -> dict_mem hkey_eqb k ref = true.
Proof.
  split; [| apply stu_class_loop_none].
  induction names as [| n rest IH]; cbn [stu_class_loop data_mem bind];
    intros H k Hk; [destruct Hk |].
  apply bind_ok in H as (ds & Hds & H). injection H as H.
  apply app_eq_nil in H as (Hn & ->).
  destruct Hk as [<- | Hk]; [| apply (IH Hds k Hk)].
  destruct (dict_mem hkey_eqb n ref); [reflexivity | discriminate Hn].
Qed.

Lemma compare_corpora_pass sc ref stu :
  compare_corpora sc (Classes ref) (Classes stu) = Ok []
  <-> (forall k, In k (map fst ref) ->
         exists r s,
           dict_get hkey_eqb k ref = Some r /\ dict_get hkey_eqb k stu = Some s
           /\ compare_values sc r s ("Class " ++ hkey_str k) = Ok [])
      /\ (forall k, In k (map fst stu) -> dict_mem hkey_eqb k ref = true).
Proof.
  unfold compare_corpora. cbn [data_keys bind].
  rewrite <- stu_class_loop_pass,
    <- (ref_class_loop_pass sc (map fst ref) ref stu (hkey_in_mem ref)).
  split.
  - intros H. apply bind_ok in H as (first & Hf & H).
    apply bind_ok in H as (second & Hs & H). injection H as H.
    apply app_eq_nil in H as (-> & ->). auto.
  - intros (-> & ->). reflexivity.
Qed.

(** X9: two corpora compare without a discrepancy (the verdict PASS)
    exactly when they hold the same class names and, for every name, the
    two classes compare without a discrepancy at ["Class <name>"].  Both
    scripts. *)
Theorem corpus_pass sc ref stu :
  compare_uml_files sc (VDict ref) (VDict stu) = Ok []
  <-> (forall n, dict_mem String.eqb n ref = dict_mem String.eqb n stu)
      /\ (forall n r s,
             dict_get String.eqb n ref = Some r ->
             dict_get String.eqb n stu = Some s ->
             compare_values sc r s ("Class " ++ n) = Ok []).
Proof.
  rewrite compare_uml_files_corpora.
  change (normalize (VDict ref)) with (Ok (Classes (string_keys ref))).
  change (normalize (VDict stu)) with (Ok (Classes (string_keys stu))).
  cbn [bind]. rewrite compare_corpora_pass, !string_keys_names. split.
  - intros (Hr & Hs). split.
    + intros n. destruct (dict_mem String.eqb n ref) eqn:Er.
      * apply mem_in_keys in Er.
        destruct (Hr (HStr n) (in_map HStr _ _ Er)) as (r & s & _ & Hg & _).
        rewrite string_keys_get in Hg. unfold dict_mem. rewrite Hg. reflexivity.
      * destruct (dict_mem String.eqb n stu) eqn:Es; [| reflexivity].
        apply mem_in_keys in Es.
        specialize (Hs (HStr n) (in_map HStr _ _ Es)).
        rewrite string_keys_mem, Er in Hs. discriminate Hs.
    + intros n r s Hgr Hgs.
      assert (Hin : In n (map fst ref))
        by (apply mem_in_keys; unfold dict_mem; rewrite Hgr; reflexivity).
      destruct (Hr (HStr n) (in_map HStr _ _ Hin)) as (r' & s' & Hr' & Hs' & Hc).
      rewrite string_keys_get in Hr', Hs'.
      cbn [hkey_str value_of_hkey py_str] in Hc. congruence.
  - intros (Hsame & Hall). split.
    + intros k Hk. apply in_map_iff in Hk as (n & <- & Hn).
      rewrite !string_keys_get. apply in_keys_mem in Hn.
      pose proof Hn as Hn'. rewrite Hsame in Hn'. unfold dict_mem in Hn, Hn'.
      destruct (dict_get String.eqb n ref) as [r |] eqn:Er; [| discriminate Hn].
      destruct (dict_get String.eqb n stu) as [s |] eqn:Es; [| discriminate Hn'].
      exists r, s. repeat split. apply (Hall n r s Er Es).
    + intros k Hk. apply in_map_iff in Hk as (n & <- & Hn).
      rewrite string_keys_mem, Hsame. apply in_keys_mem, Hn.
Qed.

(** ** The target files *)

Lemma lstrip_head s c r : lstrip s = String c r -> is_space c = false.
Proof.
  induction s as [| d s IH]; simpl; [discriminate |].
  destruct (is_space d) eqn:E; [exact IH |].
  intros H. injection H as <- _. exact E.
Qed.

Lemma rstrip_last s c : last_char (rstrip s) = Some c -> is_space c = false.
Proof.
  revert c. induction s as [| d s IH]; simpl; intros c; [discriminate |].
  destruct (rstrip s) as [| e r'] eqn:E.
  - destruct (is_space d) eqn:Ed; simpl; [discriminate |].
    intros H. injection H as <-. exact Ed.
  - intros H. apply IH. cbn [last_char] in H |- *.
    destruct (last_char r') as [x |]; exact H.
Qed.

Lemma rstrip_head s c :
  is_space c = false -> exists r', rstrip (String c s) = String c r'.
Proof.
  intros Hc. simpl. destruct (rstrip s); [rewrite Hc |]; eauto.
Qed.

Lemma lstrip_fixed s :
  (forall c r, s = String c r -> is_space c = false) -> lstrip s = s.
Proof.
  destruct s as [| c r]; intros H; [reflexivity |].
  simpl. rewrite (H c r eq_refl). reflexivity.
Qed.

Lemma rstrip_fixed s :
  (forall c, last_char s = Some c -> is_space c = false) -> rstrip s = s.
Proof.
  induction s as [| d s IH]; intros H; [reflexivity |].
  cbn [rstrip last_char] in *.
  destruct (last_char s) as [x |] eqn:E.
  - rewrite IH by exact H. destruct s; [discriminate E | reflexivity].
  - destruct s as [| e s']; [| simpl in E; destruct (last_char s'); discriminate E].
    simpl. rewrite (H d eq_refl). reflexivity.
Qed.

Lemma strip_ends s :
  (forall c r, strip s = String c r -> is_space c = false)
  /\ (forall c, last_char (strip s) = Some c -> is_space c = false).
Proof.
  unfold strip. split; [| apply rstrip_last].
  intros c r H. destruct (lstrip s) as [| d t] eqn:E; [discriminate H |].
  pose proof (lstrip_head _ _ _ E) as Hd.
  destruct (rstrip_head t d Hd) as (r' & Hr). rewrite Hr in H.
  injection H as <- _. exact Hd.
Qed.

Lemma strip_fixed s :
  (forall c r, s = String c r -> is_space c = false) ->
  (forall c, last_char s = Some c -> is_space c = false) ->
  strip s = s.
Proof.
  intros H1 H2. unfold strip. rewrite (lstrip_fixed s H1). apply rstrip_fixed, H2.
Qed.

Lemma strip_strip s : strip (strip s) = strip s.
Proof. destruct (strip_ends s) as (H1 & H2). apply strip_fixed; assumption. Qed.

(** X10: every target read from [files.txt] is the stripped form of one
    of its lines, is not empty and neither begins nor ends with a
    whitespace character; reading the targets again as lines gives the
    same targets.  Both scripts. *)
Theorem read_target_files_stripped lines :
  (forall t, In t (read_target_files lines) ->
     (exists line, In line lines /\ t = strip line)
     /\ t <> ""
     /\ (forall c r, t = String c r -> is_space c = false)
     /\ (forall c, last_char t = Some c -> is_space c = false))
  /\ read_target_files (read_target_files lines) = read_target_files lines.
Proof.
  split.
  - intros t Ht. unfold read_target_files in Ht.
    apply in_map_iff in Ht as (line & <- & Hin).
    apply filter_In in Hin as (Hin & Hne). apply negb_true_iff in Hne.
    apply String.eqb_neq in Hne.
    split; [eauto |]. split; [exact Hne |]. apply strip_ends.
  - unfold read_target_files.
    induction lines as [| line rest IH]; [reflexivity |].
    cbn [filter]. destruct (String.eqb (strip line) "") eqn:E; cbn [negb].
    + exact IH.
    + cbn [map filter]. rewrite strip_strip, E. cbn [negb map].
      rewrite strip_strip. f_equal. exact IH.
Qed.

(** ** Looking up the target files *)

Lemma find_java_files_met walk target_files :
  find_java_files walk target_files
  = dict_of String.eqb (targets_met walk target_files).
Proof.
  unfold find_java_files, dict_of. generalize (@nil (string * string)) as found.
  induction walk as [| [[root dirs] files] rest IH]; intros found;
    [reflexivity |].
  cbn [fold_left targets_met flat_map]. rewrite fold_left_app, IH. f_equal.
  clear IH. revert found.
  induction files as [| file_name files IH]; intros found; [reflexivity |].
  cbn [fold_left filter]. rewrite IH.
  destruct (is_target target_files file_name); reflexivity.
Qed.

Lemma targets_met_in walk target_files file_name file_path :
  In (file_name, file_path) (targets_met walk target_files)
  <-> is_target target_files file_name = true
      /\ exists root dirs files,
           In (root, dirs, files) walk /\ In file_name files
           /\ file_path = os_path_join root file_name.
Proof.
  unfold targets_met. rewrite in_flat_map. split.
  - intros ([[root dirs] files] & Hin & H).
    apply in_map_iff in H as (n & Heq & Hn). injection Heq as -> <-.
    apply filter_In in Hn as (Hn & Ht). split; [exact Ht |].
    exists root, dirs, files. auto.
  - intros (Ht & root & dirs & files & Hin & Hn & ->).
    exists (root, dirs, files). split; [exact Hin |].
    apply in_map_iff. exists file_name. split; [reflexivity |].
    apply filter_In. auto.
Qed.

Lemma is_target_in target_files file_name :
  is_target target_files file_name = true <-> In file_name target_files.
Proof.
  unfold is_target. rewrite existsb_exists. split.
  - intros (t & Hin & Heq). apply String.eqb_eq in Heq as ->. exact Hin.
  - intros H. exists file_name. split; [exact H | apply String.eqb_refl].
Qed.

Lemma string_eqb_trans a b c :
  String.eqb a b = true -> String.eqb b c = true -> String.eqb a c = true.
Proof. rewrite !String.eqb_eq. congruence. Qed.

Lemma dict_get_app {K V : Type} (keqb : K -> K -> bool) k (l1 l2 : list (K * V)) :
  dict_get keqb k (l1 ++ l2)
  = match dict_get keqb k l1 with
    | Some v => Some v
    | None => dict_get keqb k l2
    end.
Proof.
  induction l1 as [| [k1 v1] l1 IH]; simpl; [reflexivity |].
  destruct (keqb k k1); [reflexivity | exact IH].
Qed.

Lemma dict_get_single {V : Type} n (p : V) (l : list (string * V)) :
  (exists q, In (n, q) l) -> (forall q, In (n, q) l -> q = p) ->
  dict_get String.eqb n l = Some p.
Proof.
  induction l as [| [k v] r IH]; intros (q & Hq) Hall; [destruct Hq |].
  simpl. destruct (String.eqb_spec n k) as [<- | Hne].
  - f_equal. apply Hall. left. reflexivity.
  - apply IH.
    + destruct Hq as [Heq | Hq]; [congruence | eauto].
    + intros q' Hq'. apply Hall. right. exact Hq'.
Qed.

Lemma dict_get_absent {V : Type} n (l : list (string * V)) :
  (forall q, ~ In (n, q) l) -> dict_get String.eqb n l = None.
Proof.
  intros H. apply dict_get_none. intros k v Hin.
  destruct (String.eqb_spec n k) as [<- | _]; [destruct (H v Hin) | reflexivity].
Qed.

Lemma targets_met_app w1 w2 target_files :
  targets_met (w1 ++ w2) target_files
  = (targets_met w1 target_files ++ targets_met w2 target_files)%list.
Proof. unfold targets_met. apply flat_map_app. Qed.

(** X11: [find_java_files] returns a dictionary (no file name twice)
    from file names to paths.  A name is in it exactly when it is a
    target and some directory of the walk holds a file of that name;
    its path is that directory joined with the name; and of several
    directories holding the name, the one the walk yields last gives
    the path.  Both scripts. *)
Theorem find_java_files_found walk target_files :
  distinct String.eqb (find_java_files walk target_files)
  /\ (forall file_name,
         dict_mem String.eqb file_name (find_java_files walk target_files)
         = true
         <-> In file_name target_files
             /\ exists root dirs files,
                  In (root, dirs, files) walk /\ In file_name files)
  /\ (forall file_name file_path,
         In (file_name, file_path) (find_java_files walk target_files) ->
         exists root dirs files,
           In (root, dirs, files) walk /\ In file_name files
           /\ file_path = os_path_join root file_name)
  /\ (forall before root dirs files after file_name,
         walk = (before ++ (root, dirs, files) :: after)%list ->
         In file_name target_files -> In file_name files ->
         (forall root' dirs' files',
             In (root', dirs', files') after -> ~ In file_name files') ->
         dict_get String.eqb file_name (find_java_files walk target_files)
         = Some (os_path_join root file_name)).
Proof.
  rewrite find_java_files_met. split; [| split; [| split]].
  - apply dict_of_distinct, String.eqb_sym.
  - intros file_name. unfold dict_mem.
    rewrite (dict_get_of String.eqb String.eqb_sym string_eqb_trans).
    rewrite <- is_target_in. split.
    + destruct (dict_get String.eqb file_name (rev (targets_met walk target_files)))
        as [p |] eqn:E; [intros _ | discriminate].
      apply dict_get_in in E as (n & Hin & Hn).
      apply String.eqb_eq in Hn as <-. apply in_rev in Hin.
      apply targets_met_in in Hin as (Ht & root & dirs & files & Hw & Hf & _).
      eauto 6.
    + intros (Ht & root & dirs & files & Hw & Hf).
      destruct (dict_get String.eqb file_name
                  (rev (targets_met walk target_files))) as [p |] eqn:E;
        [reflexivity |].
      rewrite dict_get_none in E.
      assert (Hc : String.eqb file_name file_name = false).
      { apply (E file_name (os_path_join root file_name)).
        apply -> in_rev. apply targets_met_in. eauto 8. }
      rewrite String.eqb_refl in Hc. discriminate Hc.
  - intros file_name file_path Hin.
    apply (dict_of_in String.eqb String.eqb_refl) in Hin as (n & Hin & Hn).
    apply String.eqb_eq in Hn as ->.
    apply targets_met_in in Hin as (_ & H). exact H.
  - intros before root dirs files after file_name -> Ht Hf Hafter.
    rewrite (dict_get_of String.eqb String.eqb_sym string_eqb_trans).
    change ((root, dirs, files) :: after)
      with ([(root, dirs, files)] ++ after)%list.
    rewrite !targets_met_app, !rev_app_distr, !dict_get_app.
    rewrite dict_get_absent.
    + rewrite (dict_get_single file_name (os_path_join root file_name));
        [reflexivity | |].
      * exists (os_path_join root file_name). apply -> in_rev.
        apply targets_met_in. split; [apply is_target_in, Ht |].
        exists root, dirs, files. split; [left; reflexivity | auto].
      * intros q Hq. apply in_rev in Hq.
        apply targets_met_in in Hq as (_ & root' & dirs' & files' & Hw & _ & ->).
        destruct Hw as [Heq | []]. injection Heq as <- _ _. reflexivity.
    + intros q Hq. apply in_rev in Hq.
      apply targets_met_in in Hq as (_ & root' & dirs' & files' & Hw & Hn & _).
      apply (Hafter _ _ _ Hw Hn).
Qed.

Lemma find_java_files_found_witness :
  [("/tmp/x", ["a"; "b"], ["Foo.java"]); ("/tmp/x/a", [], ["Foo.java"; "Bar.java"]);
   ("/tmp/x/b", [], ["Baz.java"])]
  = ([("/tmp/x", ["a"; "b"], ["Foo.java"])]
     ++ ("/tmp/x/a", [], ["Foo.java"; "Bar.java"])
     :: [("/tmp/x/b", [], ["Baz.java"])])%list
  /\ In "Foo.java" ["Foo.java"; "Baz.java"]
  /\ dict_get String.eqb "Foo.java"
       (find_java_files
          [("/tmp/x", ["a"; "b"], ["Foo.java"]);
           ("/tmp/x/a", [], ["Foo.java"; "Bar.java"]);
           ("/tmp/x/b", [], ["Baz.java"])]
          ["Foo.java"; "Baz.java"])
     = Some "/tmp/x/a/Foo.java".
Proof.
  split; [reflexivity |]. split; [left; reflexivity |].
  apply (proj2 (proj2 (proj2 (find_java_files_found
           [("/tmp/x", ["a"; "b"], ["Foo.java"]);
            ("/tmp/x/a", [], ["Foo.java"; "Bar.java"]);
            ("/tmp/x/b", [], ["Baz.java"])]
           ["Foo.java"; "Baz.java"])))
         [("/tmp/x", ["a"; "b"], ["Foo.java"])] "/tmp/x/a" []
         ["Foo.java"; "Bar.java"] [("/tmp/x/b", [], ["Baz.java"])] "Foo.java").
  - reflexivity.
  - left. reflexivity.
  - left. reflexivity.
  - intros root' dirs' files' [H | []]. injection H as _ _ <-.
    intros [H | []]. discriminate H.
Defined.

(** ** The classes of a submission *)

Section Directory.
Variable extract : string -> value.

Lemma class_key_dict file_data name :
  class_key file_data = Ok name ->
  exists entries,
    file_data = VDict entries
    /\ hashable (match dict_get String.eqb "name" entries with
                 | Some v => v
                 | None => VStr "Unknown"
                 end) = Ok name.
Proof.
  unfold class_key. destruct file_data as [| | | | | entries];
    try discriminate.
  cbn [get_attr bind]. eauto.
Qed.

(** The loop of the stand-alone [process_directory] is a dictionary
    comprehension that gives up at the first file without class. *)
Lemma standalone_loop_of java_files :
  forall result,
    StandaloneScript.directory_loop extract java_files result
    = match mapM (class_of_file extract) java_files with
      | Ok kvs => Some (fold_left (dict_store hkey_eqb) kvs result)
      | Raise _ => None
      end.
Proof.
  induction java_files as [| [file_name file_path] rest IH]; intros result;
    [reflexivity |].
  cbn [StandaloneScript.directory_loop mapM]. unfold class_of_file at 1.
  cbn [snd].
  destruct (class_key (extract file_path)) as [name | e] eqn:E; cbn [bind].
  - apply class_key_dict in E as (entries & -> & _). rewrite IH.
    destruct (mapM (class_of_file extract) rest); reflexivity.
  - destruct (extract file_path); reflexivity.
Qed.

Lemma mapM_in {A B : Type} (f : A -> result B) (l : list A) l' :
  mapM f l = Ok l' -> forall y, In y l' -> exists x, In x l /\ f x = Ok y.
Proof.
  revert l'. induction l as [| x r IH]; cbn [mapM]; intros l' H y Hy.
  - injection H as <-. destruct Hy.
  - apply bind_ok in H as (y1 & Hy1 & H). apply bind_ok in H as (ys & Hys & H).
    injection H as <-. destruct Hy as [<- | Hy]; [eauto using in_eq |].
    destruct (IH _ Hys y Hy) as (x' & Hx' & Hf). eauto using in_cons.
Qed.

Lemma mapM_raises {A B : Type} (f : A -> result B) (l : list A) :
  forall e, mapM f l = Raise e -> exists x e', In x l /\ f x = Raise e'.
Proof.
  induction l as [| x r IH]; cbn [mapM]; intros e H; [discriminate H |].
  destruct (f x) as [y | e1] eqn:E; cbn [bind] in H.
  - destruct (mapM f r) as [ys | e2]; cbn [bind] in H; [discriminate H |].
    destruct (IH e2 eq_refl) as (x' & e' & Hx' & Hf).
    eauto using in_cons.
  - eauto using in_eq.
Qed.

Lemma mapM_all {A B : Type} (f : A -> result B) (l : list A) l' :
  mapM f l = Ok l' -> forall x, In x l -> exists y, f x = Ok y.
Proof.
  revert l'. induction l as [| x r IH]; cbn [mapM]; intros l' H x' Hx';
    [destruct Hx' |].
  apply bind_ok in H as (y1 & Hy1 & H). apply bind_ok in H as (ys & Hys & H).
  destruct Hx' as [<- | Hx']; [eauto | eapply IH; eassumption].
Qed.

Lemma fold_store_nonempty {K V : Type} (keqb : K -> K -> bool)
    (kvs d : list (K * V)) :
  kvs <> [] \/ d <> [] -> fold_left (dict_store keqb) kvs d <> [].
Proof.
  revert d. induction kvs as [| [k v] r IH]; intros d H; cbn [fold_left].
  - destruct H as [H | H]; [congruence | exact H].
  - apply IH. right. unfold dict_store. cbn [fst snd].
    destruct d as [| [k1 v1] d']; cbn [dict_set]; [discriminate |].
    destruct (keqb k k1); discriminate.
Qed.

Lemma standalone_loop_none java_files :
  StandaloneScript.directory_loop extract java_files [] = None
  <-> exists file e,
        In file java_files /\ class_key (extract (snd file)) = Raise e.
Proof.
  rewrite standalone_loop_of.
  destruct (mapM (class_of_file extract) java_files) as [kvs | e] eqn:E.
  - split; [discriminate |]. intros (f & e & Hf & He).
    destruct (mapM_all _ _ _ E f Hf) as (y & Hy).
    unfold class_of_file in Hy. rewrite He in Hy. discriminate Hy.
  - split; [| reflexivity]. intros _.
    destruct (mapM_raises _ _ _ E) as (f & e' & Hf & He).
    unfold class_of_file in He.
    destruct (class_key (extract (snd f))) as [k | e2] eqn:Ek;
      [discriminate He |].
    eauto.
Qed.

Lemma standalone_loop_classes java_files student_data :
  StandaloneScript.directory_loop extract java_files [] = Some student_data ->
  (java_files <> [] -> student_data <> [])
  /\ distinct hkey_eqb student_data
  /\ forall name file_data,
       In (name, file_data) student_data ->
       exists file entries name',
         In file java_files
         /\ extract (snd file) = file_data
         /\ file_data = VDict entries
         /\ class_key file_data = Ok name'
         /\ hkey_eqb name' name = true.
Proof.
  rewrite standalone_loop_of.
  destruct (mapM (class_of_file extract) java_files) as [kvs | e] eqn:E;
    [| discriminate].
  change (fold_left (dict_store hkey_eqb) kvs [])
    with (dict_of hkey_eqb kvs).
  intros H. injection H as <-. split; [| split].
  - intros Hne. apply fold_store_nonempty. left. intros ->.
    apply mapM_ok_length in E. destruct java_files; [congruence | discriminate E].
  - apply dict_of_distinct, hkey_sym.
  - intros name file_data Hin.
    apply (dict_of_in hkey_eqb hkey_refl) in Hin as (name' & Hin & Hk).
    destruct (mapM_in _ _ _ E _ Hin) as (f & Hf & Hc).
    unfold class_of_file in Hc. apply bind_ok in Hc as (k & Hk' & Hc).
    injection Hc as -> <-.
    destruct (class_key_dict _ _ Hk') as (entries & Hd & _).
    exists f, entries, name'. auto.
Qed.

(** X12: the stand-alone [process_directory] returns [None] exactly when
    no target file is found or the extractor output of some found file
    is no dictionary with a hashable [name] ([None] included);
    otherwise it returns a dictionary that is not empty, has no key
    twice, and holds under every key a dictionary that the extractor
    returned for a found file and whose [name] ("Unknown" when it has
    none) equals the key. *)
Theorem standalone_process_directory walk target_files :
  (StandaloneScript.process_directory extract walk target_files = None
   <-> find_java_files walk target_files = []
       \/ exists file e,
            In file (find_java_files walk target_files)
            /\ class_key (extract (snd file)) = Raise e)
  /\ (forall student_data,
         StandaloneScript.process_directory extract walk target_files
         = Some student_data ->
         student_data <> []
         /\ distinct hkey_eqb student_data
         /\ forall name file_data,
              In (name, file_data) student_data ->
              exists file entries name',
                In file (find_java_files walk target_files)
                /\ extract (snd file) = file_data
                /\ file_data = VDict entries
                /\ class_key file_data = Ok name'
                /\ hkey_eqb name' name = true).
Proof.
  unfold StandaloneScript.process_directory.
  destruct (find_java_files walk target_files) as [| file rest] eqn:Hfound.
  { split; [tauto | discriminate]. }
  split.
  - rewrite standalone_loop_none. split; [auto |].
    intros [H | H]; [discriminate H | exact H].
  - intros student_data H.
    destruct (standalone_loop_classes _ _ H) as (Hne & Hd & Hall).
    split; [apply Hne; discriminate | auto].
Qed.

(** The loop of the generated [process_directory] sets the files with a
    parse error aside and treats the other ones as the stand-alone loop
    does. *)
Lemma embedded_loop_of java_files :
  forall result parse_errors,
    EmbeddedScript.directory_loop extract java_files result parse_errors
    = match StandaloneScript.directory_loop extract
              (filter (parsed extract) java_files) result with
      | Some result' =>
          Some (result',
                (parse_errors
                 ++ map fst (filter (parse_error extract) java_files))%list)
      | None => None
      end.
Proof.
  induction java_files as [| [file_name file_path] rest IH];
    intros result parse_errors.
  - cbn. rewrite app_nil_r. reflexivity.
  - assert (Hpe : parse_error extract (file_name, file_path)
                  = py_eq (extract file_path) (VStr "PARSE_ERROR"))
      by reflexivity.
    cbn [EmbeddedScript.directory_loop filter]. unfold parsed at 1.
    rewrite Hpe.
    destruct (py_eq (extract file_path) (VStr "PARSE_ERROR")) eqn:E;
      cbn [negb].
    + rewrite IH. cbn [map fst]. rewrite <- app_assoc. reflexivity.
    + cbn [StandaloneScript.directory_loop].
      destruct (extract file_path); try reflexivity;
        destruct (class_key _); try reflexivity; apply IH.
Qed.
Lemma filter_parsed_all java_files :
  (forall file, In file java_files -> parse_error extract file = false) ->
  filter (parsed extract) java_files = java_files.
Proof.
  induction java_files as [| f r IH]; intros H; [reflexivity |].
  cbn [filter]. unfold parsed at 1. rewrite (H f (or_introl eq_refl)).
  cbn [negb]. f_equal. apply IH. intros f' Hf'. apply H. right. exact Hf'.
Qed.

Lemma filter_nil_iff {A : Type} (keep : A -> bool) (l : list A) :
  filter keep l = [] <-> forall x, In x l -> keep x = false.
Proof.
  split; [| apply filter_none].
  intros H x Hx. destruct (keep x) eqn:E; [| reflexivity].
  assert (Hin : In x (filter keep l)) by (apply filter_In; auto).
  rewrite H in Hin. destruct Hin.
Qed.

(** X13: the [process_directory] of the generated script returns
    ["PARSE_ERROR"] exactly when target files are found and the
    extractor reports a parse error for every one of them; it returns
    [None] exactly when no target file is found or the extractor output
    of some found file is neither a parse error nor a dictionary with a
    hashable [name]; otherwise it returns a dictionary that is not
    empty, has no key twice and holds the classes of the found files
    without parse error: the files with a parse error are left out. *)
Theorem embedded_process_directory walk target_files :
  (EmbeddedScript.process_directory extract walk target_files
   = EmbeddedScript.ParseError
   <-> find_java_files walk target_files <> []
       /\ forall file, In file (find_java_files walk target_files) ->
                       parse_error extract file = true)
  /\ (EmbeddedScript.process_directory extract walk target_files
      = EmbeddedScript.NoData
      <-> find_java_files walk target_files = []
          \/ exists file e,
               In file (find_java_files walk target_files)
               /\ parse_error extract file = false
               /\ class_key (extract (snd file)) = Raise e)
  /\ (forall student_data,
         EmbeddedScript.process_directory extract walk target_files
         = EmbeddedScript.Data student_data ->
         student_data <> []
         /\ distinct hkey_eqb student_data
         /\ forall name file_data,
              In (name, file_data) student_data ->
              exists file entries name',
                In file (find_java_files walk target_files)
                /\ parse_error extract file = false
                /\ extract (snd file) = file_data
                /\ file_data = VDict entries
                /\ class_key file_data = Ok name'
                /\ hkey_eqb name' name = true).
Proof.
  unfold EmbeddedScript.process_directory.
  destruct (find_java_files walk target_files) as [| file rest] eqn:Hfound.
  { split; [| split]; [| tauto | discriminate].
    split; [discriminate | intros (H & _); congruence]. }
  set (java_files := file :: rest). rewrite embedded_loop_of. cbn [app].
  assert (Hpe : forall f, In f (filter (parse_error extract) java_files)
                          <-> In f java_files /\ parse_error extract f = true)
    by (intros f; apply filter_In).
  assert (Hok : forall f, In f (filter (parsed extract) java_files)
                          <-> In f java_files /\ parse_error extract f = false).
  { intros f. rewrite filter_In. unfold parsed. rewrite negb_true_iff.
    reflexivity. }
  destruct (StandaloneScript.directory_loop extract
              (filter (parsed extract) java_files) []) as [d |] eqn:E.
  - destruct (standalone_loop_classes _ _ E) as (Hne & Hd & Hall).
    assert (Hnone : ~ exists f e, In f java_files
                                  /\ parse_error extract f = false
                                  /\ class_key (extract (snd f)) = Raise e).
    { intros (f & e & Hf & Hp & He).
      assert (Hn : StandaloneScript.directory_loop extract
                     (filter (parsed extract) java_files) [] = None)
        by (apply standalone_loop_none; exists f, e; split;
            [apply Hok; auto | exact He]).
      congruence. }
    destruct d as [| kv d'].
    + assert (Hall_pe : forall f, In f java_files ->
                                  parse_error extract f = true).
      { intros f Hf. destruct (parse_error extract f) eqn:Ep; [reflexivity |].
        destruct Hne; [| reflexivity]. intros Hnil.
        assert (Hin : In f (filter (parsed extract) java_files))
          by (apply Hok; auto).
        rewrite Hnil in Hin. destruct Hin. }
      assert (Hfile : In file (filter (parse_error extract) java_files))
        by (apply Hpe; split; [left; reflexivity | apply Hall_pe; left;
                                                   reflexivity]).
      destruct (filter (parse_error extract) java_files) as [| f' r'];
        [destruct Hfile |].
      cbn [map]. split; [| split]; [| | discriminate].
      * split; [intros _; split; [discriminate | exact Hall_pe] | reflexivity].
      * split; [discriminate |].
        intros [H | H]; [discriminate H | destruct (Hnone H)].
    + assert (Hsome : exists f, In f java_files
                                /\ parse_error extract f = false).
      { destruct (Hall (fst kv) (snd kv)) as (f & _ & _ & Hf & _);
          [left; destruct kv; reflexivity |].
        apply Hok in Hf. eauto. }
      destruct (map fst (filter (parse_error extract) java_files));
        (split; [| split]).
      * split; [discriminate |]. intros (_ & Hall_pe).
        destruct Hsome as (f & Hf & Hp). rewrite (Hall_pe f Hf) in Hp.
        discriminate Hp.
      * split; [discriminate |].
        intros [H | H]; [discriminate H | destruct (Hnone H)].
      * intros student_data H. injection H as <-.
        split; [discriminate |]. split; [exact Hd |].
        intros name file_data Hin.
        destruct (Hall name file_data Hin)
          as (f & entries & name' & Hf & H1 & H2 & H3 & H4).
        apply Hok in Hf as (Hf & Hp). exists f, entries, name'. auto 8.
      * split; [discriminate |]. intros (_ & Hall_pe).
        destruct Hsome as (f & Hf & Hp). rewrite (Hall_pe f Hf) in Hp.
        discriminate Hp.
      * split; [discriminate |].
        intros [H | H]; [discriminate H | destruct (Hnone H)].
      * intros student_data H. injection H as <-.
        split; [discriminate |]. split; [exact Hd |].
        intros name file_data Hin.
        destruct (Hall name file_data Hin)
          as (f & entries & name' & Hf & H1 & H2 & H3 & H4).
        apply Hok in Hf as (Hf & Hp). exists f, entries, name'. auto 8.
  - apply standalone_loop_none in E as (f & e & Hf & He).
    apply Hok in Hf as (Hf & Hp).
    split; [| split]; [| | discriminate].
    + split; [discriminate |]. intros (_ & Hall_pe).
      rewrite (Hall_pe f Hf) in Hp. discriminate Hp.
    + split; [| reflexivity]. intros _. right. eauto.
Qed.

(** The two scripts build the same dictionary when no found file has a
    parse error. *)
Lemma process_directory_same walk target_files :
  (forall file, In file (find_java_files walk target_files) ->
                parse_error extract file = false) ->
  EmbeddedScript.process_directory extract walk target_files
  = match StandaloneScript.process_directory extract walk target_files with
    | Some student_data => EmbeddedScript.Data student_data
    | None => EmbeddedScript.NoData
    end.
Proof.
  intros H.
  unfold EmbeddedScript.process_directory, StandaloneScript.process_directory.
  destruct (find_java_files walk target_files) as [| file rest] eqn:Hfound;
    [reflexivity |].
  rewrite embedded_loop_of, (filter_parsed_all _ H).
  rewrite (filter_none (parse_error extract) (file :: rest) H). cbn [app map].
  destruct (StandaloneScript.directory_loop extract (file :: rest) [])
    as [d |] eqn:E; [| reflexivity].
  destruct (standalone_loop_classes _ _ E) as (Hne & _).
  destruct d; [destruct Hne; [discriminate | reflexivity] | reflexivity].
Qed.

Lemma embedded_data_nonempty walk target_files student_data :
  EmbeddedScript.process_directory extract walk target_files
  = EmbeddedScript.Data student_data ->
  student_data <> [].
Proof.
  unfold EmbeddedScript.process_directory.
  destruct (find_java_files walk target_files); [discriminate |].
  destruct (EmbeddedScript.directory_loop _ _ _ _) as [[result errors] |];
    [| discriminate].
  destruct errors, result; try discriminate;
    intros H; injection H as <-; discriminate.
Qed.


(** X14: when the extractor reports no parse error for the found
    files, the two scripts build the same dictionary from the same
    extractor outputs, and the one returns [None] when the other
    does. *)
Theorem process_directory_agree walk target_files :
  (forall file, In file (find_java_files walk target_files) ->
                parse_error extract file = false) ->
  EmbeddedScript.process_directory extract walk target_files
  = match StandaloneScript.process_directory extract walk target_files with
    | Some student_data => EmbeddedScript.Data student_data
    | None => EmbeddedScript.NoData
    end.
Proof.
  apply process_directory_same.
Qed.
End Directory.

Lemma sample_parsed file :
  In file (find_java_files sample_walk sample_targets) ->
  parse_error sample_extract file = false.
Proof.
  vm_compute. intros [<- | [<- | []]]; reflexivity.
Qed.

Lemma process_directory_agree_witness :
  (forall file, In file (find_java_files sample_walk sample_targets) ->
                parse_error sample_extract file = false)
  /\ EmbeddedScript.process_directory sample_extract sample_walk sample_targets
     = EmbeddedScript.Data
         [(HStr "Foo", class_of "Foo" [] [] [] [] []);
          (HStr "Bar", class_of "Bar" [] [] [] [] [])].
Proof.
  split; [exact sample_parsed |].
  rewrite (process_directory_agree sample_extract sample_walk sample_targets
             sample_parsed).
  reflexivity.
Defined.

(** ** Grading a submission *)

Lemma compare_uml_data_follows ref_data student_data ds :
  compare_uml_data Standalone ref_data student_data = Ok ds ->
  exists ds',
    compare_uml_data Embedded ref_data student_data = Ok ds'
    /\ condensed ds ds'.
Proof.
  unfold compare_uml_data. intros H. apply bind_ok in H as (ref & -> & H).
  cbn [bind]. apply compare_corpora_follows, H.
Qed.





Lemma mapM_raise_in {A B : Type} (f : A -> result B) (l : list A) x e :
  In x l -> f x = Raise e -> exists e', mapM f l = Raise e'.
Proof.
  induction l as [| y r IH]; intros Hin Hx; [destruct Hin |].
  cbn [mapM]. destruct (f y) as [b | e1] eqn:Ey; cbn [bind]; [| eauto].
  destruct Hin as [-> | Hin]; [congruence |].
  destruct (IH Hin Hx) as (e' & ->). cbn [bind]. eauto.
Qed.

(** X16: when the comparison of a submission raises an exception in the
    generated script, that script gives the submission an ERROR row
    that reports the exception, and goes on; the stand-alone script,
    for the same extractor outputs (none of them a parse error), ends
    the whole run with an exception, before any row is written. *)
Theorem failing_submission extract str_of_exn ref_data lines submissions s
    student_data e :
  In s submissions ->
  extracted s = true ->
  (forall file,
      In file (find_java_files (extract_dir s) (read_target_files lines)) ->
      parse_error extract file = false) ->
  EmbeddedScript.process_directory extract (extract_dir s)
    (read_target_files lines) = EmbeddedScript.Data student_data ->
  compare_uml_data Embedded ref_data student_data = Raise e ->
  EmbeddedScript.grade extract str_of_exn ref_data (read_target_files lines) s
  = (student_id s, "ERROR", "Processing failed: " ++ str_of_exn e)
  /\ exists e',
      StandaloneScript.process_student_submissions extract ref_data lines
        submissions = Raise e'.
Proof.
  intros Hin Hx Hp Hd He.
  pose proof (embedded_data_nonempty extract _ _ _ Hd) as Hne.
  split.
  - unfold EmbeddedScript.grade. rewrite Hx, Hd.
    destruct student_data; [congruence |]. rewrite He. reflexivity.
  - unfold StandaloneScript.process_student_submissions. cbv zeta.
    assert (Hs : exists e1,
               StandaloneScript.grade extract ref_data (read_target_files lines) s
               = Raise e1).
    { unfold StandaloneScript.grade. rewrite Hx.
      rewrite (process_directory_same extract _ _ Hp) in Hd.
      destruct (StandaloneScript.process_directory extract (extract_dir s)
                  (read_target_files lines)) as [d |]; [| discriminate Hd].
      injection Hd as ->. destruct student_data; [congruence |].
      destruct (compare_uml_data Standalone ref_data (p :: student_data))
        as [ds | e1] eqn:E; [| cbn [bind]; eauto].
      apply compare_uml_data_follows in E as (ds' & E & _). congruence. }
    destruct Hs as (e1 & Hs).
    destruct (mapM_raise_in _ _ _ _ Hin Hs) as (e' & ->). cbn [bind]. eauto.
Qed.

Lemma failing_submission_witness :
  In sample_submission [sample_submission]
  /\ extracted sample_submission = true
  /\ (forall file,
         In file (find_java_files (extract_dir sample_submission)
                    (read_target_files ["Foo.java"; "Bar.java"])) ->
         parse_error sample_extract file = false)
  /\ compare_uml_data Embedded VNone
       [(HStr "Foo", class_of "Foo" [] [] [] [] []);
        (HStr "Bar", class_of "Bar" [] [] [] [] [])] = Raise TypeError
  /\ EmbeddedScript.grade sample_extract (fun _ => "'NoneType' object is not iterable")
       VNone (read_target_files ["Foo.java"; "Bar.java"]) sample_submission
     = ("s01", "ERROR", "Processing failed: 'NoneType' object is not iterable")
  /\ exists e',
      StandaloneScript.process_student_submissions sample_extract VNone
        ["Foo.java"; "Bar.java"] [sample_submission] = Raise e'.
Proof.
  split; [left; reflexivity |]. split; [reflexivity |].
  split; [exact sample_parsed |]. split; [reflexivity |].
  apply (failing_submission sample_extract
           (fun _ => "'NoneType' object is not iterable") VNone
           ["Foo.java"; "Bar.java"] [sample_submission] sample_submission
           [(HStr "Foo", class_of "Foo" [] [] [] [] []);
            (HStr "Bar", class_of "Bar" [] [] [] [] [])] TypeError).
  - left. reflexivity.
  - reflexivity.
  - exact sample_parsed.
  - reflexivity.
  - reflexivity.
Defined.

(** ** The rows of a run *)

Lemma insert_row_perm x l : Permutation (insert_row x l) (x :: l).
Proof.
  induction l as [| y r IH]; cbn [insert_row]; [reflexivity |].
  destruct (String.ltb (fst (fst x)) (fst (fst y))); [reflexivity |].
  rewrite IH. apply perm_swap.
Qed.

Lemma sort_rows_perm results : Permutation (sort_rows results) results.
Proof.
  unfold sort_rows.
  assert (H : forall l acc,
             Permutation (fold_left (fun sorted_rows x => insert_row x sorted_rows)
                            l acc) (acc ++ l)).
  { induction l as [| x r IH]; intros acc; cbn [fold_left].
    - rewrite app_nil_r. reflexivity.
    - rewrite IH, insert_row_perm. apply Permutation_middle. }
  apply (H results []).
Qed.

Lemma insert_row_sorted x l : Sorted row_le l -> Sorted row_le (insert_row x l).
Proof.
  induction 1 as [| y r Hr IH Hy]; cbn [insert_row].
  - repeat constructor.
  - destruct (String.ltb (fst (fst x)) (fst (fst y))) eqn:E.
    + constructor; [constructor; assumption |]. constructor.
      unfold row_le. apply ltb_asym, E.
    + constructor; [exact IH |].
      destruct r as [| z r']; cbn [insert_row].
      * constructor. exact E.
      * destruct (String.ltb (fst (fst x)) (fst (fst z)));
          constructor; [exact E |].
        inversion Hy. assumption.
Qed.

Lemma sort_rows_sorted results : Sorted row_le (sort_rows results).
Proof.
  unfold sort_rows.
  assert (H : forall l acc,
             Sorted row_le acc ->
             Sorted row_le (fold_left (fun sorted_rows x => insert_row x sorted_rows)
                              l acc)).
  { induction l as [| x r IH]; intros acc Hacc; cbn [fold_left];
      [exact Hacc |].
    apply IH, insert_row_sorted, Hacc. }
  apply H. constructor.
Qed.

(** X17: the rows of a run are in ascending order of the identifier.
    The generated script writes one row for every submission; the
    stand-alone script writes one row for every submission unless the
    run ends with an exception.  With no jar the generated script
    writes nothing and reports a failure. *)
Theorem rows_of_a_run extract str_of_exn ref_data lines submissions :
  (forall rows,
      EmbeddedScript.process_submissions extract str_of_exn ref_data lines
        submissions = Some rows ->
      Sorted row_le rows
      /\ Permutation rows
           (map (EmbeddedScript.grade extract str_of_exn ref_data
                   (read_target_files lines)) submissions))
  /\ (EmbeddedScript.process_submissions extract str_of_exn ref_data lines
        submissions = None <-> submissions = [])
  /\ (forall rows,
         StandaloneScript.process_student_submissions extract ref_data lines
           submissions = Ok rows ->
         Sorted row_le rows
         /\ exists results,
             mapM (StandaloneScript.grade extract ref_data
                     (read_target_files lines)) submissions = Ok results
             /\ Permutation rows results
             /\ List.length rows = List.length submissions).
Proof.
  split; [| split].
  - unfold EmbeddedScript.process_submissions. cbv zeta.
    destruct submissions as [| s rest]; [discriminate |].
    intros rows H. injection H as <-.
    split; [apply sort_rows_sorted | apply sort_rows_perm].
  - unfold EmbeddedScript.process_submissions.
    destruct submissions; split; try reflexivity; discriminate.
  - unfold StandaloneScript.process_student_submissions. cbv zeta.
    intros rows H. apply bind_ok in H as (results & Hr & H). injection H as <-.
    split; [apply sort_rows_sorted |]. exists results.
    split; [exact Hr |]. split; [apply sort_rows_perm |].
    rewrite (Permutation_length (sort_rows_perm results)).
    apply (mapM_ok_length _ _ _ Hr).
Qed.

(** ** The solution *)

Section Solution.
Variable extract : string -> value.

Lemma solution_files_met target_files root files :
  forall results,
    EmbeddedScript.solution_files extract target_files root files results
    = (results
       ++ filter solution_data
            (map (fun name => extract (os_path_join root name))
               (filter (is_target target_files) files)))%list.
Proof.
  unfold EmbeddedScript.solution_files.
  induction files as [| name rest IH]; intros results; cbn [fold_left filter].
  - rewrite app_nil_r. reflexivity.
  - rewrite IH. destruct (is_target target_files name); [| reflexivity].
    cbn [map filter]. unfold solution_data at 2.
    destruct (truthy _ && negb _); [| reflexivity].
    rewrite <- app_assoc. reflexivity.
Qed.

Lemma generate_solution_json_met ref_walk lines :
  EmbeddedScript.generate_solution_json extract ref_walk lines
  = match filter solution_data
            (classes_of extract
               (targets_met ref_walk (read_target_files lines))) with
    | [] => None
    | c :: r => Some (c :: r)
    end.
Proof.
  unfold EmbeddedScript.generate_solution_json. cbv zeta.
  set (target_files := read_target_files lines).
  assert (H : forall walk results,
             fold_left
               (fun results (entry : walk_entry) =>
                  let '(root, _, files) := entry in
                  EmbeddedScript.solution_files extract target_files root files
                    results) walk results
             = (results
                ++ filter solution_data
                     (classes_of extract (targets_met walk target_files)))%list).
  { induction walk as [| [[root dirs] files] rest IH]; intros results;
      cbn [fold_left].
    - cbn. rewrite app_nil_r. reflexivity.
    - rewrite IH, solution_files_met. unfold classes_of, targets_met.
      cbn [flat_map]. rewrite map_app, filter_app, map_map, <- app_assoc.
      reflexivity. }
  rewrite H. cbn [app].
  destruct (filter solution_data _); reflexivity.
Qed.

(** X18: [solution.json] holds exactly the extractor outputs of the
    target files met in the walk of the reference directory, every
    directory counting, that are neither falsy ([None], an empty
    dictionary, ...) nor the parse-error marker; when there is none,
    nothing is written and [generate_solution_json] reports a failure. *)
Theorem solution_json_content ref_walk lines :
  (forall solution,
      EmbeddedScript.generate_solution_json extract ref_walk lines
      = Some solution ->
      solution <> []
      /\ forall data,
           In data solution
           <-> truthy data = true
               /\ py_eq data (VStr "PARSE_ERROR") = false
               /\ exists root dirs files name,
                    In (root, dirs, files) ref_walk /\ In name files
                    /\ In name (read_target_files lines)
                    /\ data = extract (os_path_join root name))
  /\ (EmbeddedScript.generate_solution_json extract ref_walk lines = None
      <-> forall root dirs files name,
            In (root, dirs, files) ref_walk -> In name files ->
            In name (read_target_files lines) ->
            solution_data (extract (os_path_join root name)) = false).
Proof.
  rewrite generate_solution_json_met.
  set (target_files := read_target_files lines).
  assert (Hin : forall data,
             In data (filter solution_data
                        (classes_of extract (targets_met ref_walk target_files)))
             <-> truthy data = true
                 /\ py_eq data (VStr "PARSE_ERROR") = false
                 /\ exists root dirs files name,
                      In (root, dirs, files) ref_walk /\ In name files
                      /\ In name target_files
                      /\ data = extract (os_path_join root name)).
  { intros data. rewrite filter_In. unfold classes_of, solution_data.
    rewrite in_map_iff, andb_true_iff, negb_true_iff. split.
    - intros (([name path] & <- & Hf) & Ht & Hp).
      apply targets_met_in in Hf as (Hn & root & dirs & files & Hw & Hf & ->).
      apply is_target_in in Hn. cbn [snd] in *. eauto 12.
    - intros (Ht & Hp & root & dirs & files & name & Hw & Hf & Hn & ->).
      split; [| auto]. exists (name, os_path_join root name).
      split; [reflexivity |]. apply targets_met_in.
      split; [apply is_target_in, Hn | eauto 8]. }
  destruct (filter solution_data
              (classes_of extract (targets_met ref_walk target_files)))
    as [| c r] eqn:E.
  - split; [discriminate |]. split; [| reflexivity]. intros _.
    intros root dirs files name Hw Hf Hn.
    destruct (solution_data (extract (os_path_join root name))) eqn:Es;
      [| reflexivity].
    unfold solution_data in Es. apply andb_true_iff in Es as (Ht & Hp).
    apply negb_true_iff in Hp.
    destruct (proj2 (Hin (extract (os_path_join root name)))).
    split; [exact Ht |]. split; [exact Hp |]. eauto 8.
  - split.
    + intros solution H. injection H as <-. split; [discriminate | exact Hin].
    + split; [discriminate |]. intros H. exfalso.
      destruct (proj1 (Hin c) (or_introl eq_refl))
        as (Ht & Hp & root & dirs & files & name & Hw & Hf & Hn & ->).
      specialize (H root dirs files name Hw Hf Hn). unfold solution_data in H.
      rewrite Ht, Hp in H. discriminate H.
Qed.
End Solution.

(** ** A submission that holds the classes of the reference *)











Section SelfGrading.
Variable extract : string -> value.
Variable str_of_exn : exn -> string.





End SelfGrading.


(** ** The identifier of a submission *)

Lemma append_assoc a b c : (a ++ b) ++ c = a ++ b ++ c.
Proof.
  induction a as [| x a IH]; cbn [append]; [reflexivity |].
  rewrite IH. reflexivity.
Qed.

Lemma length_append a b :
  String.length (a ++ b) = String.length a + String.length b.
Proof.
  induction a as [| x a IH]; cbn [append String.length]; [reflexivity |].
  rewrite IH. reflexivity.
Qed.

Lemma rfind_bounds c s : (-1 <= rfind c s < Z.of_nat (String.length s))%Z.
Proof.
  induction s as [| d r IH]; cbn [rfind String.length]; [lia |].
  destruct (Z.leb_spec 0 (rfind c r)); [lia |].
  destruct (Ascii.eqb c d); lia.
Qed.

Lemma rfind_absent c s : mem_char c s = false -> rfind c s = (-1)%Z.
Proof.
  induction s as [| d r IH]; cbn [rfind mem_char]; [reflexivity |].
  intros H. apply orb_false_iff in H as (Hd & Hr). rewrite (IH Hr), Hd.
  reflexivity.
Qed.

Lemma rfind_app c s w :
  rfind c (s ++ w)
  = if Z.leb 0 (rfind c w) then (Z.of_nat (String.length s) + rfind c w)%Z
    else rfind c s.
Proof.
  induction s as [| d r IH]; cbn [append rfind String.length].
  - pose proof (rfind_bounds c w).
    destruct (Z.leb_spec 0 (rfind c w)); [lia | lia].
  - rewrite IH. pose proof (rfind_bounds c w). pose proof (rfind_bounds c r).
    destruct (Z.leb_spec 0 (rfind c w)).
    + destruct (Z.leb_spec 0 (Z.of_nat (String.length r) + rfind c w)); lia.
    + reflexivity.
Qed.

Lemma substring_prefix s w : substring 0 (String.length s) (s ++ w) = s.
Proof.
  induction s as [| c r IH]; cbn [append String.length substring].
  - destruct w; reflexivity.
  - rewrite IH. reflexivity.
Qed.

Lemma substring_skip s w n :
  substring (String.length s) n (s ++ w) = substring 0 n w.
Proof.
  induction s as [| c r IH]; cbn [append String.length substring];
    [reflexivity | exact IH].
Qed.

Lemma replace_char_app old new a b :
  replace_char old new (a ++ b)
  = replace_char old new a ++ replace_char old new b.
Proof.
  induction a as [| c r IH]; cbn [append replace_char]; [reflexivity |].
  rewrite IH. reflexivity.
Qed.

Lemma replace_char_absent old new s :
  mem_char old s = false -> replace_char old new s = s.
Proof.
  induction s as [| c r IH]; cbn [mem_char replace_char]; [reflexivity |].
  intros H. apply orb_false_iff in H as (Hc & Hr).
  rewrite Ascii.eqb_sym, Hc, (IH Hr). reflexivity.
Qed.

Lemma replace_char_gone old new s :
  Ascii.eqb new old = false -> mem_char old (replace_char old new s) = false.
Proof.
  intros Hn. induction s as [| c r IH]; cbn [mem_char replace_char];
    [reflexivity |].
  rewrite IH, orb_false_r.
  destruct (Ascii.eqb c old) eqn:E.
  - rewrite Ascii.eqb_sym. exact Hn.
  - rewrite Ascii.eqb_sym. exact E.
Qed.

Lemma mem_char_app c a b : mem_char c (a ++ b) = mem_char c a || mem_char c b.
Proof.
  induction a as [| d r IH]; cbn [append mem_char]; [reflexivity |].
  rewrite IH, orb_assoc. reflexivity.
Qed.

(** The root of a path [prefix ++ name ++ "." ++ ext] whose last
    separator, if any, ends [prefix]. *)
Lemma splitext_root_of prefix name ext :
  (rfind "/" prefix + 1)%Z = Z.of_nat (String.length prefix) ->
  mem_char "/" name = false ->
  forallb (Ascii.eqb ".") (list_ascii_of_string name) = false ->
  mem_char "." ext = false -> mem_char "/" ext = false ->
  splitext_root (prefix ++ name ++ "." ++ ext) = prefix ++ name.
Proof.
  intros Hprefix Hname Hdots Hext1 Hext2. unfold splitext_root.
  assert (Hsep : rfind "/" (prefix ++ name ++ "." ++ ext)
                 = rfind "/" prefix).
  { rewrite rfind_app, rfind_app.
    rewrite (rfind_absent "/" ("." ++ ext)) by exact Hext2.
    rewrite (rfind_absent "/" name Hname). reflexivity. }
  assert (Hdot : rfind "." (prefix ++ name ++ "." ++ ext)
                 = Z.of_nat (String.length (prefix ++ name))).
  { replace (prefix ++ name ++ "." ++ ext)
      with ((prefix ++ name) ++ "." ++ ext)
      by apply append_assoc.
    rewrite rfind_app. cbn [append rfind].
    rewrite (rfind_absent "." ext Hext1), Ascii.eqb_refl.
    change (Z.leb 0 (-1)) with false. cbv iota.
    change (Z.leb 0 0) with true. cbv iota. lia. }
  rewrite Hsep, Hdot. cbv zeta.
  rewrite length_append in *.
  pose proof (rfind_bounds "/" prefix).
  assert (Hlt : Z.ltb (rfind "/" prefix)
                  (Z.of_nat (String.length prefix + String.length name)) = true)
    by (apply Z.ltb_lt; lia).
  rewrite Hlt. cbn [andb]. unfold slice. rewrite Hprefix.
  replace (Z.to_nat (Z.of_nat (String.length prefix + String.length name)
                     - Z.of_nat (String.length prefix)))
    with (String.length name) by lia.
  rewrite Nat2Z.id, substring_skip.
  replace (name ++ "." ++ ext) with (name ++ ("." ++ ext)) by reflexivity.
  rewrite substring_prefix, Hdots. cbn [negb].
  replace (Z.to_nat (Z.of_nat (String.length prefix + String.length name) - 0))
    with (String.length (prefix ++ name))
    by (rewrite length_append; lia).
  change (Z.to_nat 0) with 0.
  replace (prefix ++ name ++ "." ++ ext)
    with ((prefix ++ name) ++ "." ++ ext)
    by apply append_assoc.
  apply substring_prefix.
Qed.

Lemma rfind_last s : (rfind "/" (s ++ "/") + 1)%Z
                     = Z.of_nat (String.length (s ++ "/")).
Proof.
  rewrite rfind_app, length_append. cbn [rfind String.length].
  rewrite Ascii.eqb_refl. change (Z.leb 0 (-1)) with false. cbv iota.
  change (Z.leb 0 0) with true. cbv iota. lia.
Qed.

Lemma stem_spec name :
  stem name = true ->
  mem_char "/" name = false
  /\ forallb (Ascii.eqb ".") (list_ascii_of_string name) = false.
Proof.
  unfold stem. rewrite andb_true_iff, !negb_true_iff. auto.
Qed.

Lemma extension_spec ext :
  extension ext = true -> mem_char "." ext = false /\ mem_char "/" ext = false.
Proof.
  unfold extension. rewrite andb_true_iff, !negb_true_iff. auto.
Qed.

Lemma student_id_of_file name ext :
  stem name = true -> extension ext = true ->
  student_id_of (name ++ "." ++ ext) = name.
Proof.
  intros Hn He. apply stem_spec in Hn as (Hn1 & Hn2).
  apply extension_spec in He as (He1 & He2). unfold student_id_of.
  change (name ++ "." ++ ext) with ("" ++ name ++ "." ++ ext).
  rewrite (splitext_root_of "" name ext) by (assumption || reflexivity).
  apply replace_char_absent, Hn1.
Qed.

Lemma student_id_of_nested dir name ext :
  stem name = true -> extension ext = true ->
  student_id_of (dir ++ "/" ++ name ++ "." ++ ext)
  = replace_char "/" "_" dir ++ "_" ++ name.
Proof.
  intros Hn He. apply stem_spec in Hn as (Hn1 & Hn2).
  apply extension_spec in He as (He1 & He2). unfold student_id_of.
  replace (dir ++ "/" ++ name ++ "." ++ ext)
    with ((dir ++ "/") ++ name ++ "." ++ ext) by apply append_assoc.
  rewrite (splitext_root_of (dir ++ "/") name ext)
    by (assumption || apply rfind_last).
  rewrite !replace_char_app, (replace_char_absent _ _ name Hn1).
  rewrite append_assoc. cbn [replace_char]. rewrite Ascii.eqb_refl.
  reflexivity.
Qed.

Lemma stem_joined dir name :
  mem_char "/" dir = false -> stem name = true ->
  stem (dir ++ "_" ++ name) = true.
Proof.
  intros Hd Hn. apply stem_spec in Hn as (Hn1 & Hn2). unfold stem.
  rewrite !mem_char_app, Hd, Hn1. cbn [mem_char orb negb andb].
  assert (H : forall a b,
             forallb (Ascii.eqb ".") (list_ascii_of_string (a ++ b))
             = forallb (Ascii.eqb ".") (list_ascii_of_string a)
               && forallb (Ascii.eqb ".") (list_ascii_of_string b)).
  { induction a as [| c r IH]; intros b; cbn [append list_ascii_of_string forallb];
      [reflexivity |].
    rewrite IH, andb_assoc. reflexivity. }
  rewrite H. cbn [append list_ascii_of_string forallb].
  destruct (Ascii.eqb_spec "." "_") as [E | _]; [discriminate E |].
  cbn [andb]. rewrite andb_false_r. reflexivity.
Qed.

(** X20: the identifier of a submission holds no path separator.  For a
    jar [name.ext] directly in the directory of the submissions it is
    [name]; for a jar [dir/name.ext] it is [dir], with every separator
    replaced by an underscore, then an underscore and [name].  So the
    jars [dir/name.ext] and [dir_name.ext] get the same identifier.
    Here [name] has a character other than the dot.  Both scripts. *)
Theorem student_id_of_jar :
  (forall rel_path, mem_char "/" (student_id_of rel_path) = false)
  /\ (forall name ext,
         stem name = true -> extension ext = true ->
         student_id_of (name ++ "." ++ ext) = name)
  /\ (forall dir name ext,
         stem name = true -> extension ext = true ->
         student_id_of (dir ++ "/" ++ name ++ "." ++ ext)
         = replace_char "/" "_" dir ++ "_" ++ name)
  /\ (forall dir name ext,
         mem_char "/" dir = false ->
         stem name = true -> extension ext = true ->
         student_id_of (dir ++ "/" ++ name ++ "." ++ ext)
         = student_id_of (dir ++ "_" ++ name ++ "." ++ ext)).
Proof.
  split; [| split; [| split]].
  - intros rel_path. apply replace_char_gone. reflexivity.
  - apply student_id_of_file.
  - apply student_id_of_nested.
  - intros dir name ext Hd Hn He.
    rewrite (student_id_of_nested dir name ext Hn He).
    replace (dir ++ "_" ++ name ++ "." ++ ext)
      with ((dir ++ "_" ++ name) ++ "." ++ ext)
      by (rewrite !append_assoc; reflexivity).
    rewrite (student_id_of_file _ ext (stem_joined dir name Hd Hn) He).
    rewrite (replace_char_absent _ _ dir Hd). reflexivity.
Qed.

(** ** The verdict PASS as an equivalence *)

Section KeyedPass.
Context {K : Type}.
Variable key_of : value -> result K.
Variable keqb : K -> K -> bool.
Variable strs : K -> bool.
Variable missing extra : string -> K -> string.
Variable item_path : string -> K -> result string.
Variable compare : value -> differ.
Hypothesis keqb_refl : forall a, keqb a a = true.
Hypothesis keqb_sym : forall a b, keqb a b = keqb b a.
Hypothesis strs_eq : forall a b, strs a = true -> keqb a b = true -> a = b.

Lemma keyed_loop_pass ref_map stu_map path :
  keyed_loop_by keqb missing item_path compare ref_map stu_map path = Ok []
  <-> forall k v,
        In (k, v) ref_map ->
        exists w p,
          dict_get keqb k stu_map = Some w /\ item_path path k = Ok p
          /\ compare v w p = Ok [].
Proof.
  induction ref_map as [| [sig m] rest IH]; cbn [keyed_loop_by].
  - split; [intros _ ? ? [] | reflexivity].
  - split.
    + intros H. apply bind_ok in H as (d & Hd & H).
      apply bind_ok in H as (ds & Hds & H). injection H as H.
      apply app_eq_nil in H as (-> & ->).
      intros k v [Heq | Hin]; [| apply (proj1 IH Hds), Hin].
      injection Heq as <- <-.
      destruct (dict_get keqb sig stu_map) as [w |]; [| discriminate Hd].
      apply bind_ok in Hd as (p & Hp & Hd). eauto.
    + intros H.
      destruct (H sig m (or_introl eq_refl)) as (w & p & -> & -> & Hc).
      cbn [bind]. rewrite Hc. cbn [bind]. rewrite (proj2 IH); [reflexivity |].
      intros k v Hin. apply H. right. exact Hin.
Qed.

Lemma keyed_stu_loop_pass (ref_map stu_map : list (K * value)) path :
  keyed_stu_loop keqb extra ref_map stu_map path = []
  <-> forall k w, In (k, w) stu_map -> dict_mem keqb k ref_map = true.
Proof.
  unfold keyed_stu_loop. split.
  - intros H k w Hin. apply map_eq_nil in H.
    destruct (dict_mem keqb k ref_map) eqn:E; [reflexivity |].
    assert (Hf : In (k, w) (filter (fun kv => negb (dict_mem keqb (fst kv)
                                                      ref_map)) stu_map))
      by (apply filter_In; cbn [fst]; rewrite E; auto).
    rewrite H in Hf. destruct Hf.
  - intros H. rewrite filter_none; [reflexivity |].
    intros [k w] Hin. cbn [fst]. rewrite (H k w Hin). reflexivity.
Qed.

Lemma compare_keyed_pass ref_items stu_items path ref_map stu_map :
  keyed_map key_of keqb (fun m => m) ref_items = Ok ref_map ->
  keyed_map key_of keqb (fun m => m) stu_items = Ok stu_map ->
  compare_keyed_by key_of keqb missing extra item_path compare ref_items
    stu_items path = Ok []
  <-> (forall k v,
          In (k, v) ref_map ->
          exists w p,
            dict_get keqb k stu_map = Some w /\ item_path path k = Ok p
            /\ compare v w p = Ok [])
      /\ (forall k w, In (k, w) stu_map -> dict_mem keqb k ref_map = true).
Proof.
  intros Hr Hs. unfold compare_keyed_by. rewrite Hr, Hs. cbn [bind].
  rewrite <- keyed_loop_pass, <- (keyed_stu_loop_pass ref_map stu_map path).
  split.
  - intros H. apply bind_ok in H as (first & Hf & H). injection H as H.
    apply app_eq_nil in H as (-> & H). auto.
  - intros (-> & H). cbn [bind]. rewrite H. reflexivity.
Qed.

Lemma compare_keyed_sym path ref_items stu_items :
  forallb (keyed_item_ok key_of strs item_path valid path) ref_items = true ->
  forallb (keyed_item_ok key_of strs item_path valid path) stu_items = true ->
  Forall (fun v => forall w p, valid v p = true -> valid w p = true ->
                               compare v w p = Ok [] -> compare w v p = Ok [])
         ref_items ->
  compare_keyed_by key_of keqb missing extra item_path compare ref_items
    stu_items path = Ok [] ->
  compare_keyed_by key_of keqb missing extra item_path compare stu_items
    ref_items path = Ok [].
Proof.
  intros Hr Hs Hall H.
  destruct (keyed_map_valid key_of keqb strs item_path keqb_refl keqb_sym
              strs_eq _ _ Hr) as (rm & Hrm & Hrd & Hrin).
  destruct (keyed_map_valid key_of keqb strs item_path keqb_refl keqb_sym
              strs_eq _ _ Hs) as (sm & Hsm & Hsd & Hsin).
  destruct (proj1 (compare_keyed_pass ref_items stu_items path rm sm Hrm Hsm) H)
    as (Hloop & Hextra).
  apply (compare_keyed_pass stu_items ref_items path sm rm Hsm Hrm). split.
  - intros k w Hin.
    destruct (Hsin _ _ Hin) as (_ & _ & Hk & p & Hp & Hw).
    pose proof (Hextra k w Hin) as Hmem. unfold dict_mem in Hmem.
    destruct (dict_get keqb k rm) as [v |] eqn:Hg; [| discriminate Hmem].
    exists v, p. split; [reflexivity |]. split; [exact Hp |].
    apply dict_get_in in Hg as (k' & Hv & Hkk).
    apply (strs_eq k k' Hk) in Hkk as <-.
    destruct (Hloop k v Hv) as (w' & p' & Hg' & Hp' & Hc).
    rewrite (distinct_get keqb keqb_refl keqb_sym k w sm Hsd Hin) in Hg'.
    injection Hg' as <-. rewrite Hp in Hp'. injection Hp' as <-.
    destruct (Hrin _ _ Hv) as (Hvin & _ & _ & p' & Hp' & Hvalid).
    rewrite Hp in Hp'. injection Hp' as <-.
    rewrite Forall_forall in Hall. apply (Hall v Hvin); assumption.
  - intros k v Hin. destruct (Hloop k v Hin) as (w & p & Hg & _).
    unfold dict_mem. rewrite Hg. reflexivity.
Qed.

Lemma compare_keyed_trans path ref_items stu_items third :
  forallb (keyed_item_ok key_of strs item_path valid path) ref_items = true ->
  forallb (keyed_item_ok key_of strs item_path valid path) stu_items = true ->
  forallb (keyed_item_ok key_of strs item_path valid path) third = true ->
  Forall (fun v => forall w u p,
              valid v p = true -> valid w p = true -> valid u p = true ->
              compare v w p = Ok [] -> compare w u p = Ok [] ->
              compare v u p = Ok [])
         ref_items ->
  compare_keyed_by key_of keqb missing extra item_path compare ref_items
    stu_items path = Ok [] ->
  compare_keyed_by key_of keqb missing extra item_path compare stu_items
    third path = Ok [] ->
  compare_keyed_by key_of keqb missing extra item_path compare ref_items
    third path = Ok [].
Proof.
  intros Hr Hs Ht Hall H1 H2.
  destruct (keyed_map_valid key_of keqb strs item_path keqb_refl keqb_sym
              strs_eq _ _ Hr) as (rm & Hrm & Hrd & Hrin).
  destruct (keyed_map_valid key_of keqb strs item_path keqb_refl keqb_sym
              strs_eq _ _ Hs) as (sm & Hsm & Hsd & Hsin).
  destruct (keyed_map_valid key_of keqb strs item_path keqb_refl keqb_sym
              strs_eq _ _ Ht) as (tm & Htm & Htd & Htin).
  destruct (proj1 (compare_keyed_pass ref_items stu_items path rm sm Hrm Hsm) H1)
    as (Hloop1 & Hextra1).
  destruct (proj1 (compare_keyed_pass stu_items third path sm tm Hsm Htm) H2)
    as (Hloop2 & Hextra2).
  apply (compare_keyed_pass ref_items third path rm tm Hrm Htm). split.
  - intros k v Hin.
    destruct (Hrin _ _ Hin) as (Hvin & _ & Hk & p & Hp & Hv).
    destruct (Hloop1 k v Hin) as (w & p1 & Hg1 & Hp1 & Hc1).
    rewrite Hp in Hp1. injection Hp1 as <-.
    apply dict_get_in in Hg1 as (k' & Hw & Hkk).
    apply (strs_eq k k' Hk) in Hkk as <-.
    destruct (Hloop2 k w Hw) as (u & p2 & Hg2 & Hp2 & Hc2).
    rewrite Hp in Hp2. injection Hp2 as <-.
    exists u, p. split; [exact Hg2 |]. split; [exact Hp |].
    destruct (Hsin _ _ Hw) as (_ & _ & _ & p' & Hp' & Hwv).
    rewrite Hp in Hp'. injection Hp' as <-.
    pose proof Hg2 as Hg2'.
    apply dict_get_in in Hg2' as (k' & Hu & Hkk).
    apply (strs_eq k k' Hk) in Hkk as <-.
    destruct (Htin _ _ Hu) as (_ & _ & _ & p' & Hp' & Huv).
    rewrite Hp in Hp'. injection Hp' as <-.
    rewrite Forall_forall in Hall. apply (Hall v Hvin w u p); assumption.
  - intros k u Hin.
    destruct (Htin _ _ Hin) as (_ & _ & Hk & _).
    pose proof (Hextra2 k u Hin) as Hmem. unfold dict_mem in Hmem.
    destruct (dict_get keqb k sm) as [w |] eqn:Hg; [| discriminate Hmem].
    apply dict_get_in in Hg as (k' & Hw & Hkk).
    apply (strs_eq k k' Hk) in Hkk as <-.
    apply (Hextra1 k w Hw).
Qed.
End KeyedPass.

Lemma pass_same_type sc v w path :
  compare_values sc v w path = Ok [] -> type_name v = type_name w.
Proof.
  intros H. destruct (string_dec (type_name v) (type_name w)) as [E | E];
    [exact E |].
  rewrite compare_values_mismatch in H by exact E. discriminate H.
Qed.

Lemma scalar_pass sc v w path :
  scalar v = true -> compare_values sc v w path = Ok [] -> v = w.
Proof.
  intros Hs H. pose proof (pass_same_type _ _ _ _ H) as Ht.
  rewrite compare_values_scalar in H by assumption.
  destruct (py_eq v w) eqn:E; [| discriminate H].
  apply (py_eq_scalar v w Hs Ht), E.
Qed.

Lemma valid_elements_nth items :
  forall i path j x,
    valid_elements items i path = true -> nth_error items j = Some x ->
    valid x (path ++ "[" ++ str_of_nat (i + j) ++ "]") = true.
Proof.
  induction items as [| y r IH]; intros i path [| j] x; cbn; try discriminate.
  - rewrite andb_true_iff. intros (H & _) Hx. injection Hx as <-.
    rewrite Nat.add_0_r. exact H.
  - rewrite andb_true_iff. intros (_ & H) Hx. rewrite Nat.add_succ_r.
    apply (IH (S i) path j x H Hx).
Qed.

Lemma valid_entry (entries : list (string * value)) path key v :
  forallb (fun kv => valid (snd kv) (path ++ "." ++ fst kv)) entries = true ->
  In (key, v) entries -> valid v (path ++ "." ++ key) = true.
Proof.
  intros H Hin. rewrite forallb_forall in H. apply (H (key, v) Hin).
Qed.

Lemma dict_get_entry (entries : list (string * value)) key v :
  dict_get String.eqb key entries = Some v -> In (key, v) entries.
Proof.
  intros H. apply dict_get_in in H as (k' & Hin & Hk).
  apply String.eqb_eq in Hk as <-. exact Hin.
Qed.

Lemma valid_positional items path :
  positional path = true ->
  valid (VList items) path = valid_elements items 0 path.
Proof.
  intros H. apply positional_branch in H as (H1 & H2 & H3 & H4).
  rewrite valid_list, H1, H2, H3. unfold unordered. rewrite H4. reflexivity.
Qed.

Lemma not_positional path :
  endswith path ".methods" = false -> endswith path ".fields" = false ->
  endswith path ".constructors" = false -> unordered path = false ->
  positional path = true.
Proof.
  unfold positional, unordered. intros -> -> -> H.
  apply orb_false_iff in H as (-> & ->). reflexivity.
Qed.

Lemma mem_get {V : Type} key (entries : list (string * V)) :
  dict_mem String.eqb key entries = true ->
  exists v, dict_get String.eqb key entries = Some v /\ In (key, v) entries.
Proof.
  unfold dict_mem.
  destruct (dict_get String.eqb key entries) as [v |] eqn:E; [| discriminate].
  intros _. exists v. split; [reflexivity |].
  apply dict_get_in in E as (k' & Hin & Hk).
  apply String.eqb_eq in Hk as <-. exact Hin.
Qed.

Section Equivalent.
Variable sc : script.

Lemma compare_values_symmetric v : symmetric sc v.
Proof.
  induction v as [| b | n | s | items IH | entries IH] using value_ind;
    intros w path Hv Hw H;
    try (match type of H with
         | compare_values _ ?x _ _ = _ =>
             destruct (scalar_pass sc x w path eq_refl H)
         end; exact H).
  - (* lists *)
    pose proof (pass_same_type _ _ _ _ H) as Ht.
    destruct w as [| | | | others |]; try discriminate Ht.
    destruct (positional path) eqn:Hpos.
    { rewrite valid_positional in Hv, Hw by exact Hpos.
      apply (compare_sequence_pass sc items others path Hpos) in H
        as (Hlen & Hel).
      apply (compare_sequence_pass sc others items path Hpos).
      split; [symmetry; exact Hlen |].
      intros j x y Hx Hy. rewrite Forall_forall in IH.
      apply (IH y (nth_error_In _ _ Hy)).
      - apply (valid_elements_nth items 0 path j y Hv Hy).
      - apply (valid_elements_nth others 0 path j x Hw Hx).
      - apply (Hel j y x Hy Hx). }
    rewrite compare_values_list_eq in *. rewrite valid_list in Hv, Hw.
    assert (Hall : Forall (fun v => forall w p,
                               valid v p = true -> valid w p = true ->
                               compare_values sc v w p = Ok [] ->
                               compare_values sc w v p = Ok []) items)
      by exact IH.
    destruct (endswith path ".methods") eqn:E1.
    { apply (compare_keyed_sym method_sig sig_eqb sig_strs _ _ method_path
               (compare_values sc) sig_refl sig_sym sig_eqb_strs path items);
        assumption. }
    destruct (endswith path ".fields") eqn:E2.
    { apply (compare_keyed_sym name_key hkey_eqb is_hstr _ _ field_path
               (compare_values sc) hkey_refl hkey_sym hkey_eqb_str path items);
        assumption. }
    destruct (endswith path ".constructors") eqn:E3.
    { apply (compare_keyed_sym params_key tuple_eqb (forallb is_hstr) _ _
               constructor_path (compare_values sc) tuple_refl tuple_sym
               tuple_eqb_strs path items); assumption. }
    destruct (unordered path) eqn:Hu.
    { apply all_strs in Hv as (rs & ->). apply all_strs in Hw as (ss & ->).
      rewrite !sorted_strs in *. cbn [bind] in *.
      destruct (py_eq (VList (map VStr (sort_str rs)))
                  (VList (map VStr (sort_str ss)))) eqn:E;
        [| discriminate H].
      apply py_eq_strs in E. rewrite E.
      rewrite (proj2 (py_eq_strs _ _) eq_refl). reflexivity. }
    rewrite (not_positional path E1 E2 E3 Hu) in Hpos. discriminate Hpos.
  - (* dictionaries *)
    pose proof (pass_same_type _ _ _ _ H) as Ht.
    destruct w as [| | | | | others]; try discriminate Ht.
    rewrite valid_dict in Hv, Hw.
    apply andb_true_iff in Hv as (Hvd & Hv). apply andb_true_iff in Hw as (Hwd & Hw).
    apply distinct_keys_spec in Hvd, Hwd.
    apply compare_dict_pass in H as (Hloop & Hextra).
    apply compare_dict_pass. split.
    + intros key y Hy.
      destruct (mem_get key entries (Hextra key (in_keys_mem _ _
                  (in_map fst _ _ Hy)))) as (x & Hg & Hx).
      exists x. split; [exact Hg |].
      destruct (Hloop key x Hx) as (y' & Hg' & Hc).
      rewrite (distinct_get String.eqb String.eqb_refl String.eqb_sym key y
                 others Hwd Hy) in Hg'.
      injection Hg' as <-. rewrite Forall_forall in IH.
      apply (IH (key, x) Hx); [apply (valid_entry _ _ _ _ Hv Hx)
                              | apply (valid_entry _ _ _ _ Hw Hy) | exact Hc].
    + intros key Hk. destruct (mem_get key entries Hk) as (x & _ & Hx).
      destruct (Hloop key x Hx) as (y & Hg & _). unfold dict_mem.
      rewrite Hg. reflexivity.
Qed.

Lemma compare_values_transitive v : transitive sc v.
Proof.
  induction v as [| b | n | s | items IH | entries IH] using value_ind;
    intros w u path Hv Hw Hu H1 H2;
    try (match type of H1 with
         | compare_values _ ?x _ _ = _ =>
             destruct (scalar_pass sc x w path eq_refl H1)
         end; exact H2).
  - (* lists *)
    pose proof (pass_same_type _ _ _ _ H1) as Ht1.
    destruct w as [| | | | others |]; try discriminate Ht1.
    pose proof (pass_same_type _ _ _ _ H2) as Ht2.
    destruct u as [| | | | third |]; try discriminate Ht2.
    destruct (positional path) eqn:Hpos.
    { rewrite valid_positional in Hv, Hw, Hu by exact Hpos.
      apply (compare_sequence_pass sc items others path Hpos) in H1
        as (Hlen1 & Hel1).
      apply (compare_sequence_pass sc others third path Hpos) in H2
        as (Hlen2 & Hel2).
      apply (compare_sequence_pass sc items third path Hpos).
      split; [congruence |].
      intros j x z Hx Hz. rewrite Forall_forall in IH.
      destruct (nth_error others j) as [y |] eqn:Hy.
      - apply (IH x (nth_error_In _ _ Hx) y z).
        + apply (valid_elements_nth items 0 path j x Hv Hx).
        + apply (valid_elements_nth others 0 path j y Hw Hy).
        + apply (valid_elements_nth third 0 path j z Hu Hz).
        + apply (Hel1 j x y Hx Hy).
        + apply (Hel2 j y z Hy Hz).
      - apply nth_error_None in Hy.
        assert (j < List.length items)
          by (apply nth_error_Some; congruence).
        lia. }
    rewrite compare_values_list_eq in *. rewrite valid_list in Hv, Hw, Hu.
    assert (Hall : Forall (fun v => forall w u p,
                               valid v p = true -> valid w p = true ->
                               valid u p = true ->
                               compare_values sc v w p = Ok [] ->
                               compare_values sc w u p = Ok [] ->
                               compare_values sc v u p = Ok []) items)
      by exact IH.
    destruct (endswith path ".methods") eqn:E1.
    { apply (compare_keyed_trans method_sig sig_eqb sig_strs _ _ method_path
               (compare_values sc) sig_refl sig_sym sig_eqb_strs path items
               others third); assumption. }
    destruct (endswith path ".fields") eqn:E2.
    { apply (compare_keyed_trans name_key hkey_eqb is_hstr _ _ field_path
               (compare_values sc) hkey_refl hkey_sym hkey_eqb_str path items
               others third); assumption. }
    destruct (endswith path ".constructors") eqn:E3.
    { apply (compare_keyed_trans params_key tuple_eqb (forallb is_hstr) _ _
               constructor_path (compare_values sc) tuple_refl tuple_sym
               tuple_eqb_strs path items others third); assumption. }
    destruct (unordered path) eqn:Hun.
    { apply all_strs in Hv as (rs & ->). apply all_strs in Hw as (ss & ->).
      apply all_strs in Hu as (ts & ->).
      rewrite !sorted_strs in *. cbn [bind] in *.
      destruct (py_eq (VList (map VStr (sort_str rs)))
                  (VList (map VStr (sort_str ss)))) eqn:Ea;
        [| discriminate H1].
      apply py_eq_strs in Ea. rewrite Ea. exact H2. }
    rewrite (not_positional path E1 E2 E3 Hun) in Hpos. discriminate Hpos.
  - (* dictionaries *)
    pose proof (pass_same_type _ _ _ _ H1) as Ht1.
    destruct w as [| | | | | others]; try discriminate Ht1.
    pose proof (pass_same_type _ _ _ _ H2) as Ht2.
    destruct u as [| | | | | third]; try discriminate Ht2.
    rewrite valid_dict in Hv, Hw, Hu.
    apply andb_true_iff in Hv as (_ & Hv). apply andb_true_iff in Hw as (_ & Hw).
    apply andb_true_iff in Hu as (_ & Hu).
    apply compare_dict_pass in H1 as (Hloop1 & Hextra1).
    apply compare_dict_pass in H2 as (Hloop2 & Hextra2).
    apply compare_dict_pass. split.
    + intros key x Hx.
      destruct (Hloop1 key x Hx) as (y & Hgy & Hc1).
      pose proof (dict_get_entry _ _ _ Hgy) as Hy.
      destruct (Hloop2 key y Hy) as (z & Hgz & Hc2).
      exists z. split; [exact Hgz |].
      rewrite Forall_forall in IH.
      apply (IH (key, x) Hx y z);
        [apply (valid_entry _ _ _ _ Hv Hx) | apply (valid_entry _ _ _ _ Hw Hy)
         | apply (valid_entry _ _ _ _ Hu (dict_get_entry _ _ _ Hgz))
         | exact Hc1 | exact Hc2].
    + intros key Hk. apply Hextra1, Hextra2, Hk.
Qed.
End Equivalent.

(** X21: on valid values the absence of a discrepancy is an equivalence:
    if a reference and a student's value compare without a discrepancy,
    so do they with the roles exchanged; and if a first value compares
    without a discrepancy with a second one, and the second one with a
    third one, so does the first one with the third one.  With the
    reflexivity on valid values this makes the verdict PASS independent
    of which of two matching values is taken as the reference.  Both
    scripts. *)
Theorem pass_is_an_equivalence sc :
  (forall v w path,
      valid v path = true -> valid w path = true ->
      compare_values sc v w path = Ok [] -> compare_values sc w v path = Ok [])
  /\ (forall v w u path,
         valid v path = true -> valid w path = true -> valid u path = true ->
         compare_values sc v w path = Ok [] ->
         compare_values sc w u path = Ok [] ->
         compare_values sc v u path = Ok []).
Proof.
  split.
  - intros v. apply compare_values_symmetric.
  - intros v. apply compare_values_transitive.
Qed.

Lemma pass_is_an_equivalence_witness :
  valid (class_of "Foo" [] [] [field_of "x" "int"; field_of "y" "int"] [] [])
    "Class Foo" = true
  /\ valid (class_of "Foo" [] [] [field_of "y" "int"; field_of "x" "int"] [] [])
       "Class Foo" = true
  /\ compare_values Standalone
       (class_of "Foo" [] [] [field_of "x" "int"; field_of "y" "int"] [] [])
       (class_of "Foo" [] [] [field_of "y" "int"; field_of "x" "int"] [] [])
       "Class Foo" = Ok []
  /\ compare_values Standalone
       (class_of "Foo" [] [] [field_of "y" "int"; field_of "x" "int"] [] [])
       (class_of "Foo" [] [] [field_of "x" "int"; field_of "y" "int"] [] [])
       "Class Foo" = Ok [].
Proof.
  split; [reflexivity |]. split; [reflexivity |]. split; [reflexivity |].
  apply (proj1 (pass_is_an_equivalence Standalone)); reflexivity.
Defined.

(** ** The rows *)

Lemma corpus_line_nonempty d : corpus_line d -> d <> "".
Proof.
  intros [(k & ->) | [(k & ->) | (k & H)]]; try discriminate.
  intros ->. discriminate H.
Qed.

Lemma concat_nonempty sep d ds : d <> "" -> String.concat sep (d :: ds) <> "".
Proof.
  intros Hd. destruct d as [| c d]; [congruence |].
  destruct ds; cbn; discriminate.
Qed.

Lemma graded_well_formed student_id ds :
  Forall corpus_line ds -> well_formed_row (graded student_id ds).
Proof.
  intros H. unfold well_formed_row, graded, status, comments. cbn [fst snd].
  destruct ds as [| d ds].
  - split; [auto |]. split; reflexivity.
  - split; [auto |]. inversion H as [| ? ? Hd _]; subst.
    split; [discriminate |]. intros E. exfalso.
    apply (concat_nonempty newline d ds (corpus_line_nonempty d Hd) E).
Qed.

Lemma compare_uml_data_lines sc ref_data student_data ds :
  compare_uml_data sc ref_data student_data = Ok ds -> Forall corpus_line ds.
Proof.
  unfold compare_uml_data. intros H. apply bind_ok in H as (ref & _ & H).
  apply (compare_corpora_lines _ _ _ _ H).
Qed.

Lemma error_well_formed student_id text :
  text <> "" -> well_formed_row (student_id, "ERROR", text).
Proof.
  intros H. unfold well_formed_row, status, comments. cbn [fst snd].
  split; [auto |]. split; [discriminate | congruence].
Qed.

Lemma embedded_grade_well_formed extract str_of_exn ref_data target_files s :
  well_formed_row
    (EmbeddedScript.grade extract str_of_exn ref_data target_files s).
Proof.
  unfold EmbeddedScript.grade.
  destruct (extracted s); [| apply error_well_formed; discriminate].
  destruct (EmbeddedScript.process_directory extract (extract_dir s)
              target_files) as [[| kv d] | |];
    try (apply error_well_formed; discriminate).
  destruct (compare_uml_data Embedded ref_data (kv :: d)) as [ds | e] eqn:E.
  - apply graded_well_formed, (compare_uml_data_lines _ _ _ _ E).
  - apply error_well_formed. discriminate.
Qed.

Lemma standalone_grade_well_formed extract ref_data target_files s r :
  StandaloneScript.grade extract ref_data target_files s = Ok r ->
  well_formed_row r.
Proof.
  unfold StandaloneScript.grade.
  destruct (extracted s);
    [| intros H; injection H as <-; apply error_well_formed; discriminate].
  destruct (StandaloneScript.process_directory extract (extract_dir s)
              target_files) as [[| kv d] |];
    try (intros H; injection H as <-; apply error_well_formed; discriminate).
  intros H. apply bind_ok in H as (ds & Hds & H). injection H as <-.
  apply graded_well_formed, (compare_uml_data_lines _ _ _ _ Hds).
Qed.

Lemma count_status_perm st a b :
  Permutation a b -> count_status st a = count_status st b.
Proof.
  intros H. unfold count_status. apply Permutation_length.
  induction H as [| x a b _ IH | x y a | a b c _ IH1 _ IH2]; cbn [filter].
  - constructor.
  - destruct (String.eqb (status x) st); [constructor |]; exact IH.
  - destruct (String.eqb (status x) st), (String.eqb (status y) st);
      try reflexivity. apply perm_swap.
  - exact (Permutation_trans IH1 IH2).
Qed.

Lemma count_status_total results :
  Forall well_formed_row results ->
  count_status "PASS" results + count_status "FAIL" results
  + count_status "ERROR" results = List.length results.
Proof.
  unfold count_status.
  induction 1 as [| r rest (Hs & _) _ IH]; [reflexivity |].
  cbn [filter List.length].
  destruct Hs as [E | [E | E]]; rewrite E;
    repeat match goal with
           | |- context [String.eqb ?a ?b] =>
               let v := eval vm_compute in (String.eqb a b) in
               change (String.eqb a b) with v
           end;
    cbn [List.length]; lia.
Qed.

(** X22: every row the two scripts write has the status PASS, FAIL or
    ERROR, and its comments are empty exactly when the status is PASS;
    so the three numbers of the summary that the generated script
    prints add up to the number of submissions. *)
Theorem rows_well_formed extract str_of_exn ref_data lines submissions :
  (forall rows,
      EmbeddedScript.process_submissions extract str_of_exn ref_data lines
        submissions = Some rows ->
      Forall well_formed_row rows
      /\ count_status "PASS" rows + count_status "FAIL" rows
         + count_status "ERROR" rows = List.length submissions)
  /\ (forall rows,
         StandaloneScript.process_student_submissions extract ref_data lines
           submissions = Ok rows ->
         Forall well_formed_row rows).
Proof.
  split.
  - unfold EmbeddedScript.process_submissions. cbv zeta.
    destruct submissions as [| s rest] eqn:Es; [discriminate |].
    rewrite <- Es. intros rows H. injection H as <-.
    assert (Hall : Forall well_formed_row
                     (map (EmbeddedScript.grade extract str_of_exn ref_data
                             (read_target_files lines)) submissions)).
    { apply Forall_forall. intros r Hr. apply in_map_iff in Hr as (x & <- & _).
      apply embedded_grade_well_formed. }
    pose proof (sort_rows_perm
                  (map (EmbeddedScript.grade extract str_of_exn ref_data
                          (read_target_files lines)) submissions)) as Hp.
    split.
    + apply Forall_forall. intros r Hr. rewrite Forall_forall in Hall.
      apply Hall, (Permutation_in _ Hp Hr).
    + rewrite !(count_status_perm _ _ _ Hp), (count_status_total _ Hall).
      apply length_map.
  - unfold StandaloneScript.process_student_submissions. cbv zeta.
    intros rows H. apply bind_ok in H as (results & Hr & H). injection H as <-.
    apply Forall_forall. intros r Hin.
    apply (Permutation_in _ (sort_rows_perm results)) in Hin.
    destruct (mapM_in _ _ _ Hr r Hin) as (s & _ & Hs).
    apply (standalone_grade_well_formed _ _ _ _ _ Hs).
Qed.

(** ** Running the extractor *)

(** X23: one run of the extractor and the [output.json] it leaves, as
    the two scripts take them.  When the program ends within 30 seconds
    with an output that can be decoded, both scripts return the same
    data, except when it ends with a return code other than 0 and names
    a [ParseProblemException] on its standard error: then the generated
    script returns ["PARSE_ERROR"] and the stand-alone script [None].
    When the program ends later, or its output cannot be decoded, the
    generated script returns [None], and the stand-alone script, which
    waits and does not decode, what it returns for a program that ends
    in time.  When the program cannot be started both return [None].
    The stand-alone script returns something else than [None] only for
    a program that ends with the return code 0 and an [output.json]
    that can be read, and then it returns the data of that file. *)
Theorem extractors_agree process output :
  (forall returncode stderr,
      process = Ended returncode stderr true true ->
      (parse_problem (Exited returncode stderr) = false ->
       EmbeddedScript.process_file_with_structure_jar
         (EmbeddedScript.run_of process) output
       = StandaloneScript.process_file_with_structure_jar
           (StandaloneScript.run_of process) output)
      /\ (parse_problem (Exited returncode stderr) = true ->
          EmbeddedScript.process_file_with_structure_jar
            (EmbeddedScript.run_of process) output = VStr "PARSE_ERROR"
          /\ StandaloneScript.process_file_with_structure_jar
               (StandaloneScript.run_of process) output = VNone))
  /\ (forall returncode stderr in_time is_text,
         process = Ended returncode stderr in_time is_text ->
         in_time && is_text = false ->
         EmbeddedScript.process_file_with_structure_jar
           (EmbeddedScript.run_of process) output = VNone
         /\ StandaloneScript.process_file_with_structure_jar
              (StandaloneScript.run_of process) output
            = StandaloneScript.process_file_with_structure_jar
                (Exited returncode stderr) output)
  /\ (process = NotStarted ->
      EmbeddedScript.process_file_with_structure_jar
        (EmbeddedScript.run_of process) output = VNone
      /\ StandaloneScript.process_file_with_structure_jar
           (StandaloneScript.run_of process) output = VNone)
  /\ (StandaloneScript.process_file_with_structure_jar
        (StandaloneScript.run_of process) output <> VNone ->
      exists stderr in_time is_text data,
        process = Ended 0 stderr in_time is_text /\ output = Output data
        /\ StandaloneScript.process_file_with_structure_jar
             (StandaloneScript.run_of process) output = data).
Proof.
  split; [| split; [| split]].
  - intros returncode stderr ->. cbn [EmbeddedScript.run_of
      StandaloneScript.run_of andb].
    unfold EmbeddedScript.process_file_with_structure_jar,
      StandaloneScript.process_file_with_structure_jar, parse_problem.
    destruct (Z.eqb_spec returncode 0) as [-> | Hrc]; cbn [negb andb];
      cbv zeta.
    + split; [reflexivity | discriminate].
    + split; intros ->; auto.
  - intros returncode stderr in_time is_text -> Hb.
    cbn [EmbeddedScript.run_of StandaloneScript.run_of]. rewrite Hb.
    split; reflexivity.
  - intros ->. split; reflexivity.
  - destruct process as [| returncode stderr in_time is_text];
      cbn [StandaloneScript.run_of
           StandaloneScript.process_file_with_structure_jar];
      [congruence |].
    destruct (Z.eqb_spec returncode 0) as [-> | Hrc]; cbn [negb];
      [| congruence].
    destruct output as [| | data]; try congruence.
    intros _. exists stderr, in_time, is_text, data. auto.
Qed.

Lemma standalone_failure_row extractor ref_data target_files s file e :
  extracted s = true ->
  In file (find_java_files (extract_dir s) target_files) ->
  class_key (extractor (snd file)) = Raise e ->
  StandaloneScript.grade extractor ref_data target_files s
  = Ok (student_id s, "ERROR", "Failed to generate UML data").
Proof.
  intros Hx Hin He. unfold StandaloneScript.grade. rewrite Hx.
  unfold StandaloneScript.process_directory.
  destruct (find_java_files (extract_dir s) target_files) as [| f r] eqn:Hf;
    [reflexivity |].
  rewrite (proj2 (standalone_loop_none extractor (f :: r))) by eauto.
  reflexivity.
Qed.

Lemma embedded_parse_error_row extractor str_of_exn ref_data target_files s :
  extracted s = true ->
  find_java_files (extract_dir s) target_files <> [] ->
  (forall file, In file (find_java_files (extract_dir s) target_files) ->
                parse_error extractor file = true) ->
  EmbeddedScript.grade extractor str_of_exn ref_data target_files s
  = (student_id s, "ERROR", "Parse error - likely syntax error in code").
Proof.
  intros Hx Hne Hall. unfold EmbeddedScript.grade. rewrite Hx.
  unfold EmbeddedScript.process_directory.
  destruct (find_java_files (extract_dir s) target_files) as [| f r] eqn:Hf;
    [congruence |].
  rewrite embedded_loop_of.
  assert (Hnone : filter (parsed extractor) (f :: r) = []).
  { apply filter_none. intros x Hin. unfold parsed.
    rewrite (Hall x Hin). reflexivity. }
  rewrite Hnone. cbn [StandaloneScript.directory_loop app].
  assert (Hsome : In f (filter (parse_error extractor) (f :: r)))
    by (apply filter_In; split; [left; reflexivity
                                | apply Hall; left; reflexivity]).
  destruct (filter (parse_error extractor) (f :: r)); [destruct Hsome |].
  reflexivity.
Qed.

(** X24: a file that does not parse.  When the run of the extractor on
    one of the found target files ends with a return code other than 0,
    the stand-alone script gives the submission the row
    [(id, "ERROR", "Failed to generate UML data")], whatever the other
    files are.  When the runs on all the found target files end with a
    return code other than 0 and name a [ParseProblemException], the
    generated script gives it the row
    [(id, "ERROR", "Parse error - likely syntax error in code")]. *)
Theorem unparsable_submission runs str_of_exn ref_data target_files s :
  extracted s = true ->
  (forall file returncode stderr,
      In file (find_java_files (extract_dir s) target_files) ->
      fst (runs (snd file)) = Exited returncode stderr ->
      returncode <> 0%Z ->
      StandaloneScript.grade
        (extractor_of StandaloneScript.process_file_with_structure_jar runs)
        ref_data target_files s
      = Ok (student_id s, "ERROR", "Failed to generate UML data"))
  /\ (find_java_files (extract_dir s) target_files <> [] ->
      (forall file, In file (find_java_files (extract_dir s) target_files) ->
                    parse_problem (fst (runs (snd file))) = true) ->
      EmbeddedScript.grade
        (extractor_of EmbeddedScript.process_file_with_structure_jar runs)
        str_of_exn ref_data target_files s
      = (student_id s, "ERROR", "Parse error - likely syntax error in code")).
Proof.
  intros Hx. split.
  - intros file returncode stderr Hin Hrun Hrc.
    apply (standalone_failure_row _ _ _ _ file AttributeError Hx Hin).
    unfold extractor_of, StandaloneScript.process_file_with_structure_jar.
    rewrite Hrun. apply Z.eqb_neq in Hrc. rewrite Hrc. reflexivity.
  - intros Hne Hall. apply embedded_parse_error_row; [exact Hx | exact Hne |].
    intros file Hin. specialize (Hall file Hin).
    unfold parse_error, extractor_of,
      EmbeddedScript.process_file_with_structure_jar.
    unfold parse_problem in Hall.
    destruct (fst (runs (snd file))) as [| rc stderr]; [discriminate Hall |].
    apply andb_true_iff in Hall as (-> & Hc). cbv zeta. rewrite Hc.
    reflexivity.
Qed.

Lemma unparsable_submission_witness :
  extracted sample_submission = true
  /\ find_java_files (extract_dir sample_submission) sample_targets <> []
  /\ EmbeddedScript.grade
       (extractor_of EmbeddedScript.process_file_with_structure_jar
          (fun _ => (Exited 1 "ParseProblemException: Parse error", NoOutput)))
       (fun _ => "") (VList reference_list) sample_targets sample_submission
     = ("s01", "ERROR", "Parse error - likely syntax error in code").
Proof.
  split; [reflexivity |]. split; [discriminate |].
  apply (proj2 (unparsable_submission
                  (fun _ => (Exited 1 "ParseProblemException: Parse error",
                             NoOutput))
                  (fun _ => "") (VList reference_list) sample_targets
                  sample_submission eq_refl)).
  - discriminate.
  - intros file _. reflexivity.
Defined.

(** ** The archive of the sources *)

Lemma source_files_dir root subdirs files :
  source_files root (Dir subdirs files)
  = (map (fun file => (os_path_join root file,
                       relpath_core (os_path_join root file)))
       (filter keep_file files)
     ++ walk_dirs root subdirs)%list.
Proof.
  cbn [source_files]. f_equal.
  induction subdirs as [| [d sub] rest IH]; [reflexivity |].
  cbn [walk_dirs]. rewrite IH. reflexivity.
Qed.

Lemma has_file_dir subdirs files d rest file :
  has_file (Dir subdirs files) (d :: rest) file = among subdirs d rest file.
Proof.
  cbn [has_file]. induction subdirs as [| [d' sub] l IH]; [reflexivity |].
  cbn [among]. rewrite IH. reflexivity.
Qed.

Lemma path_below_cons root d rest file :
  path_below root (d :: rest) file = path_below (os_path_join root d) rest file.
Proof. reflexivity. Qed.

Lemma source_files_in t :
  forall root file_path archive_name,
    In (file_path, archive_name) (source_files root t)
    <-> exists dirs file,
          has_file t dirs file /\ forallb keep_dir dirs = true
          /\ keep_file file = true
          /\ file_path = path_below root dirs file
          /\ archive_name = relpath_core file_path.
Proof.
  induction t as [subdirs files IH] using tree_ind.
  intros root file_path archive_name. rewrite source_files_dir, in_app_iff.
  split.
  - intros [H | H].
    + apply in_map_iff in H as (file & Heq & Hin). injection Heq as <- <-.
      apply filter_In in Hin as (Hin & Hk).
      exists [], file. cbn [has_file forallb]. auto.
    + induction IH as [| [d sub] rest Hd _ IHrest]; [destruct H |].
      cbn [walk_dirs] in H. apply in_app_iff in H as [H | H].
      * destruct (keep_dir d) eqn:Ed; [| destruct H].
        cbn [snd] in Hd. apply Hd in H
          as (dirs & file & Hf & Hdirs & Hfile & -> & ->).
        exists (d :: dirs), file. rewrite has_file_dir. cbn [among forallb].
        rewrite Ed, Hdirs. auto 8.
      * destruct (IHrest H) as (dirs & file & Hf & Hrest).
        exists dirs, file. split; [| exact Hrest].
        destruct dirs as [| d0 dirs0]; [exact Hf |].
        rewrite has_file_dir in *. cbn [among]. right. exact Hf.
  - intros (dirs & file & Hf & Hdirs & Hfile & -> & ->).
    destruct dirs as [| d rest].
    + left. cbn [has_file] in Hf. apply in_map_iff. exists file.
      split; [reflexivity |]. apply filter_In. auto.
    + right. rewrite has_file_dir in Hf. cbn [forallb] in Hdirs.
      apply andb_true_iff in Hdirs as (Hd & Hrest).
      induction IH as [| [d' sub] l Hsub _ IHl]; [destruct Hf |].
      cbn [among] in Hf. cbn [walk_dirs]. apply in_app_iff.
      destruct Hf as [(-> & Hf) | Hf].
      * left. rewrite Hd. cbn [snd] in Hsub. apply Hsub.
        exists rest, file. auto.
      * right. apply IHl, Hf.
Qed.

Lemma rev_string_head s :
  match rev_string s with
  | EmptyString => s = ""
  | String c _ => last_char s = Some c
  end.
Proof.
  induction s as [| d r IH]; cbn [rev_string last_char]; [reflexivity |].
  destruct (rev_string r) as [| c t]; cbn [append].
  - rewrite IH. reflexivity.
  - rewrite IH. reflexivity.
Qed.

Lemma endswith_char s c :
  endswith s (String c "")
  = match last_char s with
    | Some d => Ascii.eqb c d
    | None => false
    end.
Proof.
  unfold endswith. cbn [rev_string append].
  pose proof (rev_string_head s) as H.
  destruct (rev_string s) as [| d t]; cbn [startswith].
  - rewrite H. reflexivity.
  - rewrite H. destruct t; rewrite andb_true_r; reflexivity.
Qed.

Lemma last_char_mem s c : last_char s = Some c -> mem_char c s = true.
Proof.
  induction s as [| d r IH]; cbn [last_char mem_char]; [discriminate |].
  destruct (last_char r) as [x |].
  - intros H. rewrite (IH H). apply orb_true_r.
  - intros H. injection H as <-. rewrite Ascii.eqb_refl. reflexivity.
Qed.

Lemma plain_spec name :
  plain name = true -> name <> "" /\ mem_char "/" name = false.
Proof.
  unfold plain. rewrite andb_true_iff, !negb_true_iff, String.eqb_neq. auto.
Qed.

Lemma plain_last name :
  plain name = true -> forall root, endswith (root ++ "/" ++ name) "/" = false.
Proof.
  intros H root. apply plain_spec in H as (Hne & Hsep).
  rewrite endswith_char, !last_char_app.
  destruct (last_char name) as [c |] eqn:E.
  - destruct (Ascii.eqb_spec "/"%char c) as [<- | _]; [| reflexivity].
    apply last_char_mem in E. congruence.
  - destruct name; [congruence |]. cbn [last_char] in E.
    destruct (last_char name); discriminate E.
Qed.

Lemma os_path_join_plain root name :
  plain name = true -> root <> "" -> endswith root "/" = false ->
  os_path_join root name = root ++ "/" ++ name.
Proof.
  intros H Hroot Hend. apply plain_spec in H as (Hne & Hsep).
  unfold os_path_join. rewrite Hend.
  apply String.eqb_neq in Hroot. rewrite Hroot. cbn [orb].
  destruct name as [| c r]; [congruence |]. cbn [startswith mem_char] in *.
  apply orb_false_iff in Hsep as (Hc & _). rewrite Hc. reflexivity.
Qed.

Lemma path_below_plain dirs :
  forall root file,
    forallb plain dirs = true -> plain file = true ->
    root <> "" -> endswith root "/" = false ->
    path_below root dirs file
    = root ++ "/" ++ String.concat "/" (dirs ++ [file]).
Proof.
  induction dirs as [| d rest IH]; intros root file Hd Hf Hroot Hend.
  - apply os_path_join_plain; assumption.
  - cbn [forallb] in Hd. apply andb_true_iff in Hd as (Hd & Hrest).
    rewrite path_below_cons, (os_path_join_plain root d Hd Hroot Hend).
    rewrite IH; try assumption.
    + rewrite !append_assoc. cbn [app String.concat].
      destruct (rest ++ [file])%list eqn:E;
        [destruct rest; discriminate E |].
      reflexivity.
    + destruct root; [congruence | discriminate].
    + apply plain_last, Hd.
Qed.

Lemma relpath_core_below q : relpath_core ("core/" ++ q) = q.
Proof.
  unfold relpath_core. rewrite length_append.
  change (String.length "core/") with 5.
  replace (5 + String.length q - 5) with (String.length q) by lia.
  change 5 with (String.length "core/") at 1.
  rewrite substring_skip.
  induction q as [| c r IH]; cbn [String.length substring]; [reflexivity |].
  rewrite IH. reflexivity.
Qed.

(** X25: [create_source_archive] adds a file to the archive exactly
    when the file lies below [core], neither the file nor a directory
    between [core] and it begins with a dot, none of those directories
    is [__pycache__], and the file does not end in [.pyc]; a directory
    that is left out is left out with all it holds.  The name of the
    file in the archive is its path below [core], and its path on disk
    is that name after ["core/"]. *)
Theorem source_archive_files t files_to_add :
  create_source_archive (Some t) = Some files_to_add ->
  (forall file_path archive_name,
      In (file_path, archive_name) files_to_add
      <-> exists dirs file,
            has_file t dirs file /\ forallb keep_dir dirs = true
            /\ keep_file file = true
            /\ file_path = path_below "core" dirs file
            /\ archive_name = relpath_core file_path)
  /\ (forall dirs file,
         forallb plain dirs = true -> plain file = true ->
         relpath_core (path_below "core" dirs file)
         = String.concat "/" (dirs ++ [file])
         /\ path_below "core" dirs file
            = "core/" ++ String.concat "/" (dirs ++ [file])).
Proof.
  intros H. injection H as <-. split.
  - apply source_files_in.
  - intros dirs file Hd Hf.
    rewrite (path_below_plain dirs "core" file Hd Hf) by (discriminate || reflexivity).
    split; [apply relpath_core_below | reflexivity].
Qed.

Lemma source_archive_files_witness :
  create_source_archive
    (Some (Dir [(".git", Dir [] ["config"]);
                ("grader", Dir [("__pycache__", Dir [] ["diff.cpython.pyc"])]
                             ["diff.py"; "diff.pyc"])]
               ["main.py"; ".env"]))
  = Some [("core/main.py", "main.py"); ("core/grader/diff.py", "grader/diff.py")]
  /\ In ("core/grader/diff.py", "grader/diff.py")
       [("core/main.py", "main.py"); ("core/grader/diff.py", "grader/diff.py")]
  /\ exists dirs file,
      forallb keep_dir dirs = true /\ keep_file file = true
      /\ "core/grader/diff.py" = path_below "core" dirs file.
Proof.
  split; [reflexivity |]. split; [right; left; reflexivity |].
  destruct (proj1 (proj1 (source_archive_files
              (Dir [(".git", Dir [] ["config"]);
                    ("grader", Dir [("__pycache__", Dir [] ["diff.cpython.pyc"])]
                                 ["diff.py"; "diff.pyc"])]
                   ["main.py"; ".env"])
              [("core/main.py", "main.py");
               ("core/grader/diff.py", "grader/diff.py")] eq_refl)
            "core/grader/diff.py" "grader/diff.py")
            (or_intror (or_introl eq_refl)))
    as (dirs & file & _ & Hd & Hf & Hp & _).
  exists dirs, file. auto.
Defined.

(** ** The lines on classes *)

Lemma not_class_line k d :
  startswith d ("Class " ++ hkey_str k) = true ->
  (forall n, d <> "Missing class: " ++ n) /\ (forall n, d <> "Extra class: " ++ n).
Proof.
  intros H. split; intros n ->; cbn [append startswith] in H;
    match type of H with
    | context [Ascii.eqb ?a ?b] =>
        destruct (Ascii.eqb_spec a b) as [E | _]; [discriminate E |]
    end; discriminate H.
Qed.

Lemma ref_class_loop_missing sc names ref stu :
  forall ds,
    ref_class_loop sc names (Classes ref) (Classes stu) = Ok ds ->
    forall n,
      In ("Missing class: " ++ n) ds
      <-> exists k, In k names /\ hkey_str k = n
                    /\ dict_mem hkey_eqb k stu = false.
Proof.
  induction names as [| k rest IH]; cbn [ref_class_loop data_mem bind];
    intros ds H n.
  - injection H as <-. split; [intros [] | intros (k & [] & _)].
  - apply bind_ok in H as (d & Hd & H). apply bind_ok in H as (ds' & Hds & H).
    injection H as <-. rewrite in_app_iff, (IH _ Hds n). split.
    + intros [Hin | (k' & Hk' & Hn & Hm)]; [| eauto using in_cons].
      destruct (dict_mem hkey_eqb k stu) eqn:E; cbn [negb] in Hd.
      * apply bind_ok in Hd as (rc & _ & Hd). apply bind_ok in Hd as (sc' & _ & Hd).
        apply compare_values_addressed in Hd. unfold under in Hd.
        rewrite Forall_forall in Hd.
        destruct (not_class_line k _ (Hd _ Hin)) as (Hno & _).
        destruct (Hno n eq_refl).
      * injection Hd as <-. destruct Hin as [Heq | []].
        unfold missing_class in Heq.
        exists k. split; [left; reflexivity |]. split; [| exact E].
        cbn [append] in Heq. injection Heq as Heq. exact Heq.
    + intros (k' & [<- | Hk'] & Hn & Hm); [| right; eauto].
      left. rewrite Hm in Hd. cbn [negb] in Hd. injection Hd as <-.
      left. unfold missing_class. rewrite Hn. reflexivity.
Qed.


Lemma ref_class_loop_no_extra sc names ref stu :
  forall ds,
    ref_class_loop sc names (Classes ref) (Classes stu) = Ok ds ->
    forall n, ~ In ("Extra class: " ++ n) ds.
Proof.
  induction names as [| k rest IH]; cbn [ref_class_loop data_mem bind];
    intros ds H n.
  - injection H as <-. intros [].
  - apply bind_ok in H as (d & Hd & H). apply bind_ok in H as (ds' & Hds & H).
    injection H as <-. rewrite in_app_iff. intros [Hin | Hin];
      [| exact (IH _ Hds n Hin)].
    destruct (dict_mem hkey_eqb k stu); cbn [negb] in Hd.
    + apply bind_ok in Hd as (rc & _ & Hd). apply bind_ok in Hd as (sc' & _ & Hd).
      apply compare_values_addressed in Hd. unfold under in Hd.
      rewrite Forall_forall in Hd.
      destruct (not_class_line k _ (Hd _ Hin)) as (_ & Hno).
      destruct (Hno n eq_refl).
    + injection Hd as <-. destruct Hin as [Heq | []]. discriminate Heq.
Qed.

Lemma stu_class_loop_extra names ref :
  forall ds,
    stu_class_loop names (Classes ref) = Ok ds ->
    forall n,
      (In ("Extra class: " ++ n) ds
       <-> exists k, In k names /\ hkey_str k = n
                     /\ dict_mem hkey_eqb k ref = false)
      /\ ~ In ("Missing class: " ++ n) ds.
Proof.
  induction names as [| k rest IH]; cbn [stu_class_loop data_mem bind];
    intros ds H n.
  - injection H as <-. split; [split; [intros [] | intros (k & [] & _)] | intros []].
  - apply bind_ok in H as (ds' & Hds & H). injection H as <-.
    destruct (IH _ Hds n) as (IHe & IHm).
    rewrite !in_app_iff, IHe. split; [split |].
    + intros [Hin | (k' & Hk' & Hn & Hm)]; [| eauto using in_cons].
      destruct (dict_mem hkey_eqb k ref) eqn:E; cbn [negb] in Hin;
        [destruct Hin |].
      destruct Hin as [Heq | []]. unfold extra_class in Heq.
      cbn [append] in Heq. injection Heq as Heq.
      exists k. split; [left; reflexivity |]. split; [exact Heq | exact E].
    + intros (k' & [<- | Hk'] & Hn & Hm); [| right; eauto].
      left. rewrite Hm. cbn [negb]. left. unfold extra_class.
      rewrite Hn. reflexivity.
    + intros [Hin | Hin]; [| exact (IHm Hin)].
      destruct (negb _); [| destruct Hin].
      destruct Hin as [Heq | []]. discriminate Heq.
Qed.

(** X26: in the result of [compare_uml_files] on two dictionaries, the
    line ["Missing class: <n>"] is present exactly when [n] is a class
    of the reference and not of the student's data, and the line
    ["Extra class: <n>"] exactly when [n] is a class of the student's
    data and not of the reference: no comparison of two classes
    produces such a line. *)
Theorem class_lines sc ref stu ds :
  compare_uml_files sc (VDict ref) (VDict stu) = Ok ds ->
  forall n,
    (In ("Missing class: " ++ n) ds
     <-> In n (map fst ref) /\ ~ In n (map fst stu))
    /\ (In ("Extra class: " ++ n) ds
        <-> In n (map fst stu) /\ ~ In n (map fst ref)).
Proof.
  rewrite compare_uml_files_corpora.
  change (normalize (VDict ref)) with (Ok (Classes (string_keys ref))).
  change (normalize (VDict stu)) with (Ok (Classes (string_keys stu))).
  cbn [bind]. unfold compare_corpora. cbn [data_keys bind]. intros H n.
  apply bind_ok in H as (first & Hf & H).
  apply bind_ok in H as (second & Hs & H). injection H as <-.
  pose proof (ref_class_loop_missing _ _ _ _ _ Hf n) as Hm.
  pose proof (ref_class_loop_no_extra _ _ _ _ _ Hf n) as Hne.
  destruct (stu_class_loop_extra _ _ _ Hs n) as (He & Hnm).
  rewrite !in_app_iff. split; split.
  - intros [Hin | Hin]; [| destruct (Hnm Hin)].
    apply Hm in Hin as (k & Hk & Hn & Hmem).
    rewrite string_keys_names in Hk. apply in_map_iff in Hk as (m & <- & Hk).
    change (m = n) in Hn. subst m. split; [exact Hk |].
    intros Hin. rewrite string_keys_mem, (in_keys_mem _ _ Hin) in Hmem.
    discriminate Hmem.
  - intros (Hr & Hns). left. apply Hm. exists (HStr n).
    split; [rewrite string_keys_names; apply in_map; exact Hr |].
    split; [reflexivity |]. rewrite string_keys_mem.
    destruct (dict_mem String.eqb n stu) eqn:E; [| reflexivity].
    destruct (Hns (mem_in_keys _ _ E)).
  - intros [Hin | Hin]; [destruct (Hne Hin) |].
    apply He in Hin as (k & Hk & Hn & Hmem).
    rewrite string_keys_names in Hk. apply in_map_iff in Hk as (m & <- & Hk).
    change (m = n) in Hn. subst m. split; [exact Hk |].
    intros Hin. rewrite string_keys_mem, (in_keys_mem _ _ Hin) in Hmem.
    discriminate Hmem.
  - intros (Hr & Hns). right. apply He. exists (HStr n).
    split; [rewrite string_keys_names; apply in_map; exact Hr |].
    split; [reflexivity |]. rewrite string_keys_mem.
    destruct (dict_mem String.eqb n ref) eqn:E; [| reflexivity].
    destruct (Hns (mem_in_keys _ _ E)).
Qed.

Lemma class_lines_witness :
  compare_uml_files Standalone (VDict []) (VDict student_corpus)
  = Ok ["Extra class: Foo"; "Extra class: Baz"]
  /\ (In "Extra class: Baz" ["Extra class: Foo"; "Extra class: Baz"]
      <-> In "Baz" (map fst student_corpus)
          /\ ~ In "Baz" (map fst (@nil (string * value)))).
Proof.
  split; [reflexivity |].
  apply (class_lines Standalone [] student_corpus
           ["Extra class: Foo"; "Extra class: Baz"] eq_refl "Baz").
Defined.

(** ** The recursion limit *)

(** X27: the recursion limit shows in one way only.  With [frames]
    further calls admitted, [compare_values] and [compare_uml_files]
    return or raise what they return or raise while the limit is out of
    reach, or they end in a [RecursionError]; they do the former when
    the calls are enough for the nesting of the two values.  The limit
    is met: a dictionary nested [n] deep in dictionaries, a valid value,
    compared with itself ends in a [RecursionError] when no more than
    [n] calls are admitted, and gives the empty list when they are
    enough.  Both scripts. *)
Theorem recursion_limit sc frames :
  (forall ref_val stu_val path,
      (Limited.compare_values sc frames ref_val stu_val path
       = compare_values sc ref_val stu_val path
       \/ Limited.compare_values sc frames ref_val stu_val path
          = Raise RecursionError)
      /\ (enough frames ref_val stu_val ->
          Limited.compare_values sc frames ref_val stu_val path
          = compare_values sc ref_val stu_val path))
  /\ (forall ref_data student_data,
         (Limited.compare_uml_files sc frames ref_data student_data
          = compare_uml_files sc ref_data student_data
          \/ Limited.compare_uml_files sc frames ref_data student_data
             = Raise RecursionError)
         /\ (enough frames ref_data student_data ->
             Limited.compare_uml_files sc frames ref_data student_data
             = compare_uml_files sc ref_data student_data))
  /\ (forall n path,
         valid (nested n) path = true
         /\ depth (nested n) = n
         /\ (frames <= n ->
             Limited.compare_values sc frames (nested n) (nested n) path
             = Raise RecursionError)
         /\ (enough frames (nested n) (nested n) ->
             Limited.compare_values sc frames (nested n) (nested n) path
             = Ok [])).
Proof.
  unfold enough. split; [| split].
  - intros ref_val stu_val path. split.
    + apply limited_compare_values_cut.
    + intros H. apply limited_compare_values_within. lia.
  - intros ref_data student_data. split.
    + apply limited_compare_uml_files_cut.
    + intros H. apply limited_compare_uml_files_within. lia.
  - intros n path. split; [apply nested_valid |].
    split; [apply nested_depth |]. rewrite nested_limit, nested_depth.
    split; intros H.
    + destruct (Nat.ltb_spec n frames); [lia | reflexivity].
    + destruct (Nat.ltb_spec n frames); [reflexivity | lia].
Qed.
